(** * Click-chess ("Caro No", explosive five-in-a-row): rule engine, strategy
    tiers and turn controller, embedded from [src/index.tsx] and its older
    sibling [src/unnamed/part_000].

    Conventions of the embedding.
    - JavaScript numbers used as indices, counters and integer scores are [Z].
    - A board is the array of arrays of the source, [list (list CellValue)];
      [rawRead] says what evaluating [board[r][c]] does, and [get] is its
      value, [None] where JavaScript yields [undefined].  Every read of the
      source but one is behind a bounds check on both indices or inside
      loops over [0 .. 14]; the exception is the neighbour test of level 3.
    - [{ r, c }] objects are pairs [(r, c)].
    - [Math.random()] is an explicit stream of draws [nat -> Q], read in the
      order in which the source calls it; rounding of doubles is not
      modelled.
    - React setters are record updates on one [State] value; timers that only
      clear a cosmetic flag are left out. *)

From Stdlib Require Import ZArith QArith Qround Lia.
From stdpp Require Import base tactics option list numbers strings sets.

Close Scope Q_scope.
Local Open Scope Z_scope.

(** ** Constants and data *)

Definition BOARD_SIZE : Z := 15.

(** [type CellValue = 0 | 1 | 2], with the source's names for the literals. *)
Inductive CellValue : Set :=
| EMPTY          (* 0 *)
| PLAYER_BLACK   (* 1 *)
| PLAYER_WHITE.  (* 2 *)

#[global] Instance CellValue_eq_dec : EqDecision CellValue.
Proof. solve_decision. Defined.

Definition cellCode (v : CellValue) : Z :=
  match v with EMPTY => 0 | PLAYER_BLACK => 1 | PLAYER_WHITE => 2 end.

(** [{ r: number, c: number }] and [CellValue[][]]. *)
Abbreviation Coord := (Z * Z)%type.
Abbreviation BoardState := (list (list CellValue)).

(** [arr[i]] for a JavaScript array and an integer index: [undefined]
    ([None]) outside [0 .. length-1]. *)
Definition jsIndex {A} (arr : list A) (i : Z) : option A :=
  if bool_decide (0 ≤ i) then arr !! Z.to_nat i else None.

(** What evaluating [board[r][c]] does: a value, [undefined] (the row exists
    but has no such column), or a TypeError (the row itself is [undefined]). *)
Inductive JsRead : Set :=
| JsCell (v : CellValue)
| JsUndefined
| JsTypeError.

Definition rawRead (board : BoardState) (r c : Z) : JsRead :=
  match jsIndex board r with
  | None => JsTypeError
  | Some row =>
      match jsIndex row c with
      | None => JsUndefined
      | Some v => JsCell v
      end
  end.

(** The value of [board[r][c]] whenever evaluation does not throw. *)
Definition get (board : BoardState) (r c : Z) : option CellValue :=
  match rawRead board r c with
  | JsCell v => Some v
  | _ => None
  end.

(** [board[r][c] === v] *)
Definition cellIs (board : BoardState) (r c : Z) (v : CellValue) : bool :=
  bool_decide (get board r c = Some v).

(** [x >= 0 && x < BOARD_SIZE] *)
Definition inb (x : Z) : bool := bool_decide (0 ≤ x) && bool_decide (x < BOARD_SIZE).

(** [board.map(row => [...row])] followed by [copy[r][c] = v].  The source
    only writes at indices that passed a bounds check or came from the
    candidate generator; outside the array the model leaves the board as it
    is (JavaScript would grow the row, or throw on a missing row). *)
Definition place (board : BoardState) (r c : Z) (v : CellValue) : BoardState :=
  if bool_decide (0 ≤ r) && bool_decide (0 ≤ c)
  then alter (λ row, <[Z.to_nat c := v]> row) (Z.to_nat r) board
  else board.

(** A board as [App] creates it: 15 rows of 15 cells. *)
Definition wfBoard (board : BoardState) : Prop :=
  length board = Z.to_nat BOARD_SIZE ∧
  Forall (λ row : list CellValue, length row = Z.to_nat BOARD_SIZE) board.

Definition emptyBoard : BoardState :=
  replicate (Z.to_nat BOARD_SIZE) (replicate (Z.to_nat BOARD_SIZE) EMPTY).

(** ** Rule engine *)

Definition directions : list (Z * Z) := [(0, 1); (1, 0); (1, 1); (1, -1)].

(** The cell visited at step [i] of one of the two [while (true)] loops of
    [checkLongLines]: [lastRow + dx * i] forwards, [lastRow - dx * j]
    backwards. *)
Definition stepCell (back : bool) (lastRow lastCol dx dy i : Z) : Coord :=
  if back then (lastRow - dx * i, lastCol - dy * i)
  else (lastRow + dx * i, lastCol + dy * i).

Definition stepOk (board : BoardState) (player : CellValue) (p : Coord) : bool :=
  inb p.1 && inb p.2 && cellIs board p.1 p.2 player.

(** One [while (true)] loop, with the loop variables [i], [count] and
    [lineCells] as arguments.  [None] means the fuel ran out before the
    [break]. *)
Fixpoint walk (fuel : nat) (board : BoardState) (player : CellValue)
    (back : bool) (lastRow lastCol dx dy : Z)
    (i count : Z) (lineCells : list Coord) : option (Z * list Coord) :=
  match fuel with
  | O => None
  | S fuel' =>
      let p := stepCell back lastRow lastCol dx dy i in
      if stepOk board player p
      then walk fuel' board player back lastRow lastCol dx dy
                (i + 1) (count + 1) (lineCells ++ [p])
      else Some (count, lineCells)
  end.

(** The body of [for (const [dx, dy] of directions)] up to the test
    [count >= 5]. *)
Definition scanLine (fuel : nat) (board : BoardState) (player : CellValue)
    (lastRow lastCol : Z) (d : Z * Z) : option (Z * list Coord) :=
  match walk fuel board player false lastRow lastCol d.1 d.2 1 1 [(lastRow, lastCol)] with
  | None => None
  | Some (count, lineCells) =>
      walk fuel board player true lastRow lastCol d.1 d.2 1 count lineCells
  end.

Fixpoint scanDirections (fuel : nat) (board : BoardState) (player : CellValue)
    (lastRow lastCol : Z) (dirs : list (Z * Z))
    (allStonesInLine : list Coord) : option (list Coord) :=
  match dirs with
  | [] => Some allStonesInLine
  | d :: dirs' =>
      match scanLine fuel board player lastRow lastCol d with
      | None => None
      | Some (count, lineCells) =>
          scanDirections fuel board player lastRow lastCol dirs'
            (if bool_decide (5 ≤ count) then allStonesInLine ++ lineCells
             else allStonesInLine)
      end
  end.

(** [Array.from(new Set(keys))]: a [Set] keeps the first insertion of each
    key, in insertion order.  The keys ["r,c"] are in bijection with the
    pairs, so the set is taken over the pairs themselves. *)
Fixpoint uniqueFrom (seen : list Coord) (l : list Coord) : list Coord :=
  match l with
  | [] => []
  | x :: l' =>
      if bool_decide (x ∈ seen) then uniqueFrom seen l'
      else x :: uniqueFrom (x :: seen) l'
  end.

Definition uniqueStones (l : list Coord) : list Coord := uniqueFrom [] l.

(** [checkLongLines] with an explicit bound on the iterations of each loop;
    the outer [None] is "a loop did not finish", the inner one is [null]. *)
Definition checkLongLinesFuel (fuel : nat) (board : BoardState)
    (lastRow lastCol : Z) (player : CellValue) : option (option (list Coord)) :=
  match scanDirections fuel board player lastRow lastCol directions [] with
  | None => None
  | Some allStonesInLine =>
      let u := uniqueStones allStonesInLine in
      Some (if bool_decide (0 < Z.of_nat (length u)) then Some u else None)
  end.

(** Each loop leaves the board after at most [BOARD_SIZE] steps, so this much
    fuel always suffices (lemma [checkLongLinesFuel_enough]). *)
Definition loopBound : nat := S (Z.to_nat BOARD_SIZE).

Definition checkLongLines (board : BoardState) (lastRow lastCol : Z)
    (player : CellValue) : option (list Coord) :=
  match checkLongLinesFuel loopBound board lastRow lastCol player with
  | Some res => res
  | None => None
  end.

Definition isBoardFull (board : BoardState) : bool :=
  forallb (λ r, forallb (λ c, negb (cellIs board r c EMPTY))
                        (seqZ 0 BOARD_SIZE))
          (seqZ 0 BOARD_SIZE).

(** [countStones]: the pair [(black, white)]. *)
Definition countStones (board : BoardState) : Z * Z :=
  foldl (λ acc row,
           foldl (λ (acc' : Z * Z) (cell : CellValue),
                    let b := if bool_decide (cell = PLAYER_BLACK) then acc'.1 + 1 else acc'.1 in
                    let w := if bool_decide (cell = PLAYER_WHITE) then acc'.2 + 1 else acc'.2 in
                    (b, w))
                 acc row)
        (0, 0) board.

(** ** Strategy tiers *)

(** What a JavaScript call does: it returns a value or throws. *)
Inductive Outcome (A : Type) : Type :=
| Returns (a : A)
| Throws.
Arguments Returns {A} a.
Arguments Throws {A}.

Definition center : Coord := (BOARD_SIZE `div` 2, BOARD_SIZE `div` 2).

(** [for (let d = -distance; d <= distance; d++)] *)
Definition offsets (distance : Z) : list Z := seqZ (- distance) (2 * distance + 1).

(** The innermost body of [getEmptyNeighbors].  The [Set] of keys and the
    array [moves] always hold the same cells, so one list stands for both. *)
Definition addNeighbor (board : BoardState) (r c : Z) (dr : Z)
    (moves : list Coord) (dc : Z) : list Coord :=
  let nr := r + dr in
  let nc := c + dc in
  if inb nr && inb nc && cellIs board nr nc EMPTY
  then if bool_decide ((nr, nc) ∈ moves) then moves else moves ++ [(nr, nc)]
  else moves.

Definition addNeighborsOf (board : BoardState) (distance : Z) (r : Z)
    (moves : list Coord) (c : Z) : list Coord :=
  if negb (cellIs board r c EMPTY)
  then foldl (λ moves' dr, foldl (addNeighbor board r c dr) moves' (offsets distance))
             moves (offsets distance)
  else moves.

Definition getEmptyNeighbors (board : BoardState) (distance : Z) : list Coord :=
  let moves :=
    foldl (λ moves' r, foldl (addNeighborsOf board distance r) moves' (seqZ 0 BOARD_SIZE))
          [] (seqZ 0 BOARD_SIZE) in
  if bool_decide (length moves = 0%nat) then [center] else moves.

(** Level 1.  [u] is the draw of [Math.random()]; the result is [None] where
    [moves[randomIdx]] is [undefined]. *)
Definition getEasyMove (board : BoardState) (aiPlayer : CellValue) (u : Q)
    : option Coord :=
  let moves := getEmptyNeighbors board 1 in
  if bool_decide (length moves = 0%nat) then Some (7, 7)
  else jsIndex moves (Qfloor (u * inject_Z (Z.of_nat (length moves)))).

(** One of the two [for (let k = 1; k < 5; k++)] loops of [evaluate], over
    the remaining values of [k], with [countAI] and [openEndsAI] as state. *)
Fixpoint probe (currentBoard : BoardState) (player : CellValue) (back : bool)
    (r c dx dy : Z) (ks : list Z) (countAI openEndsAI : Z) : Z * Z :=
  match ks with
  | [] => (countAI, openEndsAI)
  | k :: ks' =>
      let p := stepCell back r c dx dy k in
      if inb p.1 && inb p.2 then
        if cellIs currentBoard p.1 p.2 player
        then probe currentBoard player back r c dx dy ks' (countAI + 1) openEndsAI
        else if cellIs currentBoard p.1 p.2 EMPTY
             then (countAI, openEndsAI + 1)
             else (countAI, openEndsAI)
      else probe currentBoard player back r c dx dy ks' countAI openEndsAI
  end.

Definition lineScore (currentBoard : BoardState) (player : CellValue)
    (r c : Z) (score : Z) (d : Z * Z) : Z :=
  let '(countAI1, openEnds1) :=
    probe currentBoard player false r c d.1 d.2 (seqZ 1 4) 0 0 in
  let '(countAI, openEndsAI) :=
    probe currentBoard player true r c d.1 d.2 (seqZ 1 4) countAI1 openEnds1 in
  let score1 :=
    if bool_decide (countAI = 3) && bool_decide (0 < openEndsAI) then score + 50 else score in
  if bool_decide (countAI = 2) && bool_decide (0 < openEndsAI) then score1 + 10 else score1.

(** [evaluate] of [getMediumMove].  [rnd n] is the next unused draw; the
    result carries the index of the next unused draw after the call. *)
Definition evaluate (rnd : nat → Q) (n : nat) (r c : Z) (player : CellValue)
    (currentBoard : BoardState) : Q * nat :=
  match checkLongLines currentBoard r c player with
  | Some stonesExploded => (inject_Z (-1000 * Z.of_nat (length stonesExploded)), n)
  | None =>
      let score := foldl (lineScore currentBoard player r c) 0 directions in
      ((inject_Z score + rnd n * inject_Z 5)%Q, S n)
  end.

(** [score > bestScore], where [None] is [-Infinity]. *)
Definition beats (score : Q) (bestScore : option Q) : bool :=
  match bestScore with
  | None => true
  | Some b => negb (Qle_bool score b)
  end.

(** Level 2. *)
Definition getMediumMove (board : BoardState) (aiPlayer : CellValue)
    (rnd : nat → Q) : option Coord :=
  let moves := getEmptyNeighbors board 1 in
  let '(_, bestMove, _) :=
    foldl (λ (st : option Q * option Coord * nat) (move : Coord),
             let '(bestScore, bestMove, n) := st in
             let tempBoard := place board move.1 move.2 aiPlayer in
             let '(score, n') := evaluate rnd n move.1 move.2 aiPlayer tempBoard in
             if beats score bestScore then (Some score, Some move, n')
             else (bestScore, bestMove, n'))
          (None, jsIndex moves 0, 0%nat) moves in
  bestMove.

(** First loop of [getSuperStrongMove]. *)
Definition initialCandidate (board : BoardState) (aiPlayer : CellValue)
    (move : Coord) : Coord * Q :=
  let tempBoard := place board move.1 move.2 aiPlayer in
  match checkLongLines tempBoard move.1 move.2 aiPlayer with
  | Some exploded => (move, inject_Z (-10000 * Z.of_nat (length exploded)))
  | None => (move, 0%Q)
  end.

(** [r' < 15 && r' >= 0 && tempBoard[r'][c'] === aiPlayer]: only the row is
    checked before the read.  [undefined === aiPlayer] is [false]; a read
    from a missing row throws. *)
Definition neighbourIsAi (tempBoard : BoardState) (aiPlayer : CellValue)
    (r' c' : Z) : Outcome bool :=
  if bool_decide (r' < 15) && bool_decide (0 ≤ r') then
    match rawRead tempBoard r' c' with
    | JsCell v => Returns (bool_decide (v = aiPlayer))
    | JsUndefined => Returns false
    | JsTypeError => Throws
    end
  else Returns false.

Definition adjacencyScore (tempBoard : BoardState) (aiPlayer : CellValue)
    (r c : Z) (acc : Outcome Z) (d : Z * Z) : Outcome Z :=
  match acc with
  | Throws => Throws
  | Returns moveScore =>
      match neighbourIsAi tempBoard aiPlayer (r + d.1) (c + d.2) with
      | Throws => Throws
      | Returns fwd =>
          match neighbourIsAi tempBoard aiPlayer (r - d.1) (c - d.2) with
          | Throws => Throws
          | Returns bwd =>
              let lineCount := 1 + (if fwd then 1 else 0) + (if bwd then 1 else 0) in
              let s1 := if bool_decide (lineCount = 3) then moveScore - 50 else moveScore in
              let s2 := if bool_decide (lineCount = 4) then s1 - 200 else s1 in
              Returns (if bool_decide (lineCount = 2) then s2 + 10 else s2)
          end
      end
  end.

Definition ring : list (Z * Z) :=
  [(-1, -1); (-1, 0); (-1, 1); (0, -1); (0, 1); (1, -1); (1, 0); (1, 1)].

Definition countLiberties (tempBoard : BoardState) (r c : Z) : Z :=
  foldl (λ liberties (o : Z * Z),
           if inb (r + o.1) && inb (c + o.2) && cellIs tempBoard (r + o.1) (c + o.2) EMPTY
           then liberties + 1 else liberties)
        0 ring.

(** Second loop of [getSuperStrongMove], over the candidates not yet
    visited; the visited ones keep their place in the array. *)
Fixpoint rescore (board : BoardState) (aiPlayer : CellValue) (rnd : nat → Q)
    (n : nat) (candidates : list (Coord * Q)) : Outcome (list (Coord * Q)) :=
  match candidates with
  | [] => Returns []
  | (move, score) :: rest =>
      if negb (Qle_bool (inject_Z (-5000)) score)
      then match rescore board aiPlayer rnd n rest with
           | Throws => Throws
           | Returns rest' => Returns ((move, score) :: rest')
           end
      else
        let tempBoard := place board move.1 move.2 aiPlayer in
        match foldl (adjacencyScore tempBoard aiPlayer move.1 move.2) (Returns 0) directions with
        | Throws => Throws
        | Returns lineScore' =>
            let moveScore := lineScore' + countLiberties tempBoard move.1 move.2 * 5 in
            let score' := (score + (inject_Z moveScore + rnd n * inject_Z 2))%Q in
            match rescore board aiPlayer rnd (S n) rest with
            | Throws => Throws
            | Returns rest' => Returns ((move, score') :: rest')
            end
        end
  end.

(** [candidates.sort((a, b) => b.score - a.score)]: the sort is stable, so
    its result is the one of a stable insertion sort by decreasing score. *)
Fixpoint insertByScore (x : Coord * Q) (l : list (Coord * Q)) : list (Coord * Q) :=
  match l with
  | [] => [x]
  | y :: l' =>
      if negb (Qle_bool y.2 x.2) then y :: insertByScore x l'
      else x :: y :: l'
  end.

Definition sortByScore (l : list (Coord * Q)) : list (Coord * Q) :=
  foldr insertByScore [] l.

(** Everything of [getSuperStrongMove] before its [return] statement, which
    is where the two files differ. *)
Definition strongCandidates (board : BoardState) (aiPlayer : CellValue)
    (rnd : nat → Q) : Outcome (list (Coord * Q)) :=
  let moves := getEmptyNeighbors board 1 in
  let candidates := map (initialCandidate board aiPlayer) moves in
  match rescore board aiPlayer rnd 0 candidates with
  | Throws => Throws
  | Returns candidates' => Returns (sortByScore candidates')
  end.

(** ** Turn/session controller *)

Inductive GameMode : Set := PVP | PVE | ONLINE.

#[global] Instance GameMode_eq_dec : EqDecision GameMode.
Proof. solve_decision. Defined.

Record Scores : Set := mkScores { p1 : Z; p2 : Z }.

(** The verdict [{ winner, reason }].  The source stores display strings;
    [P1Name] and [P2Name] stand for the two (always distinct) names
    [p1Name] and [p2Name], [Hoa] for the literal that announces a draw. *)
Inductive Winner : Set := P1Name | P2Name | Hoa.

Inductive Reason : Set :=
| DominantWin                          (* reaching 200 with a lead of 100 *)
| HigherScore                          (* higher score *)
| MoreStones (who : Winner) (diff : Z) (* equal score, [who] has [diff] more stones *)
| EqualAll.                            (* equal score and equal stones *)

Record GameResult : Set := mkResult { winner : Winner; reason : Reason }.

#[global] Instance Winner_eq_dec : EqDecision Winner.
Proof. solve_decision. Defined.

(** The arguments captured by [setTimeout(() => makeAiMove(...), 600)]. *)
Record AiCall : Type := mkAiCall {
  aiBoard : BoardState;
  aiPlayer : CellValue;
  aiHumanColor : CellValue;
  aiScore : Z;
  humanScore : Z;
  aiTurnCount : Z
}.

(** The [useState] cells of [App] that the controller reads or writes,
    together with the one pending [makeAiMove] timer ([pendingAi]) and
    whether a data connection is held ([conn]). *)
Record State : Type := mkState {
  board : BoardState;
  scores : Scores;
  currentPlayer : CellValue;
  humanColor : CellValue;
  turnCount : Z;
  isGameOver : bool;
  finalResult : option GameResult;
  gameMode : GameMode;
  difficulty : string;
  isAiThinking : bool;
  lastMove : option Coord;
  showSwapAlert : bool;
  removedStones : list Coord;
  conn : bool;
  onlinePlayerColor : CellValue;
  lastRemoteMove : option Coord;
  pendingAi : option AiCall
}.

(** The React setters. *)
Definition setBoard (v : BoardState) (s : State) : State :=
  mkState v (scores s) (currentPlayer s) (humanColor s) (turnCount s)
    (isGameOver s) (finalResult s) (gameMode s) (difficulty s)
    (isAiThinking s) (lastMove s) (showSwapAlert s) (removedStones s) (conn s)
    (onlinePlayerColor s) (lastRemoteMove s) (pendingAi s).
Definition setScores (v : Scores) (s : State) : State :=
  mkState (board s) v (currentPlayer s) (humanColor s) (turnCount s)
    (isGameOver s) (finalResult s) (gameMode s) (difficulty s)
    (isAiThinking s) (lastMove s) (showSwapAlert s) (removedStones s) (conn s)
    (onlinePlayerColor s) (lastRemoteMove s) (pendingAi s).
Definition setCurrentPlayer (v : CellValue) (s : State) : State :=
  mkState (board s) (scores s) v (humanColor s) (turnCount s) (isGameOver s)
    (finalResult s) (gameMode s) (difficulty s) (isAiThinking s) (lastMove s)
    (showSwapAlert s) (removedStones s) (conn s) (onlinePlayerColor s)
    (lastRemoteMove s) (pendingAi s).
Definition setHumanColor (v : CellValue) (s : State) : State :=
  mkState (board s) (scores s) (currentPlayer s) v (turnCount s)
    (isGameOver s) (finalResult s) (gameMode s) (difficulty s)
    (isAiThinking s) (lastMove s) (showSwapAlert s) (removedStones s) (conn s)
    (onlinePlayerColor s) (lastRemoteMove s) (pendingAi s).
Definition setTurnCount (v : Z) (s : State) : State :=
  mkState (board s) (scores s) (currentPlayer s) (humanColor s) v
    (isGameOver s) (finalResult s) (gameMode s) (difficulty s)
    (isAiThinking s) (lastMove s) (showSwapAlert s) (removedStones s) (conn s)
    (onlinePlayerColor s) (lastRemoteMove s) (pendingAi s).
Definition setIsGameOver (v : bool) (s : State) : State :=
  mkState (board s) (scores s) (currentPlayer s) (humanColor s) (turnCount s)
    v (finalResult s) (gameMode s) (difficulty s) (isAiThinking s)
    (lastMove s) (showSwapAlert s) (removedStones s) (conn s)
    (onlinePlayerColor s) (lastRemoteMove s) (pendingAi s).
Definition setFinalResult (v : option GameResult) (s : State) : State :=
  mkState (board s) (scores s) (currentPlayer s) (humanColor s) (turnCount s)
    (isGameOver s) v (gameMode s) (difficulty s) (isAiThinking s) (lastMove s)
    (showSwapAlert s) (removedStones s) (conn s) (onlinePlayerColor s)
    (lastRemoteMove s) (pendingAi s).
Definition setGameMode (v : GameMode) (s : State) : State :=
  mkState (board s) (scores s) (currentPlayer s) (humanColor s) (turnCount s)
    (isGameOver s) (finalResult s) v (difficulty s) (isAiThinking s)
    (lastMove s) (showSwapAlert s) (removedStones s) (conn s)
    (onlinePlayerColor s) (lastRemoteMove s) (pendingAi s).
Definition setDifficulty (v : string) (s : State) : State :=
  mkState (board s) (scores s) (currentPlayer s) (humanColor s) (turnCount s)
    (isGameOver s) (finalResult s) (gameMode s) v (isAiThinking s)
    (lastMove s) (showSwapAlert s) (removedStones s) (conn s)
    (onlinePlayerColor s) (lastRemoteMove s) (pendingAi s).
Definition setIsAiThinking (v : bool) (s : State) : State :=
  mkState (board s) (scores s) (currentPlayer s) (humanColor s) (turnCount s)
    (isGameOver s) (finalResult s) (gameMode s) (difficulty s) v (lastMove s)
    (showSwapAlert s) (removedStones s) (conn s) (onlinePlayerColor s)
    (lastRemoteMove s) (pendingAi s).
Definition setLastMove (v : option Coord) (s : State) : State :=
  mkState (board s) (scores s) (currentPlayer s) (humanColor s) (turnCount s)
    (isGameOver s) (finalResult s) (gameMode s) (difficulty s)
    (isAiThinking s) v (showSwapAlert s) (removedStones s) (conn s)
    (onlinePlayerColor s) (lastRemoteMove s) (pendingAi s).
Definition setShowSwapAlert (v : bool) (s : State) : State :=
  mkState (board s) (scores s) (currentPlayer s) (humanColor s) (turnCount s)
    (isGameOver s) (finalResult s) (gameMode s) (difficulty s)
    (isAiThinking s) (lastMove s) v (removedStones s) (conn s)
    (onlinePlayerColor s) (lastRemoteMove s) (pendingAi s).
Definition setRemovedStones (v : list Coord) (s : State) : State :=
  mkState (board s) (scores s) (currentPlayer s) (humanColor s) (turnCount s)
    (isGameOver s) (finalResult s) (gameMode s) (difficulty s)
    (isAiThinking s) (lastMove s) (showSwapAlert s) v (conn s)
    (onlinePlayerColor s) (lastRemoteMove s) (pendingAi s).
Definition setConn (v : bool) (s : State) : State :=
  mkState (board s) (scores s) (currentPlayer s) (humanColor s) (turnCount s)
    (isGameOver s) (finalResult s) (gameMode s) (difficulty s)
    (isAiThinking s) (lastMove s) (showSwapAlert s) (removedStones s) v
    (onlinePlayerColor s) (lastRemoteMove s) (pendingAi s).
Definition setOnlinePlayerColor (v : CellValue) (s : State) : State :=
  mkState (board s) (scores s) (currentPlayer s) (humanColor s) (turnCount s)
    (isGameOver s) (finalResult s) (gameMode s) (difficulty s)
    (isAiThinking s) (lastMove s) (showSwapAlert s) (removedStones s) (conn s)
    v (lastRemoteMove s) (pendingAi s).
Definition setLastRemoteMove (v : option Coord) (s : State) : State :=
  mkState (board s) (scores s) (currentPlayer s) (humanColor s) (turnCount s)
    (isGameOver s) (finalResult s) (gameMode s) (difficulty s)
    (isAiThinking s) (lastMove s) (showSwapAlert s) (removedStones s) (conn s)
    (onlinePlayerColor s) v (pendingAi s).
Definition setPendingAi (v : option AiCall) (s : State) : State :=
  mkState (board s) (scores s) (currentPlayer s) (humanColor s) (turnCount s)
    (isGameOver s) (finalResult s) (gameMode s) (difficulty s)
    (isAiThinking s) (lastMove s) (showSwapAlert s) (removedStones s) (conn s)
    (onlinePlayerColor s) (lastRemoteMove s) v.

Definition otherColor (v : CellValue) : CellValue :=
  if bool_decide (v = PLAYER_BLACK) then PLAYER_WHITE else PLAYER_BLACK.

Definition getGameResult (currentScores : Scores) (finalBoard : BoardState)
    (currentHumanColor : CellValue) : GameResult :=
  let sP1 := p1 currentScores in
  let sP2 := p2 currentScores in
  if bool_decide (sP2 < sP1) then mkResult P1Name HigherScore
  else if bool_decide (sP1 < sP2) then mkResult P2Name HigherScore
  else
    let '(black, white) := countStones finalBoard in
    let p1Stones := if bool_decide (currentHumanColor = PLAYER_BLACK) then black else white in
    let p2Stones := if bool_decide (currentHumanColor = PLAYER_BLACK) then white else black in
    if bool_decide (p2Stones < p1Stones)
    then mkResult P2Name (MoreStones P1Name (p1Stones - p2Stones))
    else if bool_decide (p1Stones < p2Stones)
    then mkResult P1Name (MoreStones P2Name (p2Stones - p1Stones))
    else mkResult Hoa EqualAll.

(** [Math.floor(turn / 30) % 2 === 0] *)
Definition p1IsBlack (turn : Z) : bool :=
  bool_decide (Z.rem (turn `div` 30) 2 = 0).

(** [stonesToExplode.forEach(cell => tempBoard[cell.r][cell.c] = EMPTY)] *)
Definition clearCells (board : BoardState) (cells : list Coord) : BoardState :=
  foldl (λ b (cell : Coord), place b cell.1 cell.2 EMPTY) board cells.

Section ProcessTurn.

(** The two source files differ in one place of [processTurn]: how they
    decide whether the mover is player 1.  [moverIsP1 playerWhoMoved
    currentHumanColor currentTurnBase] is that test. *)
Variable moverIsP1 : CellValue → CellValue → Z → bool.

Definition processTurnWith (s : State) (newBoard : BoardState) (r c : Z)
    (playerWhoMoved currentHumanColor : CellValue) (baseScores : Scores)
    (currentTurnBase : Z) : State :=
  let stonesToExplode := checkLongLines newBoard r c playerWhoMoved in
  let '(updatedBoard, currentScores, s1) :=
    match stonesToExplode with
    | Some stones =>
        if bool_decide (0 < Z.of_nat (length stones)) then
          let points := Z.of_nat (length stones) in
          let currentScores :=
            if moverIsP1 playerWhoMoved currentHumanColor currentTurnBase
            then mkScores (p1 baseScores) (p2 baseScores + points)
            else mkScores (p1 baseScores + points) (p2 baseScores) in
          (clearCells newBoard stones, currentScores, setRemovedStones stones s)
        else (newBoard, baseScores, s)
    | None => (newBoard, baseScores, s)
    end in
  let s2 := setBoard updatedBoard (setScores currentScores s1) in
  if bool_decide (200 ≤ p1 currentScores)
     && bool_decide (100 ≤ p1 currentScores - p2 currentScores)
  then setIsGameOver true (setFinalResult (Some (mkResult P1Name DominantWin)) s2)
  else if bool_decide (200 ≤ p2 currentScores)
          && bool_decide (100 ≤ p2 currentScores - p1 currentScores)
  then setIsGameOver true (setFinalResult (Some (mkResult P2Name DominantWin)) s2)
  else if isBoardFull updatedBoard
  then setIsGameOver true
         (setFinalResult (Some (getGameResult currentScores updatedBoard currentHumanColor)) s2)
  else
    let nextTurnCount := currentTurnBase + 1 in
    let s3 := setTurnCount nextTurnCount s2 in
    let nextPlayerColor := otherColor playerWhoMoved in
    let swap := bool_decide (0 < nextTurnCount) && bool_decide (Z.rem nextTurnCount 30 = 0) in
    let nextHumanColor := if swap then otherColor currentHumanColor else currentHumanColor in
    let s4 := if swap then setShowSwapAlert true (setHumanColor nextHumanColor s3) else s3 in
    let s5 := setCurrentPlayer nextPlayerColor s4 in
    if bool_decide (gameMode s = PVE)
       && bool_decide (nextPlayerColor ≠ nextHumanColor)
       && negb (isBoardFull updatedBoard)
    then setPendingAi
           (Some (mkAiCall updatedBoard nextPlayerColor nextHumanColor
                           (p2 currentScores) (p1 currentScores) nextTurnCount))
           (setIsAiThinking true s5)
    else setIsAiThinking false s5.

End ProcessTurn.

(** Messages sent over the data connection. *)
Inductive WireMsg : Set :=
| MOVE (r c : Z)
| RESET.

(** *** [src/index.tsx] *)
Module Index.

(** Level 3: [return candidates[0]?.move || { r: 7, c: 7 }]. *)
Definition getSuperStrongMove (board : BoardState) (aiPlayer : CellValue)
    (rnd : nat → Q) : Outcome Coord :=
  match strongCandidates board aiPlayer rnd with
  | Throws => Throws
  | Returns [] => Returns (7, 7)
  | Returns (best :: _) => Returns best.1
  end.

(** Lines 458-466: the mover is player 1 when it holds the color that the
    turn counter assigns to player 1. *)
Definition isP1 (playerWhoMoved currentHumanColor : CellValue)
    (currentTurnBase : Z) : bool :=
  if p1IsBlack currentTurnBase
  then bool_decide (playerWhoMoved = PLAYER_BLACK)
  else bool_decide (playerWhoMoved = PLAYER_WHITE).

Definition processTurn : State → BoardState → Z → Z → CellValue → CellValue →
                         Scores → Z → State :=
  processTurnWith isP1.

(** The [if / else if / else] on [difficulty] at the head of [makeAiMove].
    The inner [None] is a falsy [move]. *)
Definition selectMove (difficulty : string) (currentBoard : BoardState)
    (aiPlayer : CellValue) (rnd : nat → Q) : Outcome (option Coord) :=
  if bool_decide (difficulty = "EASY") then
    Returns (getEasyMove currentBoard aiPlayer (rnd 0%nat))
  else if bool_decide (difficulty = "MEDIUM") then
    Returns (getMediumMove currentBoard aiPlayer rnd)
  else
    match getSuperStrongMove currentBoard aiPlayer rnd with
    | Throws => Throws
    | Returns move => Returns (Some move)
    end.

(** [makeAiMove], run on state [s]; an exception leaves the state alone.
    [difficulty] is the value that the closure of [makeAiMove] captured:
    [processTurn] is memoised on [gameMode] alone, so the [makeAiMove] it
    schedules may stem from an earlier render than the current one. *)
Definition makeAiMove (difficulty : string) (s : State) (call : AiCall)
    (rnd : nat → Q) : State :=
  match selectMove difficulty (aiBoard call) (aiPlayer call) rnd with
  | Throws => s
  | Returns (Some move) =>
      let nextBoard := place (aiBoard call) move.1 move.2 (aiPlayer call) in
      let currentScores := mkScores (humanScore call) (aiScore call) in
      processTurn (setLastMove (Some move) (setBoard nextBoard s))
                  nextBoard move.1 move.2 (aiPlayer call) (aiHumanColor call)
                  currentScores (aiTurnCount call)
  | Returns None => setIsGameOver true s
  end.

(** The pending timer fires. *)
Definition aiTimerFires (difficulty : string) (s : State) (rnd : nat → Q) : State :=
  match pendingAi s with
  | Some call => makeAiMove difficulty (setPendingAi None s) call rnd
  | None => s
  end.

(** [handleCellClick]: the new state and the messages sent. *)
Definition handleCellClick (s : State) (r c : Z) : State * list WireMsg :=
  if isGameOver s || isAiThinking s then (s, [])
  else if bool_decide (gameMode s = PVE) && bool_decide (currentPlayer s ≠ humanColor s)
  then (s, [])
  else if bool_decide (gameMode s = ONLINE) && bool_decide (currentPlayer s ≠ humanColor s)
  then (s, [])
  else
    match rawRead (board s) r c with
    | JsCell EMPTY =>
        let newBoard := place (board s) r c (currentPlayer s) in
        (processTurn (setLastMove (Some (r, c)) (setBoard newBoard s))
                     newBoard r c (currentPlayer s) (humanColor s) (scores s) (turnCount s),
         if bool_decide (gameMode s = ONLINE) && conn s then [MOVE r c] else [])
    | _ => (s, [])
    end.

Definition handleRemoteMove (s : State) (r c : Z) : State :=
  setLastRemoteMove (Some (r, c)) s.

(** The [useEffect] on [lastRemoteMove].  Reading a missing row throws
    before any setter runs. *)
Definition remoteMoveEffect (s : State) : State :=
  match lastRemoteMove s with
  | None => s
  | Some (r, c) =>
      match rawRead (board s) r c with
      | JsTypeError => s
      | JsCell EMPTY =>
          let newBoard := place (board s) r c (currentPlayer s) in
          setLastRemoteMove None
            (processTurn (setLastMove (Some (r, c)) (setBoard newBoard s))
                         newBoard r c (currentPlayer s) (humanColor s) (scores s) (turnCount s))
      | _ => setLastRemoteMove None s
      end
  end.

(** A [MOVE] message arrives: the [data] handler, then the effect. *)
Definition receiveMove (s : State) (r c : Z) : State :=
  remoteMoveEffect (handleRemoteMove s r c).

(** The initial [useState] values. *)
Definition initialState : State :=
  mkState emptyBoard (mkScores 0 0) PLAYER_BLACK PLAYER_BLACK 0 false None
          PVE "EASY" false None false [] false PLAYER_BLACK None None.

Definition resetGame (s : State) : State :=
  setRemovedStones [] (setShowSwapAlert false (setIsAiThinking false
    (setLastMove None (setFinalResult None (setIsGameOver false
      (setScores (mkScores 0 0) (setTurnCount 0 (setHumanColor PLAYER_BLACK
        (setCurrentPlayer PLAYER_BLACK (setBoard emptyBoard s)))))))))).

(** A session as it starts: the mode and difficulty chosen in the side bar,
    [resetGame], no timer pending; in an online session [seat] is
    [onlinePlayerColor], black for the host ([initOnlineGame]) and white for
    the guest ([joinOnlineGame]), which is also the first [humanColor]. *)
Definition newSession (mode : GameMode) (diff : string) (seat : CellValue)
    (connected : bool) : State :=
  mkState emptyBoard (mkScores 0 0) PLAYER_BLACK seat 0 false None
          mode diff false None false [] connected seat None None.

(** States reached from a fresh session by clicks, automated replies and
    remote moves. *)
Inductive reachable : State → Prop :=
| reach_local (mode : GameMode) (diff : string) :
    reachable (newSession mode diff PLAYER_BLACK false)
| reach_online (diff : string) (seat : CellValue) (connected : bool) :
    seat = PLAYER_BLACK ∨ seat = PLAYER_WHITE →
    reachable (newSession ONLINE diff seat connected)
| reach_click (s : State) (r c : Z) :
    reachable s → reachable (handleCellClick s r c).1
| reach_ai (difficulty : string) (s : State) (rnd : nat → Q) :
    reachable s → reachable (aiTimerFires difficulty s rnd)
| reach_remote (s : State) (r c : Z) :
    reachable s → gameMode s = ONLINE → reachable (receiveMove s r c).

End Index.

(** *** [src/unnamed/part_000] *)
Module Part000.

(** Level 3: [return candidates[0].move], a TypeError on an empty array. *)
Definition getSuperStrongMove (board : BoardState) (aiPlayer : CellValue)
    (rnd : nat → Q) : Outcome Coord :=
  match strongCandidates board aiPlayer rnd with
  | Throws => Throws
  | Returns [] => Throws
  | Returns (best :: _) => Returns best.1
  end.

(** Level 4.  [reply] is what the external service answered, [None] for any
    failure of the call or of parsing its answer; the [catch] falls back to
    level 3. *)
Definition getGeminiMove (board : BoardState) (aiPlayer : CellValue)
    (reply : option (Z * Z)) (rnd : nat → Q) : Outcome (option Coord) :=
  let fallback :=
    match getSuperStrongMove board aiPlayer rnd with
    | Throws => Throws
    | Returns move => Returns (Some move)
    end in
  match reply with
  | Some (row, col) =>
      if bool_decide (0 ≤ row) && bool_decide (row < 15)
         && bool_decide (0 ≤ col) && bool_decide (col < 15)
         && cellIs board row col EMPTY
      then Returns (Some (row, col))
      else fallback
  | None => fallback
  end.

(** Lines 382: the mover is player 1 when it plays the human's color. *)
Definition isP1Move (playerWhoMoved currentHumanColor : CellValue)
    (currentTurnBase : Z) : bool :=
  bool_decide (playerWhoMoved = currentHumanColor).

Definition processTurn : State → BoardState → Z → Z → CellValue → CellValue →
                         Scores → Z → State :=
  processTurnWith isP1Move.

Definition selectMove (difficulty : string) (currentBoard : BoardState)
    (aiPlayer : CellValue) (reply : option (Z * Z)) (rnd : nat → Q)
    : Outcome (option Coord) :=
  if bool_decide (difficulty = "EASY") then
    Returns (getEasyMove currentBoard aiPlayer (rnd 0%nat))
  else if bool_decide (difficulty = "MEDIUM") then
    Returns (getMediumMove currentBoard aiPlayer rnd)
  else if bool_decide (difficulty = "SUPER_STRONG") then
    match getSuperStrongMove currentBoard aiPlayer rnd with
    | Throws => Throws
    | Returns move => Returns (Some move)
    end
  else getGeminiMove currentBoard aiPlayer reply rnd.

Definition makeAiMove (difficulty : string) (s : State) (call : AiCall)
    (reply : option (Z * Z)) (rnd : nat → Q) : State :=
  match selectMove difficulty (aiBoard call) (aiPlayer call) reply rnd with
  | Throws => s
  | Returns (Some move) =>
      let nextBoard := place (aiBoard call) move.1 move.2 (aiPlayer call) in
      let currentScores := mkScores (humanScore call) (aiScore call) in
      processTurn (setLastMove (Some move) (setBoard nextBoard s))
                  nextBoard move.1 move.2 (aiPlayer call) (aiHumanColor call)
                  currentScores (aiTurnCount call)
  | Returns None => setIsGameOver true s
  end.

Definition aiTimerFires (difficulty : string) (s : State)
    (reply : option (Z * Z)) (rnd : nat → Q) : State :=
  match pendingAi s with
  | Some call => makeAiMove difficulty (setPendingAi None s) call reply rnd
  | None => s
  end.

Definition handleCellClick (s : State) (r c : Z) : State :=
  if isGameOver s || isAiThinking s then s
  else if bool_decide (gameMode s = PVE) && bool_decide (currentPlayer s ≠ humanColor s)
  then s
  else
    match rawRead (board s) r c with
    | JsCell EMPTY =>
        let newBoard := place (board s) r c (currentPlayer s) in
        processTurn (setLastMove (Some (r, c)) (setBoard newBoard s))
                    newBoard r c (currentPlayer s) (humanColor s) (scores s) (turnCount s)
    | _ => s
    end.

Inductive reachable : State → Prop :=
| reach_start (mode : GameMode) (diff : string) :
    mode ≠ ONLINE →
    reachable (Index.newSession mode diff PLAYER_BLACK false)
| reach_click (s : State) (r c : Z) :
    reachable s → reachable (handleCellClick s r c)
| reach_ai (difficulty : string) (s : State) (reply : option (Z * Z))
    (rnd : nat → Q) :
    reachable s → reachable (aiTimerFires difficulty s reply rnd).

End Part000.

(** * The vocabulary of the statements *)

(** ** Runs, as the specification words them *)

(** Black on (7,0)..(7,4). *)
Definition row7 : BoardState :=
  place (place (place (place (place emptyBoard 7 0 PLAYER_BLACK) 7 1 PLAYER_BLACK)
                 7 2 PLAYER_BLACK) 7 3 PLAYER_BLACK) 7 4 PLAYER_BLACK.

(** The cell [k] steps from [(r, c)] along the axis [d]; negative [k] is the
    opposite way. *)
Definition cellAt (r c : Z) (d : Z * Z) (k : Z) : Coord :=
  (r + d.1 * k, c + d.2 * k).

(** [a .. b] is a contiguous same-color stretch of axis [d] that passes
    through [(r, c)] (which is [k = 0]). *)
Definition isRun (board : BoardState) (color : CellValue) (r c : Z)
    (d : Z * Z) (a b : Z) : Prop :=
  a ≤ 0 ≤ b ∧
  ∀ k, a ≤ k ≤ b → get board (cellAt r c d k).1 (cellAt r c d k).2 = Some color.

(** Axis [d] has a run of length at least 5 through [(r, c)]. *)
Definition hasLongRun (board : BoardState) (color : CellValue) (r c : Z)
    (d : Z * Z) : Prop :=
  ∃ a b, isRun board color r c d a b ∧ 5 ≤ b - a + 1.

(** [p] lies on a run of length at least 5 through [(r, c)] along [d]. *)
Definition onLongRun (board : BoardState) (color : CellValue) (r c : Z)
    (d : Z * Z) (p : Coord) : Prop :=
  ∃ a b k, isRun board color r c d a b ∧ 5 ≤ b - a + 1 ∧
           a ≤ k ≤ b ∧ p = cellAt r c d k.

(** ** Seats, as the specification words them *)

Inductive Seat : Set := Seat1 | Seat2.

#[global] Instance Seat_eq_dec : EqDecision Seat.
Proof. solve_decision. Defined.

Definition otherSeat (seat : Seat) : Seat :=
  match seat with Seat1 => Seat2 | Seat2 => Seat1 end.

Definition seatScore (seat : Seat) (sc : Scores) : Z :=
  match seat with Seat1 => p1 sc | Seat2 => p2 sc end.

(** "floor(turnCounter / 30) mod 2: even, Seat1 holds the starting color;
    odd, Seat1 holds the other color"; Seat2 holds the remaining one. *)
Definition seatColorAt (turn : Z) (seat : Seat) : CellValue :=
  let even := bool_decide ((turn `div` 30) `mod` 2 = 0) in
  match seat with
  | Seat1 => if even then PLAYER_BLACK else PLAYER_WHITE
  | Seat2 => if even then PLAYER_WHITE else PLAYER_BLACK
  end.

(** ** Parts of [processTurn] *)

(** The scores that [processTurn] computes before it tests for the end of
    the game. *)
Definition awarded (moverIsP1 : CellValue → CellValue → Z → bool)
    (newBoard : BoardState) (r c : Z) (playerWhoMoved currentHumanColor : CellValue)
    (baseScores : Scores) (currentTurnBase : Z) : Scores :=
  match checkLongLines newBoard r c playerWhoMoved with
  | Some stones =>
      if moverIsP1 playerWhoMoved currentHumanColor currentTurnBase
      then mkScores (p1 baseScores) (p2 baseScores + Z.of_nat (length stones))
      else mkScores (p1 baseScores + Z.of_nat (length stones)) (p2 baseScores)
  | None => baseScores
  end.

(** The board that [processTurn] stores. *)
Definition cleared (newBoard : BoardState) (r c : Z) (playerWhoMoved : CellValue)
    : BoardState :=
  match checkLongLines newBoard r c playerWhoMoved with
  | Some stones => clearCells newBoard stones
  | None => newBoard
  end.

(** ** Proof automation *)

(** Boolean tests in the context, read as propositions. *)
Ltac bool_hyps :=
  repeat match goal with
    | H : _ && _ = true |- _ => apply andb_true_iff in H as [? ?]
    | H : bool_decide _ = true |- _ => apply bool_decide_eq_true in H
    | H : bool_decide _ = false |- _ => apply bool_decide_eq_false in H
    | H : negb _ = true |- _ => apply negb_true_iff in H
    end.

Ltac pt_unfold :=
  unfold Index.processTurn, Part000.processTurn, processTurnWith, awarded, cleared.

(** Facts about a non-[null] result of [checkLongLines]. *)
Create HintDb explosion.

(** Case analysis on the result of [checkLongLines] in the goal; the test
    [stonesToExplode.length > 0] is settled with the hints. *)
Ltac pt_explosion :=
  match goal with
  | |- context [checkLongLines ?b ?r ?c ?p] =>
      let H := fresh "Hexp" in
      let stones := fresh "stones" in
      destruct (checkLongLines b r c p) as [stones|] eqn:H;
      [ rewrite (bool_decide_true (0 < Z.of_nat (length stones)))
          by eauto with explosion | ]
  end.

(** ** The stored seat/color mapping *)

(** The seat of the local player: "Host = P1, Guest = P2". *)
Definition localSeat (s : State) : Seat :=
  if bool_decide (onlinePlayerColor s = PLAYER_BLACK) then Seat1 else Seat2.


(** The color that the stored mapping ([humanColor], the color of the local
    seat) gives to a seat. *)
Definition storedColor (s : State) (seat : Seat) : CellValue :=
  if bool_decide (seat = localSeat s) then humanColor s else otherColor (humanColor s).

(** ** Verdicts *)

Definition seatName (seat : Seat) : Winner :=
  match seat with Seat1 => P1Name | Seat2 => P2Name end.

(** "Score at least 200 and score minus the other's at least 100." *)
Definition dominates (seat : Seat) (sc : Scores) : Prop :=
  200 ≤ seatScore seat sc ∧ 100 ≤ seatScore seat sc - seatScore (otherSeat seat) sc.

(** Number of cells of the board that hold [color]. *)
Definition countColor (board : BoardState) (color : CellValue) : Z :=
  Z.of_nat (length (filter (λ cell, cell = color) (concat board))).

(** The verdict of a full board as the specification words it: the higher
    score wins; with equal scores the seat with fewer stones of its color
    wins; with equal stones too, a tie. *)
Definition fullBoardVerdict (sc : Scores) (stones1 stones2 : Z) : GameResult :=
  if bool_decide (seatScore Seat2 sc < seatScore Seat1 sc) then
    mkResult (seatName Seat1) HigherScore
  else if bool_decide (seatScore Seat1 sc < seatScore Seat2 sc) then
    mkResult (seatName Seat2) HigherScore
  else if bool_decide (stones1 < stones2) then
    mkResult (seatName Seat1) (MoreStones (seatName Seat2) (stones2 - stones1))
  else if bool_decide (stones2 < stones1) then
    mkResult (seatName Seat2) (MoreStones (seatName Seat1) (stones1 - stones2))
  else mkResult Hoa EqualAll.

(** ** Sessions as event sequences *)

(** What happens in one process of a session. *)
Inductive Event : Set :=
| Click (r c : Z)     (* the local player clicks a cell *)
| Remote (r c : Z).   (* a MOVE message arrives *)

Definition step (s : State) (e : Event) : State :=
  match e with
  | Click r c => (Index.handleCellClick s r c).1
  | Remote r c => Index.receiveMove s r c
  end.

Definition run (events : list Event) (s : State) : State := foldl step s events.

(** A final position without five in a row anywhere: rows [BBWWBBWW...],
    each row shifted by two against the previous one; 113 black and 112
    white stones. *)
Definition drawnCell (p : Coord) : CellValue :=
  if bool_decide ((p.2 + 2 * p.1) `mod` 4 < 2) then PLAYER_BLACK else PLAYER_WHITE.

Definition allCells : list Coord :=
  r ← seqZ 0 BOARD_SIZE; c ← seqZ 0 BOARD_SIZE; [(r, c)].

(** Black and white taking turns, black first. *)
Fixpoint alternate (blacks whites : list Coord) : list Coord :=
  match blacks, whites with
  | b :: blacks', w :: whites' => b :: w :: alternate blacks' whites'
  | _, [] => blacks
  | [], _ => whites
  end.

Definition drawnMoves : list Coord :=
  alternate (filter (λ p, drawnCell p = PLAYER_BLACK) allCells)
            (filter (λ p, drawnCell p = PLAYER_WHITE) allCells).

(** The game seen from the process of [seat]: the seat that holds the color
    to move clicks; the move of the other seat arrives as a message. *)
Fixpoint eventsFor (seat : Seat) (turn : Z) (moves : list Coord) : list Event :=
  match moves with
  | [] => []
  | p :: moves' =>
      let color := if bool_decide (turn `mod` 2 = 0) then PLAYER_BLACK else PLAYER_WHITE in
      (if bool_decide (seatColorAt turn seat = color)
       then Click p.1 p.2 else Remote p.1 p.2)
      :: eventsFor seat (turn + 1) moves'
  end.

Definition hostEnd : State :=
  run (eventsFor Seat1 0 drawnMoves) (Index.newSession ONLINE "EASY" PLAYER_BLACK true).

Definition guestEnd : State :=
  run (eventsFor Seat2 0 drawnMoves) (Index.newSession ONLINE "EASY" PLAYER_WHITE true).

(** The verdict of the specification on a final position, from the scores
    and the colors that the turn counter gives to the seats. *)
Definition specVerdict (s : State) : GameResult :=
  fullBoardVerdict (scores s)
    (countColor (board s) (seatColorAt (turnCount s) Seat1))
    (countColor (board s) (seatColorAt (turnCount s) Seat2)).

(** ** Candidates and sample positions *)

(** [p] is an empty cell of the board within [distance] of a stone. *)
Definition nearStone (board : BoardState) (distance : Z) (p : Coord) : Prop :=
  ∃ r c dr dc,
    r ∈ seqZ 0 BOARD_SIZE ∧ c ∈ seqZ 0 BOARD_SIZE ∧ cellIs board r c EMPTY = false ∧
    dr ∈ offsets distance ∧ dc ∈ offsets distance ∧ p = (r + dr, c + dc) ∧
    inb p.1 = true ∧ inb p.2 = true ∧ cellIs board p.1 p.2 EMPTY = true.

Definition fullBoard : BoardState :=
  replicate (Z.to_nat BOARD_SIZE) (replicate (Z.to_nat BOARD_SIZE) PLAYER_BLACK).

(** One white stone on the left edge region, at [(7, 1)]. *)
Definition oneStone : BoardState := place emptyBoard 7 1 PLAYER_WHITE.


(** A move that leaves the scores at 200 to 99. *)
Definition after200to99 : State :=
  Index.processTurn Index.initialState oneStone 7 1 PLAYER_WHITE PLAYER_BLACK
                    (mkScores 200 99) 3.

(** A move that leaves the scores at 200 to 100. *)
Definition after200to100 : State :=
  processTurnWith Index.isP1 Index.initialState oneStone 7 1 PLAYER_WHITE PLAYER_BLACK
                  (mkScores 200 100) 3.

(** The state after one click in a two-player session. *)
Definition afterFirstClick : State :=
  (Index.handleCellClick (Index.newSession PVP "EASY" PLAYER_BLACK false) 7 7).1.

(** End-to-end scenario A: black builds the row (7,0)..(7,4) while white
    plays along row 0, in a two-player session. *)
Definition scenarioA : State :=
  run [Click 7 0; Click 0 0; Click 7 1; Click 0 1; Click 7 2; Click 0 2;
       Click 7 3; Click 0 3; Click 7 4]
      (Index.newSession PVP "EASY" PLAYER_BLACK false).

(** End-to-end scenario B: the first 29 and the first 30 moves of a game
    without lines, in a two-player session. *)
Definition after29 : State :=
  run (map (λ p : Coord, Click p.1 p.2) (take 29 drawnMoves))
      (Index.newSession PVP "EASY" PLAYER_BLACK false).

Definition after30 : State :=
  run (map (λ p : Coord, Click p.1 p.2) (take 30 drawnMoves))
      (Index.newSession PVP "EASY" PLAYER_BLACK false).

(** A stream of draws that are all 0. *)
Definition zeroDraws : nat → Q := λ _, 0%Q.

(** * Further vocabulary *)

(** Stones of either color on the board. *)
Definition stonesOnBoard (board : BoardState) : Z :=
  countColor board PLAYER_BLACK + countColor board PLAYER_WHITE.

(** Number of entries of a list of cells that hold [color]. *)
Definition countIn (color : CellValue) (cells : list CellValue) : Z :=
  Z.of_nat (length (filter (λ cell, cell = color) cells)).

(** *** The legality display of [src/index.tsx] (lines 799-807) *)
Module IndexView.

(** [canMove] for the cell rendered at [(r, c)]. *)
Definition canMove (s : State) (r c : Z) : bool :=
  let canMove := cellIs (board s) r c EMPTY && negb (isGameOver s)
                 && negb (isAiThinking s) in
  if canMove then
    if bool_decide (gameMode s = PVE) then
      if bool_decide (currentPlayer s ≠ humanColor s) then false else canMove
    else if bool_decide (gameMode s = ONLINE) then
      if bool_decide (currentPlayer s ≠ humanColor s) then false else canMove
    else canMove
  else canMove.

(** [const movesUntilNextSwap = 30 - (turnCount % 30)] *)
Definition movesUntilNextSwap (turnCount : Z) : Z := 30 - Z.rem turnCount 30.

End IndexView.

(** *** The legality display of [src/unnamed/part_000] (line 636) *)
Module Part000View.

Definition canMove (s : State) (r c : Z) : bool :=
  cellIs (board s) r c EMPTY && negb (isGameOver s) && negb (isAiThinking s)
  && (bool_decide (gameMode s = PVP) || bool_decide (currentPlayer s = humanColor s)).

End Part000View.

(** The verdict with the two players exchanged. *)
Definition mirrorWinner (w : Winner) : Winner :=
  match w with P1Name => P2Name | P2Name => P1Name | Hoa => Hoa end.

Definition mirrorResult (res : GameResult) : GameResult :=
  mkResult (mirrorWinner (winner res))
           (match reason res with
            | MoreStones who diff => MoreStones (mirrorWinner who) diff
            | other => other
            end).

(** An empty cell of the board with a stone at most [distance] rows and
    columns away. *)
Definition candidate (board : BoardState) (distance : Z) (p : Coord) : Prop :=
  get board p.1 p.2 = Some EMPTY ∧ 0 ≤ p.1 < 15 ∧ 0 ≤ p.2 < 15 ∧
  ∃ r c, 0 ≤ r < 15 ∧ 0 ≤ c < 15 ∧ get board r c ≠ Some EMPTY ∧
         - distance ≤ p.1 - r ≤ distance ∧ - distance ≤ p.2 - c ≤ distance.

(** ** Invariants of a running game *)

(** The color to move at a turn counter: black at the even ones. *)
Definition colorOfTurn (turnCount : Z) : CellValue :=
  if Z.even turnCount then PLAYER_BLACK else PLAYER_WHITE.

(** The arguments that [setTimeout(() => makeAiMove(...), 700)] captured
    are the current values of the state. *)
Definition snapshotInv (s : State) : Prop :=
  ∀ call, pendingAi s = Some call →
    aiBoard call = board s ∧ aiPlayer call = currentPlayer s ∧
    aiHumanColor call = humanColor s ∧
    humanScore call = p1 (scores s) ∧ aiScore call = p2 (scores s) ∧
    aiTurnCount call = turnCount s ∧
    isAiThinking s = true ∧ isGameOver s = false ∧ gameMode s = PVE ∧
    isBoardFull (board s) = false ∧ currentPlayer s ≠ humanColor s.

Definition gameInv (s : State) : Prop :=
  wfBoard (board s) ∧ 0 ≤ turnCount s ∧
  0 ≤ p1 (scores s) ∧ 0 ≤ p2 (scores s) ∧
  (humanColor s = PLAYER_BLACK ∨ humanColor s = PLAYER_WHITE) ∧
  currentPlayer s = colorOfTurn (turnCount s) ∧
  (isGameOver s = false →
   stonesOnBoard (board s) + p1 (scores s) + p2 (scores s) = turnCount s) ∧
  (∀ res, finalResult s = Some res → winner res ≠ Hoa) ∧
  snapshotInv s.

(** A session against the computer after the first click of the human. *)
Definition afterHumanClick : State :=
  (Index.handleCellClick (Index.newSession PVE "MEDIUM" PLAYER_BLACK false) 7 7).1.

(** ** Transitions *)




(** ** Two peers *)

(** What the two ends of an online game share: the position, the scores,
    the counter, the player to move and the end of the game; each end holds
    the other color. *)
Definition inSync (a b : State) : Prop :=
  gameMode a = ONLINE ∧ gameMode b = ONLINE ∧
  board a = board b ∧ scores a = scores b ∧ turnCount a = turnCount b ∧
  currentPlayer a = currentPlayer b ∧ isGameOver a = isGameOver b ∧
  humanColor b = otherColor (humanColor a).

(** * Proofs *)

(** ** Reading the board *)

Lemma jsIndex_Some {A} (l : list A) (i : Z) (x : A) :
  jsIndex l i = Some x ↔ 0 ≤ i ∧ l !! Z.to_nat i = Some x.
Proof.
  unfold jsIndex. case_bool_decide as Hi.
  - split; [by intros | by intros [_ ?]].
  - split; [done | by intros [? _]].
Qed.

Lemma jsIndex_is_Some {A} (l : list A) (i : Z) :
  0 ≤ i < Z.of_nat (length l) → is_Some (jsIndex l i).
Proof.
  intros H. unfold jsIndex. rewrite bool_decide_true by lia.
  apply lookup_lt_is_Some. lia.
Qed.


Lemma inb_spec (x : Z) : inb x = true ↔ 0 ≤ x < 15.
Proof.
  unfold inb, BOARD_SIZE. rewrite andb_true_iff, !bool_decide_eq_true. lia.
Qed.

Lemma wfBoard_row (board : BoardState) (r : Z) (row : list CellValue) :
  wfBoard board → jsIndex board r = Some row → length row = 15%nat.
Proof.
  intros [_ Hrows] [_ Hr]%jsIndex_Some.
  rewrite Forall_forall in Hrows. apply (Hrows row).
  apply list_elem_of_lookup. eauto.
Qed.

(** On a 15x15 board a read yields a cell exactly inside the board. *)
Lemma get_inb (board : BoardState) (r c : Z) (v : CellValue) :
  wfBoard board → get board r c = Some v → 0 ≤ r < 15 ∧ 0 ≤ c < 15.
Proof.
  intros Hwf. unfold get, rawRead.
  destruct (jsIndex board r) as [row|] eqn:Hr; [|done].
  destruct (jsIndex row c) as [x|] eqn:Hc; [|done]. intros _.
  pose proof (wfBoard_row _ _ _ Hwf Hr) as Hlen.
  apply jsIndex_Some in Hr as [? Hr]. apply jsIndex_Some in Hc as [? Hc].
  apply lookup_lt_Some in Hr, Hc. destruct Hwf as [Hn _].
  unfold BOARD_SIZE in Hn. lia.
Qed.

Lemma get_is_Some (board : BoardState) (r c : Z) :
  wfBoard board → 0 ≤ r < 15 → 0 ≤ c < 15 → is_Some (get board r c).
Proof.
  intros Hwf Hr Hc. unfold get, rawRead.
  destruct (jsIndex_is_Some board r) as [row Hrow].
  { destruct Hwf as [-> _]. unfold BOARD_SIZE. lia. }
  rewrite Hrow. pose proof (wfBoard_row _ _ _ Hwf Hrow) as Hlen.
  destruct (jsIndex_is_Some row c) as [x Hx]; [lia|]. rewrite Hx. eauto.
Qed.

(** Inside a 15x15 board the raw read never throws and is never undefined. *)
Lemma rawRead_inb (board : BoardState) (r c : Z) :
  wfBoard board → 0 ≤ r < 15 → 0 ≤ c < 15 →
  ∃ v, rawRead board r c = JsCell v ∧ get board r c = Some v.
Proof.
  intros Hwf Hr Hc. destruct (get_is_Some board r c Hwf Hr Hc) as [v Hv].
  exists v. split; [|done]. unfold get in Hv.
  destruct (rawRead board r c); congruence.
Qed.

Lemma stepOk_spec (board : BoardState) (player : CellValue) (p : Coord) :
  wfBoard board →
  stepOk board player p = true ↔ get board p.1 p.2 = Some player.
Proof.
  intros Hwf. unfold stepOk, cellIs.
  rewrite !andb_true_iff, !inb_spec, bool_decide_eq_true.
  split; [tauto|]. intros H. pose proof (get_inb _ _ _ _ Hwf H). tauto.
Qed.

Lemma stepOk_inb (board : BoardState) (player : CellValue) (p : Coord) :
  stepOk board player p = true → (0 ≤ p.1 < 15) ∧ (0 ≤ p.2 < 15).
Proof.
  unfold stepOk. rewrite !andb_true_iff, !inb_spec. tauto.
Qed.

Lemma stepCell_fwd (r c : Z) (d : Z * Z) (k : Z) :
  stepCell false r c d.1 d.2 k = cellAt r c d k.
Proof. reflexivity. Qed.

Lemma stepCell_back (r c : Z) (d : Z * Z) (k : Z) :
  stepCell true r c d.1 d.2 k = cellAt r c d (- k).
Proof. unfold stepCell, cellAt. f_equal; lia. Qed.

(** ** The loops of [checkLongLines] *)

Section Walk.

Context (board : BoardState) (player : CellValue) (back : bool)
        (lastRow lastCol dx dy : Z).

(** More fuel never changes a finished loop. *)
Lemma walk_mono (fuel fuel' : nat) (i count : Z) (cells : list Coord) res :
  (fuel ≤ fuel')%nat →
  walk fuel board player back lastRow lastCol dx dy i count cells = Some res →
  walk fuel' board player back lastRow lastCol dx dy i count cells = Some res.
Proof.
  revert fuel' i count cells.
  induction fuel as [|fuel IH]; intros fuel' i count cells Hle; [done|].
  destruct fuel' as [|fuel']; [lia|]. simpl.
  destruct (stepOk _ _ _); [|done]. apply IH. lia.
Qed.

(** What a finished loop has done: it walked [n] cells, all of them of the
    player's color, and stopped at the first cell that is not. *)
Lemma walk_spec (fuel : nat) (i count : Z) (cells : list Coord) res :
  walk fuel board player back lastRow lastCol dx dy i count cells = Some res →
  ∃ n, 0 ≤ n ∧ res.1 = count + n ∧
       (∀ p, p ∈ res.2 ↔ p ∈ cells ∨ ∃ k, i ≤ k < i + n ∧ p = stepCell back lastRow lastCol dx dy k) ∧
       (∀ k, i ≤ k < i + n → stepOk board player (stepCell back lastRow lastCol dx dy k) = true) ∧
       stepOk board player (stepCell back lastRow lastCol dx dy (i + n)) = false.
Proof.
  revert i count cells.
  induction fuel as [|fuel IH]; intros i count cells; [done|]. simpl.
  destruct (stepOk board player (stepCell back lastRow lastCol dx dy i)) eqn:Hok.
  - intros H. destruct (IH _ _ _ H) as (n & Hn & Hc & Hmem & Hall & Hstop).
    exists (n + 1). split; [lia|]. split; [lia|]. split; [|split].
    + intros p. rewrite Hmem, elem_of_app, list_elem_of_singleton. split.
      * intros [[? | ->] | (k & ? & ->)]; [by left|right; exists i|right; exists k];
          (split; [lia|done]).
      * intros [? | (k & Hk & ->)]; [by left; left|].
        destruct (decide (k = i)) as [-> | ]; [by left; right|].
        right. exists k. split; [lia|done].
    + intros k Hk. destruct (decide (k = i)) as [-> | ]; [done|]. apply Hall. lia.
    + by replace (i + (n + 1)) with (i + 1 + n) by lia.
  - intros [= <-]. exists 0. split; [lia|]. split; [simpl; lia|]. split; [|split].
    + intros p. split; [by left|]. intros [?|(k & ? & _)]; [done|lia].
    + intros k ?. lia.
    + by replace (i + 0) with i by lia.
Qed.

(** A loop that moves one of the two coordinates by one cell per step ends
    within the fuel. *)
Lemma walk_ends (proj : Coord → Z) (x0 a : Z) :
  (∀ i, proj (stepCell back lastRow lastCol dx dy i) = x0 + a * i) →
  (∀ p, stepOk board player p = true → 0 ≤ proj p < 15) →
  a = 1 ∨ a = -1 →
  ∀ (fuel : nat) (i count : Z) (cells : list Coord),
    (1 ≤ fuel)%nat →
    (x0 + a * i < 0 ∨ 15 ≤ x0 + a * i ∨
     (a = 1 ∧ 15 - (x0 + i) < Z.of_nat fuel) ∨
     (a = -1 ∧ x0 - i + 1 < Z.of_nat fuel)) →
    is_Some (walk fuel board player back lastRow lastCol dx dy i count cells).
Proof.
  intros Hproj Hin Ha. induction fuel as [|fuel IH]; intros i count cells Hf Hm; [lia|].
  simpl. destruct (stepOk board player (stepCell back lastRow lastCol dx dy i)) eqn:Hok;
    [|eauto].
  apply Hin in Hok. rewrite Hproj in Hok.
  apply IH; lia.
Qed.

End Walk.

Lemma walk_total (board : BoardState) (player : CellValue) (back : bool)
    (lastRow lastCol : Z) (d : Z * Z) (fuel : nat) (count : Z) (cells : list Coord) :
  d ∈ directions → (loopBound ≤ fuel)%nat →
  is_Some (walk fuel board player back lastRow lastCol d.1 d.2 1 count cells).
Proof.
  intros Hd Hfuel. unfold loopBound, BOARD_SIZE in Hfuel.
  assert (d.2 = 1 ∨ d.2 = -1 ∨ (d.2 = 0 ∧ d.1 = 1)) as Hcase.
  { unfold directions in Hd. set_unfold. destruct Hd as [-> | [-> | [-> | [-> | []]]]]; simpl; lia. }
  destruct (decide (d.2 = 0)) as [Hz|Hnz].
  - apply (walk_ends board player back lastRow lastCol d.1 d.2 fst lastRow
             (if back then -1 else 1)).
    + intros i. unfold stepCell. destruct back; simpl; lia.
    + intros p Hp. apply stepOk_inb in Hp. tauto.
    + destruct back; lia.
    + lia.
    + destruct back; lia.
  - apply (walk_ends board player back lastRow lastCol d.1 d.2 snd lastCol
             (if back then - d.2 else d.2)).
    + intros i. unfold stepCell. destruct back; simpl; lia.
    + intros p Hp. apply stepOk_inb in Hp. tauto.
    + destruct back; lia.
    + lia.
    + destruct back; lia.
Qed.

Lemma scanLine_total (board : BoardState) (player : CellValue)
    (lastRow lastCol : Z) (d : Z * Z) (fuel : nat) :
  d ∈ directions → (loopBound ≤ fuel)%nat →
  is_Some (scanLine fuel board player lastRow lastCol d).
Proof.
  intros Hd Hfuel. unfold scanLine.
  destruct (walk_total board player false lastRow lastCol d fuel 1
              [(lastRow, lastCol)] Hd Hfuel) as [[count cells] ->].
  by apply walk_total.
Qed.

Lemma scanLine_mono (board : BoardState) (player : CellValue)
    (lastRow lastCol : Z) (d : Z * Z) (fuel fuel' : nat) res :
  (fuel ≤ fuel')%nat →
  scanLine fuel board player lastRow lastCol d = Some res →
  scanLine fuel' board player lastRow lastCol d = Some res.
Proof.
  intros Hle. unfold scanLine.
  destruct (walk fuel _ _ false _ _ _ _ _ _ _) as [[count cells]|] eqn:Hfwd; [|done].
  rewrite (walk_mono _ _ _ _ _ _ _ _ _ _ _ _ _ Hle Hfwd).
  by apply walk_mono.
Qed.

Lemma scanDirections_fuel (board : BoardState) (player : CellValue)
    (lastRow lastCol : Z) (dirs : list (Z * Z)) (fuel : nat) (acc : list Coord) :
  dirs ⊆ directions → (loopBound ≤ fuel)%nat →
  is_Some (scanDirections loopBound board player lastRow lastCol dirs acc) ∧
  scanDirections fuel board player lastRow lastCol dirs acc =
  scanDirections loopBound board player lastRow lastCol dirs acc.
Proof.
  revert acc. induction dirs as [|d dirs IH]; intros acc Hsub Hfuel; simpl; [eauto|].
  assert (d ∈ directions) as Hd by set_solver.
  destruct (scanLine_total board player lastRow lastCol d loopBound Hd)
    as [[count cells] Hline]; [done|].
  rewrite Hline, (scanLine_mono _ _ _ _ _ _ _ _ Hfuel Hline).
  apply IH; [set_solver|done].
Qed.

(** With [loopBound] steps of fuel or more, no loop of [checkLongLines] is
    cut short: the function returns, and returns what [checkLongLines] says. *)
Lemma checkLongLinesFuel_enough (fuel : nat) (board : BoardState)
    (lastRow lastCol : Z) (player : CellValue) :
  (loopBound ≤ fuel)%nat →
  checkLongLinesFuel fuel board lastRow lastCol player =
  Some (checkLongLines board lastRow lastCol player).
Proof.
  intros Hfuel. unfold checkLongLines, checkLongLinesFuel.
  destruct (scanDirections_fuel board player lastRow lastCol directions fuel [])
    as [[all Hall] Heq]; [done|done|].
  by rewrite Heq, Hall.
Qed.

(** ** What one axis contributes *)

Section Axis.

Context (board : BoardState) (player : CellValue) (r c : Z).
Hypothesis Hwf : wfBoard board.
Hypothesis Horigin : get board r c = Some player.

Lemma cellAt_0 (d : Z * Z) : cellAt r c d 0 = (r, c).
Proof. unfold cellAt. f_equal; lia. Qed.

(** The two loops find the maximal run [-m .. n] through the origin. *)
Lemma scanLine_char (fuel : nat) (d : Z * Z) (count : Z) (cells : list Coord) :
  scanLine fuel board player r c d = Some (count, cells) →
  ∃ n m, 0 ≤ n ∧ 0 ≤ m ∧ count = 1 + n + m ∧
         (∀ p, p ∈ cells ↔ ∃ k, - m ≤ k ≤ n ∧ p = cellAt r c d k) ∧
         isRun board player r c d (- m) n ∧
         (∀ a b, isRun board player r c d a b → - m ≤ a ∧ b ≤ n).
Proof.
  unfold scanLine.
  destruct (walk fuel _ _ false _ _ _ _ _ _ _) as [[count1 cells1]|] eqn:Hfwd; [|done].
  intros Hbwd.
  apply walk_spec in Hfwd as (n & Hn & Hc1 & Hmem1 & Hall1 & Hstop1).
  apply walk_spec in Hbwd as (m & Hm & Hc2 & Hmem2 & Hall2 & Hstop2).
  cbn [fst snd] in *. exists n, m. split; [done|]. split; [done|]. split; [lia|].
  assert (∀ k, - m ≤ k ≤ n → get board (cellAt r c d k).1 (cellAt r c d k).2 = Some player)
    as Hrun.
  { intros k Hk. destruct (decide (k = 0)) as [-> | Hk0].
    - by rewrite cellAt_0.
    - destruct (decide (0 < k)).
      + rewrite <- stepCell_fwd. apply stepOk_spec; [done|]. apply Hall1. lia.
      + replace k with (- - k) by lia. rewrite <- stepCell_back.
        apply stepOk_spec; [done|]. apply Hall2. lia. }
  split; [|split].
  - intros p. rewrite Hmem2, Hmem1, list_elem_of_singleton. split.
    + intros [[-> | (k & Hk & ->)] | (k & Hk & ->)].
      * exists 0. by rewrite cellAt_0; split; [lia|].
      * exists k. by rewrite stepCell_fwd; split; [lia|].
      * exists (- k). by rewrite stepCell_back; split; [lia|].
    + intros (k & Hk & ->). destruct (decide (k = 0)) as [-> | Hk0].
      * left; left. apply cellAt_0.
      * destruct (decide (0 < k)).
        -- left; right. exists k. by rewrite stepCell_fwd; split; [lia|].
        -- right. exists (- k). rewrite stepCell_back.
           split; [lia|]. f_equal. lia.
  - split; [lia|done].
  - intros a b [Hab Hcells]. split.
    + destruct (decide (- m ≤ a)) as [|Hlt]; [done|]. exfalso.
      assert (stepOk board player (stepCell true r c d.1 d.2 (1 + m)) = true) as Hok.
      { apply stepOk_spec; [done|]. rewrite stepCell_back. apply Hcells. lia. }
      congruence.
    + destruct (decide (b ≤ n)) as [|Hlt]; [done|]. exfalso.
      assert (stepOk board player (stepCell false r c d.1 d.2 (1 + n)) = true) as Hok.
      { apply stepOk_spec; [done|]. rewrite stepCell_fwd. apply Hcells. lia. }
      congruence.
Qed.

(** An axis passes the test [count >= 5] exactly when it has a long run, and
    then its cells are exactly those of the long runs. *)
Lemma scanLine_long (fuel : nat) (d : Z * Z) (count : Z) (cells : list Coord) :
  scanLine fuel board player r c d = Some (count, cells) →
  (5 ≤ count ↔ hasLongRun board player r c d) ∧
  (∀ p, (5 ≤ count ∧ p ∈ cells) ↔ onLongRun board player r c d p).
Proof.
  intros (n & m & Hn & Hm & -> & Hmem & Hrun & Hmax)%scanLine_char.
  split.
  - split.
    + intros H5. exists (- m), n. split; [done|lia].
    + intros (a & b & Hab & H5). apply Hmax in Hab. lia.
  - intros p. rewrite Hmem. split.
    + intros (H5 & k & Hk & ->). exists (- m), n, k.
      split; [done|]. split; [lia|]. split; [lia|done].
    + intros (a & b & k & Hab & H5 & Hk & ->). apply Hmax in Hab.
      split; [lia|]. exists k. split; [lia|done].
Qed.

Lemma scanDirections_mem (fuel : nat) (dirs : list (Z * Z)) (acc all : list Coord) :
  scanDirections fuel board player r c dirs acc = Some all →
  ∀ p, p ∈ all ↔ p ∈ acc ∨ ∃ d, d ∈ dirs ∧ onLongRun board player r c d p.
Proof.
  revert acc. induction dirs as [|d dirs IH]; intros acc; simpl.
  - intros [= <-] p. split; [by left|]. intros [?|(d & Hd & _)]; [done|]. set_solver.
  - destruct (scanLine fuel board player r c d) as [[count cells]|] eqn:Hline; [|done].
    intros Hrest p. rewrite (IH _ Hrest p).
    destruct (scanLine_long _ _ _ _ Hline) as [_ Hcells]. specialize (Hcells p).
    case_bool_decide as H5.
    + rewrite elem_of_app. split.
      * intros [[?|?]|(d' & Hd' & ?)]; [by left| |].
        -- right. exists d. split; [set_solver|]. apply Hcells. done.
        -- right. exists d'. split; [set_solver|done].
      * intros [?|(d' & Hd' & Hon)]; [by left; left|].
        apply elem_of_cons in Hd' as [-> | Hd'].
        -- left; right. by apply Hcells.
        -- right. by exists d'.
    + split.
      * intros [?|(d' & Hd' & ?)]; [by left|]. right. exists d'. split; [set_solver|done].
      * intros [?|(d' & Hd' & Hon)]; [by left|].
        apply elem_of_cons in Hd' as [-> | Hd'].
        -- apply Hcells in Hon. tauto.
        -- right. by exists d'.
Qed.

End Axis.

(** ** [new Set] *)

Lemma uniqueFrom_spec (seen l : list Coord) :
  NoDup (uniqueFrom seen l) ∧
  ∀ p, p ∈ uniqueFrom seen l ↔ p ∈ l ∧ p ∉ seen.
Proof.
  revert seen. induction l as [|x l IH]; intros seen; simpl.
  - split; [constructor|]. set_solver.
  - case_bool_decide as Hx.
    + destruct (IH seen) as [Hnd Hmem]. split; [done|].
      intros p. rewrite Hmem. set_solver.
    + destruct (IH (x :: seen)) as [Hnd Hmem]. split.
      * constructor; [|done]. rewrite Hmem. set_solver.
      * intros p. rewrite elem_of_cons, Hmem. 
        destruct (decide (p = x)) as [-> | ]; set_solver.
Qed.

Lemma uniqueStones_NoDup (l : list Coord) : NoDup (uniqueStones l).
Proof. apply uniqueFrom_spec. Qed.

Lemma uniqueStones_mem (l : list Coord) (p : Coord) : p ∈ uniqueStones l ↔ p ∈ l.
Proof. unfold uniqueStones. rewrite (proj2 (uniqueFrom_spec [] l)). set_solver. Qed.

(** ** [checkLongLines] *)

Lemma checkLongLines_unfold (board : BoardState) (r c : Z) (player : CellValue) :
  ∃ all, scanDirections loopBound board player r c directions [] = Some all ∧
         checkLongLines board r c player =
         if bool_decide (0 < Z.of_nat (length (uniqueStones all)))
         then Some (uniqueStones all) else None.
Proof.
  destruct (scanDirections_fuel board player r c directions loopBound [])
    as [[all Hall] _]; [done|done|].
  exists all. split; [done|]. unfold checkLongLines, checkLongLinesFuel. by rewrite Hall.
Qed.

(** A non-[null] result is never the empty array. *)
Lemma checkLongLines_nonempty (board : BoardState) (r c : Z) (player : CellValue)
    (stones : list Coord) :
  checkLongLines board r c player = Some stones → 0 < Z.of_nat (length stones).
Proof.
  destruct (checkLongLines_unfold board r c player) as (all & _ & ->).
  case_bool_decide; [|done]. by intros [= <-].
Qed.

#[global] Hint Resolve checkLongLines_nonempty : explosion.

Lemma onLongRun_holds (board : BoardState) (color : CellValue) (r c : Z)
    (d : Z * Z) (p : Coord) :
  onLongRun board color r c d p → get board p.1 p.2 = Some color.
Proof. intros (a & b & k & [_ Hrun] & _ & Hk & ->). by apply Hrun. Qed.

Lemma hasLongRun_origin (board : BoardState) (color : CellValue) (r c : Z) (d : Z * Z) :
  hasLongRun board color r c d ↔ onLongRun board color r c d (r, c).
Proof.
  split.
  - intros (a & b & Hab & H5). exists a, b, 0.
    split; [done|]. split; [done|]. split; [apply Hab|]. by rewrite cellAt_0.
  - intros (a & b & k & Hab & H5 & _). by exists a, b.
Qed.

(** C1.  On a 15x15 board whose placement cell [(r, c)] holds [color],
    [checkLongLines] returns [null] exactly when no axis has a contiguous
    run of that color of length at least 5 through the placement cell;
    otherwise it returns a duplicate-free list of cells, each holding
    [color] and lying on such a run, which contains the placement cell and
    every cell of every such run (runs longer than 5 in full). *)
Theorem checkLongLines_correct (board : BoardState) (r c : Z) (color : CellValue) :
  wfBoard board →
  get board r c = Some color →
  (checkLongLines board r c color = None ↔
   ¬ ∃ d, d ∈ directions ∧ hasLongRun board color r c d) ∧
  (∀ stones, checkLongLines board r c color = Some stones →
     NoDup stones ∧
     (r, c) ∈ stones ∧
     (∀ p, p ∈ stones →
        get board p.1 p.2 = Some color ∧
        ∃ d, d ∈ directions ∧ onLongRun board color r c d p) ∧
     (∀ d a b k, d ∈ directions → isRun board color r c d a b →
        5 ≤ b - a + 1 → a ≤ k ≤ b → cellAt r c d k ∈ stones)).
Proof.
  intros Hwf Horigin.
  destruct (checkLongLines_unfold board r c color) as (all & Hall & ->).
  pose proof (scanDirections_mem board color r c Hwf Horigin _ _ _ _ Hall) as Hmem.
  assert (∀ p, p ∈ uniqueStones all ↔
               ∃ d, d ∈ directions ∧ onLongRun board color r c d p) as Hu.
  { intros p. rewrite uniqueStones_mem, Hmem. split; [|by right].
    intros [Hnil|?]; [|done]. by apply elem_of_nil in Hnil. }
  split.
  - case_bool_decide as Hlen.
    + split; [done|]. intros Hno. exfalso.
      destruct (uniqueStones all) as [|p u]; [simpl in Hlen; lia|].
      destruct (proj1 (Hu p)) as (d & Hd & Hon); [left|].
      apply Hno. exists d. split; [done|].
      destruct Hon as (a & b & k & Hab & H5 & _). by exists a, b.
    + split; [|done]. intros _ (d & Hd & Hlong).
      assert ((r, c) ∈ uniqueStones all) as Hin.
      { apply Hu. exists d. split; [done|]. by apply hasLongRun_origin. }
      destruct (uniqueStones all); [by apply elem_of_nil in Hin|simpl in Hlen; lia].
  - intros stones. case_bool_decide as Hlen; [|done]. intros [= <-].
    split; [apply uniqueStones_NoDup|].
    assert (∃ p, p ∈ uniqueStones all) as [p0 Hp0].
    { destruct (uniqueStones all) as [|p u]; [simpl in Hlen; lia|]. exists p. left. }
    split; [|split].
    + apply Hu in Hp0 as (d & Hd & (a & b & k & Hab & H5 & _)).
      apply Hu. exists d. split; [done|]. apply hasLongRun_origin. by exists a, b.
    + intros p (d & Hd & Hon)%Hu. split; [by eapply onLongRun_holds|by exists d].
    + intros d a b k Hd Hab H5 Hk. apply Hu. exists d. split; [done|].
      by exists a, b, k.
Qed.

(** ** [processTurn] *)

Lemma p1IsBlack_mod (turn : Z) :
  p1IsBlack turn = bool_decide ((turn `div` 30) `mod` 2 = 0).
Proof.
  unfold p1IsBlack. apply bool_decide_ext.
  rewrite Z.rem_divide, Z.mod_divide by lia. done.
Qed.

Lemma processTurnWith_scores moverIsP1 s newBoard r c mover hc base turn :
  scores (processTurnWith moverIsP1 s newBoard r c mover hc base turn) =
  awarded moverIsP1 newBoard r c mover hc base turn.
Proof.
  pt_unfold. pt_explosion; repeat case_match; reflexivity.
Qed.

Lemma processTurnWith_board moverIsP1 s newBoard r c mover hc base turn :
  board (processTurnWith moverIsP1 s newBoard r c mover hc base turn) =
  cleared newBoard r c mover.
Proof.
  pt_unfold. pt_explosion; repeat case_match; reflexivity.
Qed.


(** In [src/index.tsx] the mover is player 1 exactly when it plays the color
    that the turn counter gives to Seat1. *)
Lemma isP1_seat (mover hc : CellValue) (turn : Z) :
  Index.isP1 mover hc turn = bool_decide (mover = seatColorAt turn Seat1).
Proof.
  unfold Index.isP1, seatColorAt. rewrite p1IsBlack_mod.
  case_bool_decide; reflexivity.
Qed.

(** C2.  When line detection on the board after the move returns a removal
    set [stones], the seat that holds the mover's color under the mapping of
    the turn counter before the increment keeps its score and the other seat
    gains exactly [length stones].  [src/index.tsx] derives the mapping from
    the counter; [src/unnamed/part_000] reads it from [currentHumanColor],
    which is Seat1's color under that mapping. *)
Theorem score_transfer (s : State) (newBoard : BoardState) (r c : Z)
    (mover hc : CellValue) (base : Scores) (turn : Z)
    (stones : list Coord) (seat : Seat) :
  checkLongLines newBoard r c mover = Some stones →
  seatColorAt turn seat = mover →
  (let s' := Index.processTurn s newBoard r c mover hc base turn in
   seatScore seat (scores s') = seatScore seat base ∧
   seatScore (otherSeat seat) (scores s') =
   seatScore (otherSeat seat) base + Z.of_nat (length stones)) ∧
  (hc = seatColorAt turn Seat1 →
   let s' := Part000.processTurn s newBoard r c mover hc base turn in
   seatScore seat (scores s') = seatScore seat base ∧
   seatScore (otherSeat seat) (scores s') =
   seatScore (otherSeat seat) base + Z.of_nat (length stones)).
Proof.
  intros Hexp Hseat. split; [|intros Hhc]; cbn zeta;
    unfold Index.processTurn, Part000.processTurn;
    rewrite processTurnWith_scores; unfold awarded; rewrite Hexp.
  - rewrite isP1_seat, <- Hseat.
    destruct seat; unfold seatColorAt; case_bool_decide; simpl;
      repeat case_bool_decide; simpl; try done; lia.
  - unfold Part000.isP1Move. rewrite Hhc, <- Hseat.
    destruct seat; unfold seatColorAt; case_bool_decide; simpl;
      repeat case_bool_decide; simpl; try done; lia.
Qed.

(** ** The seat/color mapping *)


Lemma processTurnWith_gameMode moverIsP1 s newBoard r c mover hc base turn :
  gameMode (processTurnWith moverIsP1 s newBoard r c mover hc base turn) = gameMode s.
Proof. pt_unfold. pt_explosion; repeat case_match; reflexivity. Qed.

















(** One call of [processTurn]: either the game ends and the counter and
    [humanColor] stay, or the counter goes up by one and [humanColor] is
    swapped exactly when the new counter is a positive multiple of 30. *)
Lemma processTurnWith_step moverIsP1 s newBoard r c mover hc base turn :
  let s' := processTurnWith moverIsP1 s newBoard r c mover hc base turn in
  (isGameOver s' = true ∧ turnCount s' = turnCount s ∧ humanColor s' = humanColor s) ∨
  (isGameOver s' = isGameOver s ∧ turnCount s' = turn + 1 ∧
   humanColor s' =
   if bool_decide (0 < turn + 1) && bool_decide (Z.rem (turn + 1) 30 = 0)
   then otherColor hc else humanColor s).
Proof.
  cbn zeta. pt_unfold.
  pt_explosion; repeat (case_match; simpl; try done); auto.
Qed.


(** ** The end of the game *)

(** The four ways out of [processTurn]. *)
Lemma processTurnWith_verdict moverIsP1 s newBoard r c mover hc base turn :
  let s' := processTurnWith moverIsP1 s newBoard r c mover hc base turn in
  let sc := scores s' in
  if bool_decide (200 ≤ p1 sc) && bool_decide (100 ≤ p1 sc - p2 sc) then
    isGameOver s' = true ∧ finalResult s' = Some (mkResult P1Name DominantWin)
  else if bool_decide (200 ≤ p2 sc) && bool_decide (100 ≤ p2 sc - p1 sc) then
    isGameOver s' = true ∧ finalResult s' = Some (mkResult P2Name DominantWin)
  else if isBoardFull (board s') then
    isGameOver s' = true ∧
    finalResult s' = Some (getGameResult sc (board s') hc)
  else isGameOver s' = isGameOver s ∧ finalResult s' = finalResult s.
Proof.
  cbn zeta. rewrite processTurnWith_scores, processTurnWith_board.
  pt_unfold. pt_explosion; repeat (case_match; simpl in *; try done).
Qed.

Lemma getGameResult_not_dominant (sc : Scores) (board : BoardState)
    (hc : CellValue) (w : Winner) :
  getGameResult sc board hc ≠ mkResult w DominantWin.
Proof.
  unfold getGameResult. destruct (countStones board) as [black white].
  repeat case_bool_decide; done.
Qed.

Lemma dominates_bool (seat : Seat) (sc : Scores) :
  dominates seat sc ↔
  bool_decide (200 ≤ seatScore seat sc)
  && bool_decide (100 ≤ seatScore seat sc - seatScore (otherSeat seat) sc) = true.
Proof.
  unfold dominates. by rewrite andb_true_iff, !bool_decide_eq_true.
Qed.

Lemma processTurnWith_cases moverIsP1 s newBoard r c mover hc base turn :
  let s' := processTurnWith moverIsP1 s newBoard r c mover hc base turn in
  let sc := scores s' in
  (dominates Seat1 sc ∧ isGameOver s' = true ∧
   finalResult s' = Some (mkResult P1Name DominantWin)) ∨
  (¬ dominates Seat1 sc ∧ dominates Seat2 sc ∧ isGameOver s' = true ∧
   finalResult s' = Some (mkResult P2Name DominantWin)) ∨
  (¬ dominates Seat1 sc ∧ ¬ dominates Seat2 sc ∧ isBoardFull (board s') = true ∧
   isGameOver s' = true ∧
   finalResult s' = Some (getGameResult sc (board s') hc)) ∨
  (¬ dominates Seat1 sc ∧ ¬ dominates Seat2 sc ∧ isBoardFull (board s') = false ∧
   isGameOver s' = isGameOver s ∧ finalResult s' = finalResult s).
Proof.
  cbn zeta.
  pose proof (processTurnWith_verdict moverIsP1 s newBoard r c mover hc base turn) as Hv.
  cbn zeta in Hv. rewrite !dominates_bool. simpl.
  destruct (bool_decide (200 ≤ p1 _) && _); [left; by destruct Hv|].
  destruct (bool_decide (200 ≤ p2 _) && _); [right; left; by destruct Hv|].
  destruct (isBoardFull _); [right; right; left|right; right; right];
    by destruct Hv.
Qed.

(** C4.  After a move applied to a session without a verdict, the verdict
    is "dominant win" for a seat exactly when that seat's score is at least
    200 and leads by at least 100, and then the game is over whether or not
    the board is full (the test comes first).  200 against 100 ends the
    game; 199 against 0 gives no dominant win, and does not end the game
    unless the board is full. *)
Theorem dominant_win_iff moverIsP1 (s : State) (newBoard : BoardState) (r c : Z)
    (mover hc : CellValue) (base : Scores) (turn : Z) :
  finalResult s = None →
  let s' := processTurnWith moverIsP1 s newBoard r c mover hc base turn in
  let sc := scores s' in
  (∀ seat, finalResult s' = Some (mkResult (seatName seat) DominantWin) ↔
           dominates seat sc) ∧
  (∀ seat, dominates seat sc → isGameOver s' = true) ∧
  (∀ seat, seatScore seat sc = 200 → seatScore (otherSeat seat) sc = 100 →
           isGameOver s' = true ∧
           finalResult s' = Some (mkResult (seatName seat) DominantWin)) ∧
  (∀ seat, seatScore seat sc = 199 → seatScore (otherSeat seat) sc = 0 →
           (∀ w, finalResult s' ≠ Some (mkResult w DominantWin)) ∧
           (isBoardFull (board s') = false → isGameOver s' = isGameOver s)).
Proof.
  intros Hnone. cbn zeta.
  pose proof (processTurnWith_cases moverIsP1 s newBoard r c mover hc base turn) as Hv.
  cbn zeta in Hv.
  set (s' := processTurnWith moverIsP1 s newBoard r c mover hc base turn) in *.
  assert (∀ w, finalResult s' = Some (mkResult w DominantWin) →
               ∃ seat, w = seatName seat ∧ dominates seat (scores s')) as Hdom.
  { intros w Hres.
    destruct Hv as [(Hd & _ & Hr)|[(_ & Hd & _ & Hr)|[(_ & _ & _ & _ & Hr)|(_ & _ & _ & _ & Hr)]]];
      rewrite Hr in Hres.
    - exists Seat1. split; [simpl; congruence|done].
    - exists Seat2. split; [simpl; congruence|done].
    - injection Hres as Hres. by apply getGameResult_not_dominant in Hres.
    - congruence. }
  assert (∀ seat, dominates seat (scores s') →
                  isGameOver s' = true ∧
                  finalResult s' = Some (mkResult (seatName seat) DominantWin)) as Hwin.
  { intros seat Hseat.
    assert (¬ dominates (otherSeat seat) (scores s')) as Hother.
    { unfold dominates in *. destruct seat; simpl in *; lia. }
    destruct seat; simpl in Hother;
      destruct Hv as [(? & ? & ?)|[(? & ? & ? & ?)|[(? & ? & _)|(? & ? & _)]]]; done. }
  split; [|split; [|split]].
  - intros seat. split; [|intros Hd; by apply (Hwin seat)].
    intros (seat' & Hname & Hd)%Hdom. by destruct seat, seat'.
  - intros seat Hd. by apply (Hwin seat).
  - intros seat H200 H100. apply Hwin. unfold dominates. lia.
  - intros seat H199 H0.
    assert (∀ seat', ¬ dominates seat' (scores s')) as Hnd.
    { intros seat'. unfold dominates. destruct seat, seat'; simpl in *; lia. }
    split.
    + intros w (seat' & _ & Hd)%Hdom. by apply (Hnd seat').
    + intros Hfull.
      destruct Hv as [(Hd & _)|[(_ & Hd & _)|[(_ & _ & Hf & _)|(_ & _ & _ & Hover & _)]]].
      * by apply Hnd in Hd.
      * by apply Hnd in Hd.
      * congruence.
      * done.
Qed.

(** C5 (as the code has it).  A move that leaves one seat at 200 and the
    other at 99 ends the game with a dominant win for the seat at 200: the
    lead is 101, which passes the test [>= 100]. *)
Theorem dominant_at_200_99 moverIsP1 (s : State) (newBoard : BoardState) (r c : Z)
    (mover hc : CellValue) (base : Scores) (turn : Z) (seat : Seat) :
  let s' := processTurnWith moverIsP1 s newBoard r c mover hc base turn in
  seatScore seat (scores s') = 200 →
  seatScore (otherSeat seat) (scores s') = 99 →
  isGameOver s' = true ∧
  finalResult s' = Some (mkResult (seatName seat) DominantWin).
Proof.
  cbn zeta. intros H200 H99.
  pose proof (processTurnWith_cases moverIsP1 s newBoard r c mover hc base turn) as Hv.
  cbn zeta in Hv. unfold dominates in Hv.
  destruct seat; simpl in *;
    destruct Hv as [(? & ? & ?)|[(? & ? & ? & ?)|[(? & ? & _)|(? & ? & _)]]];
    try done; lia.
Qed.

Lemma countStones_row (row : list CellValue) (acc : Z * Z) :
  foldl (λ (acc' : Z * Z) (cell : CellValue),
           let b := if bool_decide (cell = PLAYER_BLACK) then acc'.1 + 1 else acc'.1 in
           let w := if bool_decide (cell = PLAYER_WHITE) then acc'.2 + 1 else acc'.2 in
           (b, w)) acc row =
  (acc.1 + Z.of_nat (length (filter (λ cell, cell = PLAYER_BLACK) row)),
   acc.2 + Z.of_nat (length (filter (λ cell, cell = PLAYER_WHITE) row))).
Proof.
  revert acc. induction row as [|cell row IH]; intros [b w]; simpl.
  - f_equal; lia.
  - rewrite IH. rewrite !filter_cons. simpl.
    destruct cell; simpl; f_equal; try reflexivity; rewrite Nat2Z.inj_succ; lia.
Qed.

Lemma countStones_spec (board : BoardState) :
  countStones board = (countColor board PLAYER_BLACK, countColor board PLAYER_WHITE).
Proof.
  unfold countStones, countColor.
  enough (∀ acc : Z * Z,
    foldl (λ acc0 row,
             foldl (λ (acc' : Z * Z) (cell : CellValue),
                      let b := if bool_decide (cell = PLAYER_BLACK) then acc'.1 + 1 else acc'.1 in
                      let w := if bool_decide (cell = PLAYER_WHITE) then acc'.2 + 1 else acc'.2 in
                      (b, w)) acc0 row) acc board =
    (acc.1 + Z.of_nat (length (filter (λ cell, cell = PLAYER_BLACK) (concat board))),
     acc.2 + Z.of_nat (length (filter (λ cell, cell = PLAYER_WHITE) (concat board)))))
    as H by (rewrite H; reflexivity).
  induction board as [|row board IH]; intros [b w]; simpl.
  - f_equal; lia.
  - rewrite IH, countStones_row. simpl.
    rewrite !filter_app, !length_app, !Nat2Z.inj_add.
    f_equal; symmetry; apply Z.add_assoc.
Qed.

(** [getGameResult] is the verdict of the specification, with
    [currentHumanColor] as the color of Seat1. *)
Lemma getGameResult_spec (sc : Scores) (board : BoardState) (hc : CellValue) :
  hc = PLAYER_BLACK ∨ hc = PLAYER_WHITE →
  getGameResult sc board hc =
  fullBoardVerdict sc (countColor board hc) (countColor board (otherColor hc)).
Proof.
  intros Hhc. unfold getGameResult, fullBoardVerdict. rewrite countStones_spec.
  destruct Hhc as [-> | ->];
    change (otherColor PLAYER_BLACK) with PLAYER_WHITE;
    change (otherColor PLAYER_WHITE) with PLAYER_BLACK; simpl;
    generalize (countColor board PLAYER_BLACK) (countColor board PLAYER_WHITE);
    intros black white; destruct sc as [s1 s2]; simpl;
    repeat case_bool_decide; try done; exfalso; lia.
Qed.

(** Where the full-board verdict is the one of the specification: in any
    process whose [currentHumanColor] is the color of Seat1. *)
Lemma full_board_verdict moverIsP1 (s : State) (newBoard : BoardState) (r c : Z)
    (mover hc : CellValue) (base : Scores) (turn : Z) :
  hc = seatColorAt turn Seat1 →
  let s' := processTurnWith moverIsP1 s newBoard r c mover hc base turn in
  let sc := scores s' in
  ¬ dominates Seat1 sc → ¬ dominates Seat2 sc →
  isBoardFull (board s') = true →
  isGameOver s' = true ∧
  finalResult s' =
  Some (fullBoardVerdict sc (countColor (board s') (seatColorAt turn Seat1))
                            (countColor (board s') (seatColorAt turn Seat2))).
Proof.
  intros Hhc. cbn zeta. intros Hd1 Hd2 Hfull.
  pose proof (processTurnWith_cases moverIsP1 s newBoard r c mover hc base turn) as Hv.
  cbn zeta in Hv.
  destruct Hv as [(? & _)|[(_ & ? & _)|[(_ & _ & _ & Hover & Hres)|(_ & _ & ? & _)]]];
    try done; [|congruence].
  split; [done|]. rewrite Hres, getGameResult_spec.
  - rewrite Hhc. f_equal. f_equal. f_equal.
    unfold seatColorAt. by case_bool_decide.
  - rewrite Hhc. unfold seatColorAt. case_bool_decide; auto.
Qed.

(** ** A full game between two peers *)

Lemma step_gameMode (s : State) (e : Event) : gameMode (step s e) = gameMode s.
Proof.
  destruct e as [r c|r c]; simpl.
  - unfold Index.handleCellClick. repeat (case_match; simpl; try done).
    all: unfold Index.processTurn; by rewrite processTurnWith_gameMode.
  - unfold Index.receiveMove, Index.remoteMoveEffect, Index.handleRemoteMove. simpl.
    repeat (case_match; simpl; try done).
    all: unfold Index.processTurn;
      change (gameMode (setLastRemoteMove ?x ?s)) with (gameMode s);
      by rewrite processTurnWith_gameMode.
Qed.

Lemma run_reachable (events : list Event) (s : State) :
  Index.reachable s → gameMode s = ONLINE → Index.reachable (run events s).
Proof.
  revert s. induction events as [|e events IH]; intros s Hreach Hmode; [done|].
  simpl. apply IH.
  - destruct e as [r c|r c]; simpl; by constructor.
  - by rewrite step_gameMode.
Qed.

(** C6 (where the code departs from it).  Both peers of an online session
    play the same 225 moves, which fill the board without any line of five:
    scores are 0 to 0, Seat1 (the host) holds white and has 112 stones,
    Seat2 (the guest) holds black and has 113.  The host's process declares
    player 1 the winner, as the specification does; the guest's process,
    whose [humanColor] is the color of Seat2, declares player 2 the winner,
    the seat with more stones. *)
Theorem guest_full_board_verdict :
  Index.reachable hostEnd ∧ Index.reachable guestEnd ∧
  board guestEnd = board hostEnd ∧
  isBoardFull (board guestEnd) = true ∧
  scores guestEnd = mkScores 0 0 ∧ scores hostEnd = mkScores 0 0 ∧
  turnCount guestEnd = 224 ∧ turnCount hostEnd = 224 ∧
  seatColorAt 224 Seat1 = PLAYER_WHITE ∧
  countColor (board guestEnd) PLAYER_WHITE = 112 ∧
  countColor (board guestEnd) PLAYER_BLACK = 113 ∧
  specVerdict hostEnd = mkResult P1Name (MoreStones P2Name 1) ∧
  specVerdict guestEnd = mkResult P1Name (MoreStones P2Name 1) ∧
  isGameOver hostEnd = true ∧
  finalResult hostEnd = Some (mkResult P1Name (MoreStones P2Name 1)) ∧
  isGameOver guestEnd = true ∧
  finalResult guestEnd = Some (mkResult P2Name (MoreStones P1Name 1)).
Proof.
  split; [|split].
  - apply run_reachable; [|reflexivity]. constructor. by left.
  - apply run_reachable; [|reflexivity]. constructor. by right.
  - vm_compute. repeat split.
Qed.

(** ** Remote moves *)



Lemma rawRead_get_empty (board : BoardState) (r c : Z) :
  rawRead board r c = JsCell EMPTY ↔ get board r c = Some EMPTY.
Proof.
  unfold get. destruct (rawRead board r c) as [v| |]; split; congruence.
Qed.


(** ** Candidate generation *)

Lemma foldl_mem {X} (f : list Coord → X → list Coord) (Q : X → Coord → Prop) :
  (∀ acc x p, p ∈ f acc x ↔ p ∈ acc ∨ Q x p) →
  ∀ xs acc p, p ∈ foldl f acc xs ↔ p ∈ acc ∨ ∃ x, x ∈ xs ∧ Q x p.
Proof.
  intros Hf. induction xs as [|x xs IH]; intros acc p; simpl.
  - split; [by left|]. intros [?|(x & Hx & _)]; [done|]. by apply elem_of_nil in Hx.
  - rewrite IH, Hf. split.
    + intros [[?|?]|(y & Hy & ?)]; [by left| |].
      * right. exists x. split; [left|done].
      * right. exists y. split; [by right|done].
    + intros [?|(y & Hy & HQ)]; [by left; left|].
      apply elem_of_cons in Hy as [-> | Hy]; [by left; right|].
      right. by exists y.
Qed.

Lemma addNeighbor_mem board r c dr moves dc p :
  p ∈ addNeighbor board r c dr moves dc ↔
  p ∈ moves ∨ (p = (r + dr, c + dc) ∧ inb p.1 = true ∧ inb p.2 = true ∧
               cellIs board p.1 p.2 EMPTY = true).
Proof.
  unfold addNeighbor.
  destruct (inb (r + dr) && inb (c + dc) && cellIs board (r + dr) (c + dc) EMPTY) eqn:Hok.
  - apply andb_true_iff in Hok as [[Hr Hc]%andb_true_iff Hcell].
    case_bool_decide as Hin.
    + split; [by left|]. intros [?|(-> & _)]; done.
    + rewrite elem_of_app, list_elem_of_singleton. split.
      * intros [? | ->]; [by left|by right].
      * intros [?|(-> & _)]; [by left|by right].
  - split; [by left|]. intros [?|(-> & Hr & Hc & Hcell)]; [done|].
    simpl in *. by rewrite Hr, Hc, Hcell in Hok.
Qed.

Lemma getEmptyNeighbors_raw (board : BoardState) (distance : Z) :
  ∃ raw, (∀ p, p ∈ raw ↔ nearStone board distance p) ∧
         getEmptyNeighbors board distance =
         if bool_decide (length raw = 0%nat) then [center] else raw.
Proof.
  unfold getEmptyNeighbors. eexists. split; [|reflexivity].
  intros p.
  rewrite (foldl_mem _ (λ r p, ∃ c, c ∈ seqZ 0 BOARD_SIZE ∧
             cellIs board r c EMPTY = false ∧
             ∃ dr, dr ∈ offsets distance ∧ ∃ dc, dc ∈ offsets distance ∧
               p = (r + dr, c + dc) ∧ inb p.1 = true ∧ inb p.2 = true ∧
               cellIs board p.1 p.2 EMPTY = true)).
  - unfold nearStone. split.
    + intros [Hnil|(r & Hr & c & Hc & Hst & dr & Hdr & dc & Hdc & Hp)];
        [by apply elem_of_nil in Hnil|].
      exists r, c, dr, dc. tauto.
    + intros (r & c & dr & dc & Hr & Hc & Hst & Hdr & Hdc & Hp). right.
      exists r. split; [done|]. exists c. split; [done|]. split; [done|].
      exists dr. split; [done|]. exists dc. tauto.
  - intros acc r q.
    rewrite (foldl_mem _ (λ c p, cellIs board r c EMPTY = false ∧
               ∃ dr, dr ∈ offsets distance ∧ ∃ dc, dc ∈ offsets distance ∧
                 p = (r + dr, c + dc) ∧ inb p.1 = true ∧ inb p.2 = true ∧
                 cellIs board p.1 p.2 EMPTY = true)); [done|].
    intros acc' c q'. unfold addNeighborsOf.
    destruct (cellIs board r c EMPTY) eqn:Hst; simpl.
    + split; [by left|]. intros [?|[? _]]; done.
    + rewrite (foldl_mem _ (λ dr p, ∃ dc, dc ∈ offsets distance ∧
                 p = (r + dr, c + dc) ∧ inb p.1 = true ∧ inb p.2 = true ∧
                 cellIs board p.1 p.2 EMPTY = true)).
      * split; [intros [?|?]; [by left|by right]|].
        intros [?|[_ ?]]; [by left|by right].
      * intros acc'' dr q''.
        apply (foldl_mem _ (λ dc p, p = (r + dr, c + dc) ∧ inb p.1 = true ∧
                 inb p.2 = true ∧ cellIs board p.1 p.2 EMPTY = true)).
        intros a dc q3. apply addNeighbor_mem.
Qed.

Lemma nearStone_ok (board : BoardState) (distance : Z) (p : Coord) :
  nearStone board distance p →
  (0 ≤ p.1 < 15 ∧ 0 ≤ p.2 < 15) ∧ get board p.1 p.2 = Some EMPTY.
Proof.
  intros (r & c & dr & dc & _ & _ & _ & _ & _ & _ & Hr & Hc & Hcell).
  apply inb_spec in Hr, Hc. unfold cellIs in Hcell.
  by apply bool_decide_eq_true in Hcell.
Qed.

Lemma getEmptyNeighbors_nonempty (board : BoardState) (distance : Z) :
  getEmptyNeighbors board distance ≠ [].
Proof.
  destruct (getEmptyNeighbors_raw board distance) as (raw & _ & ->).
  case_bool_decide as Hlen; [done|]. by destruct raw.
Qed.

(** Every candidate lies on the board. *)
Lemma getEmptyNeighbors_inb (board : BoardState) (distance : Z) (p : Coord) :
  p ∈ getEmptyNeighbors board distance → 0 ≤ p.1 < 15 ∧ 0 ≤ p.2 < 15.
Proof.
  destruct (getEmptyNeighbors_raw board distance) as (raw & Hraw & ->).
  case_bool_decide as Hlen.
  - intros ->%list_elem_of_singleton. vm_compute. repeat split; discriminate.
  - intros Hp%Hraw. by apply nearStone_ok in Hp as [? _].
Qed.

Section Spread.

Context (board : BoardState).
Hypothesis Hwf : wfBoard board.
Hypothesis Hnone : ∀ p, ¬ nearStone board 1 p.

(** With no candidate at all, the neighbours of a stone are stones. *)
Lemma stone_neighbour (r c r' c' : Z) :
  0 ≤ r < 15 → 0 ≤ c < 15 → 0 ≤ r' < 15 → 0 ≤ c' < 15 →
  -1 ≤ r' - r ≤ 1 → -1 ≤ c' - c ≤ 1 →
  cellIs board r c EMPTY = false → cellIs board r' c' EMPTY = false.
Proof.
  intros Hr Hc Hr' Hc' Hdr Hdc Hst.
  destruct (cellIs board r' c' EMPTY) eqn:Hcell; [|done]. exfalso.
  apply (Hnone (r', c')). exists r, c, (r' - r), (c' - c).
  unfold offsets, BOARD_SIZE. rewrite !elem_of_seqZ. simpl.
  repeat split; try lia; try done.
  - f_equal; lia.
  - apply inb_spec. lia.
  - apply inb_spec. lia.
Qed.

Lemma stones_spread (r0 c0 : Z) :
  0 ≤ r0 < 15 → 0 ≤ c0 < 15 → cellIs board r0 c0 EMPTY = false →
  ∀ (n : nat) (r c : Z), 0 ≤ r < 15 → 0 ≤ c < 15 →
    Z.abs (r - r0) + Z.abs (c - c0) ≤ Z.of_nat n →
    cellIs board r c EMPTY = false.
Proof.
  intros Hr0 Hc0 Hst. induction n as [|n IH]; intros r c Hr Hc Hdist.
  - assert (r = r0) as -> by lia. assert (c = c0) as -> by lia. done.
  - destruct (decide (r = r0)) as [-> | Hne].
    + destruct (decide (c = c0)) as [-> | Hnc]; [done|].
      set (c' := if decide (c0 < c) then c - 1 else c + 1).
      assert (0 ≤ c' < 15 ∧ -1 ≤ c - c' ≤ 1 ∧
              Z.abs (r0 - r0) + Z.abs (c' - c0) ≤ Z.of_nat n) as (? & ? & ?).
      { unfold c'. destruct (decide (c0 < c)); lia. }
      apply (stone_neighbour r0 c' r0 c); try lia; try done. by apply IH.
    + set (r' := if decide (r0 < r) then r - 1 else r + 1).
      assert (0 ≤ r' < 15 ∧ -1 ≤ r - r' ≤ 1 ∧
              Z.abs (r' - r0) + Z.abs (c - c0) ≤ Z.of_nat n) as (? & ? & ?).
      { unfold r'. destruct (decide (r0 < r)); lia. }
      apply (stone_neighbour r' c r c); try lia; try done. by apply IH.
Qed.

End Spread.

Lemma isBoardFull_spec (board : BoardState) :
  isBoardFull board = true ↔
  ∀ r c, 0 ≤ r < 15 → 0 ≤ c < 15 → cellIs board r c EMPTY = false.
Proof.
  unfold isBoardFull, BOARD_SIZE. rewrite forallb_forall. split.
  - intros H r c Hr Hc.
    assert (In r (seqZ 0 15)) as Hinr by (apply list_elem_of_In, elem_of_seqZ; lia).
    specialize (H r Hinr). rewrite forallb_forall in H.
    assert (In c (seqZ 0 15)) as Hinc by (apply list_elem_of_In, elem_of_seqZ; lia).
    specialize (H c Hinc). by apply negb_true_iff in H.
  - intros H r Hr%list_elem_of_In%elem_of_seqZ. rewrite forallb_forall.
    intros c Hc%list_elem_of_In%elem_of_seqZ. apply negb_true_iff, H; lia.
Qed.

(** On a board with an empty cell every candidate is an empty cell: either it
    neighbours a stone, or there is no stone and it is the centre. *)
Lemma getEmptyNeighbors_empty (board : BoardState) (p : Coord) :
  wfBoard board → isBoardFull board = false →
  p ∈ getEmptyNeighbors board 1 → get board p.1 p.2 = Some EMPTY.
Proof.
  intros Hwf Hfull.
  destruct (getEmptyNeighbors_raw board 1) as (raw & Hraw & ->).
  case_bool_decide as Hlen.
  - intros ->%list_elem_of_singleton.
    destruct (cellIs board 7 7 EMPTY) eqn:Hcentre.
    + unfold cellIs in Hcentre. by apply bool_decide_eq_true in Hcentre.
    + exfalso. assert (isBoardFull board = true) as Hcontra; [|congruence].
      apply isBoardFull_spec. intros r c Hr Hc.
      apply (stones_spread board) with (r0 := 7) (c0 := 7)
                                       (n := Z.to_nat (Z.abs (r - 7) + Z.abs (c - 7)));
        try done; try lia.
      intros q Hq%Hraw. destruct raw; [by apply elem_of_nil in Hq|done].
  - intros Hp%Hraw. by apply nearStone_ok in Hp as [_ ?].
Qed.

(** ** The tiers pick a candidate *)

Lemma getEasyMove_candidate (board : BoardState) (ai : CellValue) (u : Q) :
  (0 <= u)%Q → (u < 1)%Q →
  ∃ m, getEasyMove board ai u = Some m ∧ m ∈ getEmptyNeighbors board 1.
Proof.
  intros Hu0 Hu1. unfold getEasyMove.
  pose proof (getEmptyNeighbors_nonempty board 1) as Hne.
  set (moves := getEmptyNeighbors board 1) in *.
  rewrite bool_decide_false by (by destruct moves).
  set (len := Z.of_nat (length moves)).
  assert (0 < len) as Hlen by (unfold len; destruct moves; simpl; [done|lia]).
  assert (0 ≤ Qfloor (u * inject_Z len) < len) as Hidx.
  { split.
    - change 0 with (Qfloor (inject_Z 0)). apply Qfloor_resp_le.
      apply Qmult_le_0_compat; [done|]. change 0%Q with (inject_Z 0).
      rewrite <- Zle_Qle. lia.
    - rewrite Zlt_Qlt. eapply Qle_lt_trans; [apply Qfloor_le|].
      rewrite <- (Qmult_1_l (inject_Z len)) at 2.
      apply Qmult_lt_compat_r; [|done].
      change 0%Q with (inject_Z 0). rewrite <- Zlt_Qlt. lia. }
  destruct (jsIndex_is_Some moves (Qfloor (u * inject_Z len))) as [m Hm]; [done|].
  exists m. split; [done|]. apply jsIndex_Some in Hm as [_ Hm].
  apply list_elem_of_lookup. eauto.
Qed.

Lemma getMediumMove_candidate (board : BoardState) (ai : CellValue) (rnd : nat → Q) :
  ∃ m, getMediumMove board ai rnd = Some m ∧ m ∈ getEmptyNeighbors board 1.
Proof.
  unfold getMediumMove.
  pose proof (getEmptyNeighbors_nonempty board 1) as Hne.
  set (moves := getEmptyNeighbors board 1) in *.
  set (f := λ (st : option Q * option Coord * nat) (move : Coord), _).
  assert (∀ l st, l ⊆ moves →
            (∃ m, st.1.2 = Some m ∧ m ∈ moves) →
            ∃ m, (foldl f st l).1.2 = Some m ∧ m ∈ moves) as Hfold.
  { induction l as [|x l IH]; intros st Hsub Hst; [done|]. simpl.
    apply IH; [set_solver|].
    destruct st as [[bestScore bestMove] n]. unfold f.
    destruct (evaluate rnd n x.1 x.2 ai _) as [score n'].
    destruct (beats score bestScore); simpl; [|done].
    exists x. split; [done|]. set_solver. }
  destruct moves as [|m0 moves'] eqn:Hmoves; [done|].
  destruct (Hfold (m0 :: moves') (None, jsIndex (m0 :: moves') 0, 0%nat))
    as (m & Hm & Hin); [done|exists m0; split; [done|left]|].
  exists m. split; [|done].
  destruct (foldl f _ _) as [[? ?] ?]. done.
Qed.

Lemma wfBoard_place (board : BoardState) (r c : Z) (v : CellValue) :
  wfBoard board → wfBoard (place board r c v).
Proof.
  intros [Hlen Hrows]. unfold place. case_match; [|done]. split.
  - by rewrite length_alter.
  - apply Forall_alter; [done|]. intros row _ Hrow. by rewrite length_insert.
Qed.

(** With the row inside a 15x15 board, the unchecked read returns: a cell,
    or [undefined] for a column outside the board, never a TypeError. *)
Lemma neighbourIsAi_returns (tempBoard : BoardState) (ai : CellValue) (r' c' : Z) :
  wfBoard tempBoard → ∃ b, neighbourIsAi tempBoard ai r' c' = Returns b.
Proof.
  intros Hwf. unfold neighbourIsAi.
  destruct (bool_decide (r' < 15) && bool_decide (0 ≤ r')) eqn:Hguard; [|eauto].
  bool_hyps. unfold rawRead.
  destruct (jsIndex_is_Some tempBoard r') as [row ->].
  { destruct Hwf as [-> _]. unfold BOARD_SIZE. lia. }
  destruct (jsIndex row c'); eauto.
Qed.

Lemma adjacencyScore_returns (tempBoard : BoardState) (ai : CellValue) (r c : Z)
    (dirs : list (Z * Z)) (z : Z) :
  wfBoard tempBoard →
  ∃ z', foldl (adjacencyScore tempBoard ai r c) (Returns z) dirs = Returns z'.
Proof.
  intros Hwf. revert z. induction dirs as [|d dirs IH]; intros z; simpl; [eauto|].
  destruct (neighbourIsAi_returns tempBoard ai (r + d.1) (c + d.2) Hwf) as [fwd ->].
  destruct (neighbourIsAi_returns tempBoard ai (r - d.1) (c - d.2) Hwf) as [bwd ->].
  apply IH.
Qed.

Lemma rescore_returns (board : BoardState) (ai : CellValue) (rnd : nat → Q)
    (n : nat) (candidates : list (Coord * Q)) :
  wfBoard board →
  ∃ l, rescore board ai rnd n candidates = Returns l ∧ l.*1 = candidates.*1.
Proof.
  intros Hwf. revert n.
  induction candidates as [|[move score] rest IH]; intros n; [simpl; eauto|].
  cbn [rescore].
  destruct (negb (Qle_bool (inject_Z (-5000)) score)).
  - destruct (IH n) as (l & -> & Hl). eexists. split; [done|].
    rewrite !fmap_cons. by rewrite Hl.
  - destruct (adjacencyScore_returns (place board move.1 move.2 ai) ai move.1 move.2
                directions 0 (wfBoard_place _ _ _ _ Hwf)) as [z ->].
    destruct (IH (S n)) as (l & -> & Hl). eexists. split; [done|].
    rewrite !fmap_cons. by rewrite Hl.
Qed.

Lemma insertByScore_perm (x : Coord * Q) (l : list (Coord * Q)) :
  insertByScore x l ≡ₚ x :: l.
Proof.
  induction l as [|y l IH]; simpl; [done|].
  destruct (negb (Qle_bool y.2 x.2)); [|done].
  rewrite IH. apply Permutation_swap.
Qed.

Lemma sortByScore_perm (l : list (Coord * Q)) : sortByScore l ≡ₚ l.
Proof.
  induction l as [|x l IH]; simpl; [done|].
  rewrite insertByScore_perm. by constructor.
Qed.

(** On a 15x15 board level 3 does not throw, and its sorted candidates are
    the candidate cells. *)
Lemma strongCandidates_returns (board : BoardState) (ai : CellValue) (rnd : nat → Q) :
  wfBoard board →
  ∃ best rest, strongCandidates board ai rnd = Returns (best :: rest) ∧
               best.1 ∈ getEmptyNeighbors board 1.
Proof.
  intros Hwf. unfold strongCandidates.
  pose proof (getEmptyNeighbors_nonempty board 1) as Hne.
  set (moves := getEmptyNeighbors board 1) in *.
  destruct (rescore_returns board ai rnd 0 (map (initialCandidate board ai) moves) Hwf)
    as (l & -> & Hl).
  assert (l.*1 = moves) as Hmoves.
  { rewrite Hl. clear. induction moves as [|m moves IH]; [done|].
    cbn [map]. rewrite fmap_cons, IH. f_equal.
    unfold initialCandidate. by case_match. }
  pose proof (sortByScore_perm l) as Hperm.
  destruct (sortByScore l) as [|best rest] eqn:Hsort.
  - apply Permutation_nil_l in Hperm. subst l. simpl in Hmoves. congruence.
  - exists best, rest. split; [done|]. rewrite <- Hmoves, <- Hperm.
    apply list_elem_of_fmap. exists best. split; [done|left].
Qed.

(** [processTurn] only starts the timer of [makeAiMove] on a board that is
    not full. *)
Lemma processTurnWith_schedule moverIsP1 s newBoard r c mover hc base turn call :
  pendingAi (processTurnWith moverIsP1 s newBoard r c mover hc base turn) = Some call →
  pendingAi s = Some call ∨ isBoardFull (aiBoard call) = false.
Proof.
  pt_unfold. pt_explosion; repeat (case_match; simpl; try done); auto;
    intros [= <-]; by right.
Qed.

(** C7 (as the code has it).  On a 15x15 board with at least one empty
    cell, every tier returns a cell, and that cell is empty on the given
    board; level 1 for every draw in [0, 1), the others for every stream of
    draws.  The controller never hands a full board to a tier: a timer that
    [processTurn] starts carries a board that is not full. *)
Theorem tiers_pick_empty_cell (board : BoardState) (ai : CellValue)
    (u : Q) (rnd : nat → Q) :
  wfBoard board → isBoardFull board = false →
  (0 <= u)%Q → (u < 1)%Q →
  (∃ m, getEasyMove board ai u = Some m ∧ get board m.1 m.2 = Some EMPTY) ∧
  (∃ m, getMediumMove board ai rnd = Some m ∧ get board m.1 m.2 = Some EMPTY) ∧
  (∃ m, Index.getSuperStrongMove board ai rnd = Returns m ∧
        get board m.1 m.2 = Some EMPTY) ∧
  (∃ m, Part000.getSuperStrongMove board ai rnd = Returns m ∧
        get board m.1 m.2 = Some EMPTY) ∧
  (∀ moverIsP1 s newBoard r c mover hc base turn call,
     pendingAi (processTurnWith moverIsP1 s newBoard r c mover hc base turn) = Some call →
     pendingAi s = Some call ∨ isBoardFull (aiBoard call) = false).
Proof.
  intros Hwf Hfull Hu0 Hu1.
  pose proof (λ p, getEmptyNeighbors_empty board p Hwf Hfull) as Hempty.
  split; [|split; [|split; [|split]]].
  - destruct (getEasyMove_candidate board ai u Hu0 Hu1) as (m & Hm & Hin). eauto.
  - destruct (getMediumMove_candidate board ai rnd) as (m & Hm & Hin). eauto.
  - destruct (strongCandidates_returns board ai rnd Hwf) as (best & rest & Hs & Hin).
    exists best.1. unfold Index.getSuperStrongMove. rewrite Hs. eauto.
  - destruct (strongCandidates_returns board ai rnd Hwf) as (best & rest & Hs & Hin).
    exists best.1. unfold Part000.getSuperStrongMove. rewrite Hs. eauto.
  - intros. by eapply processTurnWith_schedule.
Qed.

(** C9 (as the code has it).  A difficulty that is neither ["EASY"] nor
    ["MEDIUM"] takes the last branch of the dispatch: level 3 in
    [src/index.tsx]; in [src/unnamed/part_000] level 3 for
    ["SUPER_STRONG"] and the external service, with level 3 as its fallback,
    for anything else.  Level 1 is only the initial value of the setting. *)
Theorem unknown_difficulty_dispatch (value : string) (board : BoardState)
    (ai : CellValue) (reply : option (Z * Z)) (rnd : nat → Q) :
  value ≠ "EASY" → value ≠ "MEDIUM" →
  Index.selectMove value board ai rnd =
    match Index.getSuperStrongMove board ai rnd with
    | Throws => Throws
    | Returns move => Returns (Some move)
    end ∧
  (value ≠ "SUPER_STRONG" →
   Part000.selectMove value board ai reply rnd =
   Part000.getGeminiMove board ai reply rnd) ∧
  difficulty Index.initialState = "EASY".
Proof.
  intros Heasy Hmedium. unfold Index.selectMove, Part000.selectMove.
  rewrite !(bool_decide_false (value = "EASY")) by done.
  rewrite !(bool_decide_false (value = "MEDIUM")) by done.
  split; [done|]. split; [|done].
  intros Hstrong. by rewrite bool_decide_false.
Qed.



(** ** The theorems at concrete inputs *)

Lemma wfBoard_row7 : wfBoard row7.
Proof. split; [reflexivity|]. vm_compute. repeat constructor. Qed.

Lemma wfBoard_oneStone : wfBoard oneStone.
Proof. split; [reflexivity|]. vm_compute. repeat constructor. Qed.

Lemma wfBoard_fullBoard : wfBoard fullBoard.
Proof. split; [reflexivity|]. vm_compute. repeat constructor. Qed.

(** Scenario A of the specification: the fifth stone of the row completes
    the line, the five cells are empty again, and the other seat has 5. *)
Example scenarioA_explodes :
  checkLongLines row7 7 4 PLAYER_BLACK = Some [(7, 4); (7, 3); (7, 2); (7, 1); (7, 0)] ∧
  scores scenarioA = mkScores 0 5 ∧
  removedStones scenarioA = [(7, 4); (7, 3); (7, 2); (7, 1); (7, 0)] ∧
  get (board scenarioA) 7 0 = Some EMPTY ∧ get (board scenarioA) 7 4 = Some EMPTY ∧
  checkLongLines (board scenarioA) 7 4 PLAYER_BLACK = None ∧
  turnCount scenarioA = 9.
Proof. vm_compute. repeat split. Qed.

(** Scenario B of the specification: after 29 moves the mapping is as at the
    start; the 30th move swaps it, and the next stone is black, now played
    by Seat2. *)
Example scenarioB_swap :
  turnCount after29 = 29 ∧ storedColor after29 Seat1 = PLAYER_BLACK ∧
  turnCount after30 = 30 ∧ storedColor after30 Seat1 = PLAYER_WHITE ∧
  showSwapAlert after30 = true ∧
  currentPlayer after30 = PLAYER_BLACK ∧ storedColor after30 Seat2 = PLAYER_BLACK.
Proof. vm_compute. repeat split. Qed.

(** [checkLongLines] never reads the placement cell itself, it counts it
    as given: with four black stones on (7,0)..(7,3) and (7,4) still empty
    it reports the five cells.  The source always writes the stone before
    the call, which is the premise of C1 on the placement cell. *)
Example checkLongLines_before_placing :
  get (place row7 7 4 EMPTY) 7 4 = Some EMPTY ∧
  checkLongLines (place row7 7 4 EMPTY) 7 4 PLAYER_BLACK =
  Some [(7, 4); (7, 3); (7, 2); (7, 1); (7, 0)].
Proof. vm_compute. repeat split. Qed.

Lemma checkLongLines_correct_witness :
  wfBoard row7 ∧ get row7 7 4 = Some PLAYER_BLACK ∧
  ∀ stones, checkLongLines row7 7 4 PLAYER_BLACK = Some stones →
    NoDup stones ∧ (7, 4) ∈ stones.
Proof.
  split; [exact wfBoard_row7|]. split; [reflexivity|].
  intros stones H.
  destruct (checkLongLines_correct row7 7 4 PLAYER_BLACK wfBoard_row7 eq_refl)
    as [_ Hall].
  destruct (Hall stones H) as (Hnd & Hin & _). by split.
Defined.

Lemma score_transfer_witness :
  checkLongLines row7 7 4 PLAYER_BLACK = Some [(7, 4); (7, 3); (7, 2); (7, 1); (7, 0)] ∧
  seatColorAt 8 Seat1 = PLAYER_BLACK ∧
  seatScore Seat1
    (scores (Index.processTurn Index.initialState row7 7 4 PLAYER_BLACK PLAYER_BLACK
               (mkScores 0 0) 8)) = 0 ∧
  seatScore Seat2
    (scores (Index.processTurn Index.initialState row7 7 4 PLAYER_BLACK PLAYER_BLACK
               (mkScores 0 0) 8)) = 0 + 5.
Proof.
  split; [reflexivity|]. split; [reflexivity|].
  exact (proj1 (score_transfer Index.initialState row7 7 4 PLAYER_BLACK PLAYER_BLACK
                  (mkScores 0 0) 8 [(7, 4); (7, 3); (7, 2); (7, 1); (7, 0)] Seat1
                  eq_refl eq_refl)).
Defined.


Lemma dominant_win_iff_witness :
  finalResult Index.initialState = None ∧
  isGameOver after200to100 = true ∧
  finalResult after200to100 = Some (mkResult P1Name DominantWin).
Proof.
  split; [reflexivity|].
  destruct (dominant_win_iff Index.isP1 Index.initialState oneStone 7 1 PLAYER_WHITE
              PLAYER_BLACK (mkScores 200 100) 3 eq_refl) as (_ & _ & Hex & _).
  exact (Hex Seat1 eq_refl eq_refl).
Defined.

Lemma dominant_at_200_99_witness :
  seatScore Seat1 (scores after200to99) = 200 ∧
  seatScore Seat2 (scores after200to99) = 99 ∧
  isGameOver after200to99 = true ∧
  finalResult after200to99 = Some (mkResult P1Name DominantWin).
Proof.
  split; [reflexivity|]. split; [reflexivity|].
  exact (dominant_at_200_99 Index.isP1 Index.initialState oneStone 7 1 PLAYER_WHITE
           PLAYER_BLACK (mkScores 200 99) 3 Seat1 eq_refl eq_refl).
Defined.

(** C5, as the specification states it, fails: with 200 to 99 after the
    move, on a board that is not full, the game is over by dominant win. *)
Lemma not_terminal_at_200_99_counterexample :
  scores after200to99 = mkScores 200 99 ∧
  isBoardFull (board after200to99) = false ∧
  isGameOver after200to99 = true ∧
  finalResult after200to99 = Some (mkResult P1Name DominantWin).
Proof. vm_compute. repeat split. Qed.

Lemma tiers_pick_empty_cell_witness :
  wfBoard oneStone ∧ isBoardFull oneStone = false ∧
  (0 <= 1 # 2)%Q ∧ (1 # 2 < 1)%Q ∧
  ∃ m, getEasyMove oneStone PLAYER_BLACK (1 # 2) = Some m ∧
       get oneStone m.1 m.2 = Some EMPTY.
Proof.
  assert ((0 <= 1 # 2)%Q) as H0 by (intros H; discriminate H).
  assert ((1 # 2 < 1)%Q) as H1 by reflexivity.
  split; [exact wfBoard_oneStone|]. split; [reflexivity|].
  split; [exact H0|]. split; [exact H1|].
  exact (proj1 (tiers_pick_empty_cell oneStone PLAYER_BLACK (1 # 2) zeroDraws
                  wfBoard_oneStone eq_refl H0 H1)).
Defined.

(** C7, as the specification states it, fails on an exhausted board: every
    tier returns the centre cell, which holds a stone, instead of signalling
    that no move is available. *)
Lemma tier_on_full_board_counterexample :
  wfBoard fullBoard ∧ isBoardFull fullBoard = true ∧
  get fullBoard 7 7 = Some PLAYER_BLACK ∧
  getEasyMove fullBoard PLAYER_WHITE 0 = Some (7, 7) ∧
  getMediumMove fullBoard PLAYER_WHITE zeroDraws = Some (7, 7) ∧
  Index.getSuperStrongMove fullBoard PLAYER_WHITE zeroDraws = Returns (7, 7) ∧
  Part000.getSuperStrongMove fullBoard PLAYER_WHITE zeroDraws = Returns (7, 7).
Proof. split; [exact wfBoard_fullBoard|]. vm_compute. repeat split. Qed.


Lemma unknown_difficulty_dispatch_witness :
  "INVALID" ≠ "EASY" ∧ "INVALID" ≠ "MEDIUM" ∧
  Index.selectMove "INVALID" oneStone PLAYER_BLACK zeroDraws =
  match Index.getSuperStrongMove oneStone PLAYER_BLACK zeroDraws with
  | Throws => Throws
  | Returns move => Returns (Some move)
  end.
Proof.
  assert ("INVALID" ≠ "EASY") as H1 by discriminate.
  assert ("INVALID" ≠ "MEDIUM") as H2 by discriminate.
  split; [exact H1|]. split; [exact H2|].
  exact (proj1 (unknown_difficulty_dispatch "INVALID" oneStone PLAYER_BLACK None
                  zeroDraws H1 H2)).
Defined.

(** C9, as the specification states it, fails: with the same board and the
    same draws an unknown difficulty does not pick what level 1 picks, and
    in [src/unnamed/part_000] it plays the cell of the external service,
    which is not even a candidate of level 1. *)
Lemma invalid_difficulty_counterexample :
  Index.selectMove "EASY" oneStone PLAYER_BLACK zeroDraws = Returns (Some (6, 0)) ∧
  Index.selectMove "INVALID" oneStone PLAYER_BLACK zeroDraws = Returns (Some (6, 1)) ∧
  Part000.selectMove "INVALID" oneStone PLAYER_BLACK (Some (0, 0)) zeroDraws =
    Returns (Some (0, 0)) ∧
  bool_decide ((0, 0) ∈ getEmptyNeighbors oneStone 1) = false.
Proof. vm_compute. repeat split. Qed.


(** * Further properties of the code *)

(** ** Writing a cell *)

Lemma get_place_ne (board : BoardState) (r c r' c' : Z) (v : CellValue) :
  (r', c') ≠ (r, c) → get (place board r c v) r' c' = get board r' c'.
Proof.
  intros Hne. unfold place.
  destruct (bool_decide (0 ≤ r) && bool_decide (0 ≤ c)) eqn:Hpos; [|done].
  bool_hyps. unfold get, rawRead, jsIndex.
  case_bool_decide as Hr'; [|done].
  destruct (decide (r' = r)) as [-> | Hrow].
  - rewrite list_lookup_alter_eq. destruct (board !! Z.to_nat r) as [row|]; [|done].
    simpl. case_bool_decide as Hc'; [|done].
    rewrite list_lookup_insert_ne; [done|]. intros Heq. apply Hne. f_equal. lia.
  - rewrite list_lookup_alter_ne by lia. done.
Qed.

Lemma get_place_eq (board : BoardState) (r c : Z) (v : CellValue) :
  wfBoard board → 0 ≤ r < 15 → 0 ≤ c < 15 → get (place board r c v) r c = Some v.
Proof.
  intros Hwf Hr Hc. unfold place.
  rewrite !bool_decide_true by lia. simpl.
  unfold get, rawRead, jsIndex. rewrite !bool_decide_true by lia.
  rewrite list_lookup_alter_eq.
  destruct (jsIndex_is_Some board r) as [row Hrow].
  { destruct Hwf as [-> _]. unfold BOARD_SIZE. lia. }
  pose proof (wfBoard_row _ _ _ Hwf Hrow) as Hlen.
  apply jsIndex_Some in Hrow as [_ ->]. simpl.
  rewrite list_lookup_insert_eq by lia. done.
Qed.

Lemma place_get_aux (board : BoardState) (r c r' c' : Z) (v : CellValue) :
  wfBoard board → 0 ≤ r < 15 → 0 ≤ c < 15 →
  wfBoard (place board r c v) ∧
  get (place board r c v) r' c' =
  if bool_decide ((r', c') = (r, c)) then Some v else get board r' c'.
Proof.
  intros Hwf Hr Hc. split; [by apply wfBoard_place|].
  case_bool_decide as Heq.
  - injection Heq as -> ->. by apply get_place_eq.
  - by apply get_place_ne.
Qed.

(** X1.  [copy[r][c] = v] on the copy of a 15x15 board, with [(r, c)] on the
    board, changes the cell [(r, c)] to [v] and no other cell, and the copy
    is still 15x15. *)
Theorem place_get (board : BoardState) (r c r' c' : Z) (v : CellValue) :
  wfBoard board → 0 ≤ r < 15 → 0 ≤ c < 15 →
  wfBoard (place board r c v) ∧
  get (place board r c v) r' c' =
  if bool_decide ((r', c') = (r, c)) then Some v else get board r' c'.
Proof.
  apply place_get_aux.
Qed.

Lemma place_get_witness :
  wfBoard emptyBoard ∧ 0 ≤ 7 < 15 ∧ 0 ≤ 1 < 15 ∧
  get (place emptyBoard 7 1 PLAYER_WHITE) 7 1 = Some PLAYER_WHITE ∧
  get (place emptyBoard 7 1 PLAYER_WHITE) 7 2 = get emptyBoard 7 2.
Proof.
  assert (wfBoard emptyBoard) as Hwf
    by (split; [reflexivity|]; vm_compute; repeat constructor).
  assert (0 ≤ 7 < 15) as H7 by lia. assert (0 ≤ 1 < 15) as H1 by lia.
  split; [exact Hwf|]. split; [exact H7|]. split; [exact H1|].
  split.
  - exact (proj2 (place_get emptyBoard 7 1 7 1 PLAYER_WHITE Hwf H7 H1)).
  - exact (proj2 (place_get emptyBoard 7 1 7 2 PLAYER_WHITE Hwf H7 H1)).
Defined.

(** ** More about [checkLongLines] *)

(** The cells and the verdict of [checkLongLines], in one place. *)
Lemma checkLongLines_char (board : BoardState) (r c : Z) (color : CellValue) :
  wfBoard board → get board r c = Some color →
  (checkLongLines board r c color = None →
   ∀ d, d ∈ directions → ¬ hasLongRun board color r c d) ∧
  (∀ stones, checkLongLines board r c color = Some stones →
     NoDup stones ∧
     ∀ p, p ∈ stones ↔ ∃ d, d ∈ directions ∧ onLongRun board color r c d p).
Proof.
  intros Hwf Horigin.
  destruct (checkLongLines_unfold board r c color) as (all & Hall & ->).
  pose proof (scanDirections_mem board color r c Hwf Horigin _ _ _ _ Hall) as Hmem.
  assert (∀ p, p ∈ uniqueStones all ↔
               ∃ d, d ∈ directions ∧ onLongRun board color r c d p) as Hu.
  { intros p. rewrite uniqueStones_mem, Hmem. split; [|by right].
    intros [Hnil|?]; [|done]. by apply elem_of_nil in Hnil. }
  split.
  - case_bool_decide as Hlen; [done|]. intros _ d Hd Hlong.
    assert ((r, c) ∈ uniqueStones all) as Hin.
    { apply Hu. exists d. split; [done|]. by apply hasLongRun_origin. }
    destruct (uniqueStones all); [by apply elem_of_nil in Hin|simpl in Hlen; lia].
  - intros stones. case_bool_decide as Hlen; [|done]. intros [= <-].
    split; [apply uniqueStones_NoDup|done].
Qed.

Lemma direction_cases (d : Z * Z) :
  d ∈ directions → d.2 = 1 ∨ d.2 = -1 ∨ (d.2 = 0 ∧ d.1 = 1).
Proof.
  unfold directions. rewrite !elem_of_cons, elem_of_nil.
  intros [-> | [-> | [-> | [-> | []]]]]; simpl; lia.
Qed.

(** Along an axis, different steps are different cells. *)
Lemma cellAt_inj (r c : Z) (d : Z * Z) (k k' : Z) :
  d ∈ directions → cellAt r c d k = cellAt r c d k' → k = k'.
Proof.
  intros Hd%direction_cases [= Hr Hc]. destruct Hd as [H|[H|[H H']]].
  - rewrite H in Hc. lia.
  - rewrite H in Hc. lia.
  - rewrite H' in Hr. lia.
Qed.

Lemma stepCell_not_origin (back : bool) (r c : Z) (d : Z * Z) (i : Z) :
  d ∈ directions → 1 ≤ i → stepCell back r c d.1 d.2 i ≠ (r, c).
Proof.
  intros Hd Hi Heq. destruct back.
  - rewrite stepCell_back, <- (cellAt_0 r c d) in Heq.
    apply cellAt_inj in Heq; [lia|done].
  - rewrite stepCell_fwd, <- (cellAt_0 r c d) in Heq.
    apply cellAt_inj in Heq; [lia|done].
Qed.

(** A loop sees only the cells it steps on. *)
Lemma walk_ext (board board' : BoardState) (player : CellValue) (back : bool)
    (r c dx dy : Z) (fuel : nat) :
  ∀ (i count : Z) (cells : list Coord),
    (∀ j, i ≤ j → stepOk board' player (stepCell back r c dx dy j) =
                  stepOk board player (stepCell back r c dx dy j)) →
    walk fuel board' player back r c dx dy i count cells =
    walk fuel board player back r c dx dy i count cells.
Proof.
  induction fuel as [|fuel IH]; intros i count cells Hsame; [done|]. simpl.
  rewrite (Hsame i) by lia.
  destruct (stepOk board player _); [|done]. apply IH. intros j Hj. apply Hsame. lia.
Qed.

Lemma checkLongLines_place_origin (board : BoardState) (r c : Z)
    (v player : CellValue) :
  checkLongLines (place board r c v) r c player = checkLongLines board r c player.
Proof.
  assert (∀ back d i count cells, d ∈ directions → 1 ≤ i →
            walk loopBound (place board r c v) player back r c d.1 d.2 i count cells =
            walk loopBound board player back r c d.1 d.2 i count cells) as Hwalk.
  { intros back d i count cells Hd Hi. apply walk_ext. intros j Hj.
    pose proof (stepCell_not_origin back r c d j Hd ltac:(lia)) as Hne.
    unfold stepOk, cellIs. destruct (stepCell back r c d.1 d.2 j) as [r' c'].
    simpl. by rewrite get_place_ne. }
  assert (∀ d, d ∈ directions →
            scanLine loopBound (place board r c v) player r c d =
            scanLine loopBound board player r c d) as Hline.
  { intros d Hd. unfold scanLine. rewrite Hwalk by (done || lia).
    destruct (walk loopBound board _ false _ _ _ _ _ _ _) as [[count cells]|]; [|done].
    by apply Hwalk. }
  assert (∀ dirs acc, dirs ⊆ directions →
            scanDirections loopBound (place board r c v) player r c dirs acc =
            scanDirections loopBound board player r c dirs acc) as Hdirs.
  { induction dirs as [|d dirs IH]; intros acc Hsub; [done|]. simpl.
    rewrite Hline by set_solver.
    destruct (scanLine loopBound board player r c d) as [[count cells]|]; [|done].
    apply IH. set_solver. }
  unfold checkLongLines, checkLongLinesFuel. by rewrite Hdirs.
Qed.

(** X2.  [checkLongLines] never reads the placement cell: whatever is
    written there, the result is the same.  In particular detection can be
    run before the stone is written. *)
Theorem checkLongLines_ignores_origin (board : BoardState) (r c : Z)
    (v player : CellValue) :
  checkLongLines (place board r c v) r c player = checkLongLines board r c player ∧
  (∀ stones, checkLongLines board r c player = Some stones → (r, c) ∈ stones).
Proof.
  split; [apply checkLongLines_place_origin|].
  intros stones Hexp.
  destruct (checkLongLines_unfold board r c player) as (all & Hall & Heq).
  rewrite Heq in Hexp. case_bool_decide as Hlen; [|done]. injection Hexp as <-.
  apply uniqueStones_mem.
  assert (∀ dirs acc res,
            scanDirections loopBound board player r c dirs acc = Some res →
            res ≠ acc → (r, c) ∈ res) as Hscan.
  { induction dirs as [|d dirs IH]; intros acc res; simpl.
    - intros [= <-] Hne. done.
    - destruct (scanLine loopBound board player r c d) as [[count cells]|] eqn:Hline;
        [|done].
      intros Hrest Hne.
      destruct (decide ((r, c) ∈ res)) as [|Hnot]; [done|]. exfalso.
      case_bool_decide as H5.
      + destruct (decide (res = acc ++ cells)) as [-> | Hne'].
        * apply Hnot, elem_of_app. right.
          unfold scanLine in Hline.
          destruct (walk loopBound _ _ false _ _ _ _ _ _ _) as [[c1 l1]|] eqn:Hf;
            [|done].
          apply walk_spec in Hf as (n & _ & _ & Hm1 & _).
          apply walk_spec in Hline as (m & _ & _ & Hm2 & _).
          apply Hm2. left. apply Hm1. left. left.
        * by apply Hnot, (IH _ _ Hrest).
      + by apply Hnot, (IH _ _ Hrest). }
  apply (Hscan directions [] all Hall).
  intros ->. simpl in Hlen. lia.
Qed.

(** X3.  The two [while (true)] loops of [checkLongLines] end: for any
    board, any start cell (on the board or not) and any color, 16 iterations
    per loop are enough, and more fuel gives the same result. *)
Theorem checkLongLines_loops_end (fuel : nat) (board : BoardState)
    (lastRow lastCol : Z) (player : CellValue) :
  (loopBound ≤ fuel)%nat →
  loopBound = 16%nat ∧
  checkLongLinesFuel fuel board lastRow lastCol player =
  Some (checkLongLines board lastRow lastCol player) ∧
  ∀ d, d ∈ directions →
    is_Some (scanLine fuel board player lastRow lastCol d).
Proof.
  intros Hfuel. split; [reflexivity|]. split.
  - unfold checkLongLines, checkLongLinesFuel.
    destruct (scanDirections_fuel board player lastRow lastCol directions fuel [])
      as [[all Hall] Heq]; [done|done|].
    by rewrite Heq, Hall.
  - intros d Hd. by apply scanLine_total.
Qed.

Lemma checkLongLines_loops_end_witness :
  (loopBound ≤ 20)%nat ∧
  checkLongLinesFuel 20 row7 7 4 PLAYER_BLACK =
  Some (checkLongLines row7 7 4 PLAYER_BLACK).
Proof.
  assert ((loopBound ≤ 20)%nat) as H by (vm_compute; lia).
  split; [exact H|].
  exact (proj1 (proj2 (checkLongLines_loops_end 20 row7 7 4 PLAYER_BLACK H))).
Defined.

(** X4.  A non-[null] result of [checkLongLines] has at least five cells,
    so every explosion is worth at least five points. *)
Theorem explosion_at_least_five (board : BoardState) (r c : Z) (color : CellValue)
    (stones : list Coord) :
  wfBoard board → get board r c = Some color →
  checkLongLines board r c color = Some stones →
  5 ≤ Z.of_nat (length stones).
Proof.
  intros Hwf Horigin Hexp.
  destruct (checkLongLines_char board r c color Hwf Horigin) as [_ Hsome].
  destruct (Hsome stones Hexp) as [Hnd Hmem].
  pose proof (checkLongLines_nonempty _ _ _ _ _ Hexp) as Hpos.
  destruct stones as [|p0 rest] eqn:Hst; [simpl in Hpos; lia|]. rewrite <- Hst in *.
  destruct (proj1 (Hmem p0)) as (d & Hd & a & b & k & Hrun & H5 & Hk & _).
  { rewrite Hst. left. }
  assert (cellAt r c d <$> seqZ a 5 ⊆+ stones) as Hsub.
  { apply NoDup_submseteq.
    - apply (NoDup_fmap_2_strong _); [|apply NoDup_seqZ].
      intros x y _ _ Heq. by eapply cellAt_inj.
    - intros p (j & -> & Hj%elem_of_seqZ)%list_elem_of_fmap.
      apply Hmem. exists d. split; [done|]. exists a, b, j.
      split; [done|]. split; [done|]. split; [lia|done]. }
  apply submseteq_length in Hsub. rewrite length_fmap, length_seqZ in Hsub. lia.
Qed.

Lemma explosion_at_least_five_witness :
  wfBoard row7 ∧ get row7 7 4 = Some PLAYER_BLACK ∧
  checkLongLines row7 7 4 PLAYER_BLACK = Some [(7, 4); (7, 3); (7, 2); (7, 1); (7, 0)] ∧
  5 ≤ Z.of_nat (length [(7, 4); (7, 3); (7, 2); (7, 1); (7, 0)]).
Proof.
  split; [exact wfBoard_row7|]. split; [reflexivity|]. split; [reflexivity|].
  exact (explosion_at_least_five row7 7 4 PLAYER_BLACK _ wfBoard_row7 eq_refl eq_refl).
Defined.

(** ** Clearing an explosion *)

Lemma wfBoard_clearCells (board : BoardState) (cells : list Coord) :
  wfBoard board → wfBoard (clearCells board cells).
Proof.
  revert board. induction cells as [|q cells IH]; intros board Hwf; [done|].
  simpl. apply IH. by apply wfBoard_place.
Qed.

Lemma get_clearCells (board : BoardState) (cells : list Coord) (r c : Z) :
  wfBoard board →
  (∀ q, q ∈ cells → 0 ≤ q.1 < 15 ∧ 0 ≤ q.2 < 15) →
  get (clearCells board cells) r c =
  if bool_decide ((r, c) ∈ cells) then Some EMPTY else get board r c.
Proof.
  revert board. induction cells as [|q cells IH]; intros board Hwf Hin; [done|].
  change (clearCells board (q :: cells))
    with (clearCells (place board q.1 q.2 EMPTY) cells).
  rewrite IH; [|by apply wfBoard_place|intros q' Hq'; apply Hin; by right].
  destruct (Hin q) as [Hq1 Hq2]; [left|].
  destruct (place_get_aux board q.1 q.2 r c EMPTY Hwf Hq1 Hq2) as [_ ->].
  destruct q as [qr qc]. simpl.
  repeat case_bool_decide; try done; set_solver.
Qed.

(** X5.  Removal is idempotent.  After [processTurn], the stored board is
    15x15; the exploded cells are empty and every other cell is as on the
    board that was passed in; and line detection at the same cell for the
    same color on the stored board finds nothing. *)
Theorem removal_idempotent moverIsP1 (s : State) (newBoard : BoardState) (r c : Z)
    (mover hc : CellValue) (base : Scores) (turn : Z) :
  wfBoard newBoard → get newBoard r c = Some mover → mover ≠ EMPTY →
  let s' := processTurnWith moverIsP1 s newBoard r c mover hc base turn in
  wfBoard (board s') ∧
  (∀ r' c', get (board s') r' c' =
            match checkLongLines newBoard r c mover with
            | Some stones =>
                if bool_decide ((r', c') ∈ stones) then Some EMPTY
                else get newBoard r' c'
            | None => get newBoard r' c'
            end) ∧
  checkLongLines (board s') r c mover = None.
Proof.
  intros Hwf Horigin Hcolor. cbn zeta. rewrite processTurnWith_board. unfold cleared.
  destruct (checkLongLines newBoard r c mover) as [stones|] eqn:Hexp; [|done].
  destruct (checkLongLines_char newBoard r c mover Hwf Horigin) as [_ Hsome].
  destruct (Hsome stones Hexp) as [Hnd Hmem].
  assert (∀ q, q ∈ stones → get newBoard q.1 q.2 = Some mover) as Hhold.
  { intros q (d & _ & Hon)%Hmem. by eapply onLongRun_holds. }
  assert (∀ q, q ∈ stones → 0 ≤ q.1 < 15 ∧ 0 ≤ q.2 < 15) as Hin.
  { intros q Hq%Hhold. by eapply get_inb. }
  pose proof (wfBoard_clearCells newBoard stones Hwf) as Hwf'.
  pose proof (λ r' c', get_clearCells newBoard stones r' c' Hwf Hin) as Hget.
  split; [done|]. split; [done|].
  rewrite <- (checkLongLines_place_origin (clearCells newBoard stones) r c mover mover).
  destruct (get_inb _ _ _ _ Hwf Horigin) as [Hr Hc].
  set (B := place (clearCells newBoard stones) r c mover).
  assert (wfBoard B) as HwfB by (by apply wfBoard_place).
  assert (get B r c = Some mover) as HB by (by apply get_place_eq).
  destruct (checkLongLines B r c mover) as [stones2|] eqn:Hexp2; [|done]. exfalso.
  destruct (checkLongLines_char B r c mover HwfB HB) as [_ Hsome2].
  destruct (Hsome2 stones2 Hexp2) as [_ Hmem2].
  pose proof (checkLongLines_nonempty _ _ _ _ _ Hexp2) as Hpos.
  destruct stones2 as [|p0 rest]; [simpl in Hpos; lia|].
  destruct (proj1 (Hmem2 p0)) as (d & Hd & a & b & _ & [Hab Hrun] & H5 & _); [left|].
  assert (∀ j, a ≤ j ≤ b → j ≠ 0 →
            (cellAt r c d j ∉ stones) ∧
            get newBoard (cellAt r c d j).1 (cellAt r c d j).2 = Some mover) as Hold.
  { intros j Hj Hj0. specialize (Hrun j Hj). unfold B in Hrun.
    rewrite get_place_ne, Hget in Hrun.
    - destruct (cellAt r c d j) as [r' c'] eqn:Hcell. simpl in *.
      case_bool_decide; [congruence|done].
    - rewrite <- surjective_pairing, <- (cellAt_0 r c d).
      intros Heq. by apply cellAt_inj in Heq. }
  set (k := if decide (a < 0) then a else b).
  assert (a ≤ k ≤ b ∧ k ≠ 0) as [Hk Hk0] by (unfold k; destruct (decide (a < 0)); lia).
  destruct (Hold k Hk Hk0) as [Hnot _]. apply Hnot, Hmem.
  exists d. split; [done|]. exists a, b, k. split; [|done]. split; [done|].
  intros j Hj. destruct (decide (j = 0)) as [-> | Hj0].
  - by rewrite cellAt_0.
  - by apply Hold.
Qed.

Lemma removal_idempotent_witness :
  wfBoard row7 ∧ get row7 7 4 = Some PLAYER_BLACK ∧ PLAYER_BLACK ≠ EMPTY ∧
  checkLongLines
    (board (Index.processTurn Index.initialState row7 7 4 PLAYER_BLACK PLAYER_BLACK
              (mkScores 0 0) 8)) 7 4 PLAYER_BLACK = None.
Proof.
  assert (PLAYER_BLACK ≠ EMPTY) as Hne by discriminate.
  split; [exact wfBoard_row7|]. split; [reflexivity|]. split; [exact Hne|].
  exact (proj2 (proj2 (removal_idempotent Index.isP1 Index.initialState row7 7 4
                         PLAYER_BLACK PLAYER_BLACK (mkScores 0 0) 8
                         wfBoard_row7 eq_refl Hne))).
Defined.

(** ** Counting stones *)

Lemma countIn_app (color : CellValue) (l1 l2 : list CellValue) :
  countIn color (l1 ++ l2) = countIn color l1 + countIn color l2.
Proof. unfold countIn. rewrite filter_app, length_app. lia. Qed.

Lemma countIn_cons (color x : CellValue) (l : list CellValue) :
  countIn color (x :: l) = (if bool_decide (x = color) then 1 else 0) + countIn color l.
Proof.
  unfold countIn. rewrite filter_cons.
  destruct (decide (x = color)) as [Heq|Hne].
  - rewrite bool_decide_true by done. simpl length. lia.
  - rewrite bool_decide_false by done. lia.
Qed.

Lemma countIn_nonneg (color : CellValue) (l : list CellValue) : 0 ≤ countIn color l.
Proof. unfold countIn. lia. Qed.

Lemma countColor_countIn (board : BoardState) (color : CellValue) :
  countColor board color = countIn color (concat board).
Proof. reflexivity. Qed.

Lemma countIn_insert (color old v : CellValue) (row : list CellValue) (j : nat) :
  row !! j = Some old →
  countIn color (<[j:=v]> row) =
  countIn color row - (if bool_decide (old = color) then 1 else 0)
                    + (if bool_decide (v = color) then 1 else 0).
Proof.
  intros Hj. rewrite insert_take_drop by (by eapply lookup_lt_Some).
  pose proof (take_drop_middle row j old Hj) as Hrow.
  remember (take j row) as l1. remember (drop (S j) row) as l2.
  rewrite <- Hrow, !countIn_app, !countIn_cons. lia.
Qed.

(** Writing one cell changes the count of a color by what leaves and what
    arrives. *)
Lemma countColor_place (board : BoardState) (r c : Z) (old v color : CellValue) :
  get board r c = Some old →
  countColor (place board r c v) color =
  countColor board color - (if bool_decide (old = color) then 1 else 0)
                         + (if bool_decide (v = color) then 1 else 0).
Proof.
  unfold get, rawRead. intros Hget.
  destruct (jsIndex board r) as [row|] eqn:Hrow; [|done].
  destruct (jsIndex row c) as [x|] eqn:Hcell; [|done]. injection Hget as ->.
  apply jsIndex_Some in Hrow as [Hr Hrow]. apply jsIndex_Some in Hcell as [Hc Hcell].
  unfold place. rewrite !bool_decide_true by done. simpl.
  rewrite !countColor_countIn.
  pose proof (take_drop_middle board (Z.to_nat r) row Hrow) as Hsplit.
  assert (length (take (Z.to_nat r) board) = Z.to_nat r) as Hlen
    by (rewrite length_take; apply lookup_lt_Some in Hrow; lia).
  remember (take (Z.to_nat r) board) as b1. remember (drop (S (Z.to_nat r)) board) as b2.
  rewrite <- Hsplit.
  rewrite alter_app_r_alt by lia.
  replace (Z.to_nat r - length b1)%nat with 0%nat by lia.
  simpl. rewrite !concat_app, !concat_cons, !countIn_app.
  rewrite (countIn_insert color old v row _ Hcell). lia.
Qed.

Lemma countColor_clearCells (board : BoardState) (cells : list Coord)
    (color color' : CellValue) :
  wfBoard board → NoDup cells → color ≠ EMPTY → color' ≠ EMPTY →
  (∀ q, q ∈ cells → get board q.1 q.2 = Some color) →
  countColor (clearCells board cells) color' =
  countColor board color' -
  (if bool_decide (color = color') then Z.of_nat (length cells) else 0).
Proof.
  intros Hwf Hnd Hcolor Hcolor'. revert board Hwf Hnd.
  induction cells as [|q cells IH]; intros board Hwf Hnd Hhold.
  - simpl. case_bool_decide; lia.
  - change (clearCells board (q :: cells))
      with (clearCells (place board q.1 q.2 EMPTY) cells).
    apply NoDup_cons in Hnd as [Hq Hnd].
    rewrite IH; [|by apply wfBoard_place|done|].
    + rewrite (countColor_place board q.1 q.2 color EMPTY color')
        by (apply Hhold; left).
      rewrite (bool_decide_false (EMPTY = color')) by done.
      simpl length. case_bool_decide; lia.
    + intros q' Hq'. rewrite get_place_ne; [apply Hhold; by right|].
      rewrite <- !surjective_pairing. intros ->. done.
Qed.

(** X6.  Points are removed stones.  In one call of [processTurn] no score
    goes down, the two scores together grow by exactly the number of stones
    that leave the board, and only stones of the mover's color leave. *)
Theorem points_are_removed_stones moverIsP1 (s : State) (newBoard : BoardState)
    (r c : Z) (mover hc : CellValue) (base : Scores) (turn : Z) :
  wfBoard newBoard → get newBoard r c = Some mover →
  mover = PLAYER_BLACK ∨ mover = PLAYER_WHITE →
  let s' := processTurnWith moverIsP1 s newBoard r c mover hc base turn in
  p1 base ≤ p1 (scores s') ∧ p2 base ≤ p2 (scores s') ∧
  (p1 (scores s') + p2 (scores s')) - (p1 base + p2 base) =
  countColor newBoard mover - countColor (board s') mover ∧
  countColor (board s') (otherColor mover) = countColor newBoard (otherColor mover).
Proof.
  intros Hwf Horigin Hmover. cbn zeta.
  rewrite processTurnWith_board, processTurnWith_scores. unfold cleared, awarded.
  destruct (checkLongLines newBoard r c mover) as [stones|] eqn:Hexp;
    [|repeat split; lia].
  destruct (checkLongLines_char newBoard r c mover Hwf Horigin) as [_ Hsome].
  destruct (Hsome stones Hexp) as [Hnd Hmem].
  assert (∀ q, q ∈ stones → get newBoard q.1 q.2 = Some mover) as Hhold.
  { intros q (d & _ & Hon)%Hmem. by eapply onLongRun_holds. }
  assert (mover ≠ EMPTY ∧ otherColor mover ≠ EMPTY ∧ mover ≠ otherColor mover)
    as (Hm & Ho & Hmo) by (destruct Hmover as [-> | ->]; done).
  rewrite (countColor_clearCells newBoard stones mover mover Hwf Hnd Hm Hm Hhold).
  rewrite (countColor_clearCells newBoard stones mover (otherColor mover)
             Hwf Hnd Hm Ho Hhold).
  rewrite bool_decide_true by done. rewrite bool_decide_false by done.
  destruct (moverIsP1 mover hc turn); simpl; repeat split; lia.
Qed.

Lemma points_are_removed_stones_witness :
  wfBoard row7 ∧ get row7 7 4 = Some PLAYER_BLACK ∧
  (PLAYER_BLACK = PLAYER_BLACK ∨ PLAYER_BLACK = PLAYER_WHITE) ∧
  p1 (mkScores 0 0) ≤
  p1 (scores (processTurnWith Index.isP1 Index.initialState row7 7 4 PLAYER_BLACK
                PLAYER_BLACK (mkScores 0 0) 8)).
Proof.
  assert (PLAYER_BLACK = PLAYER_BLACK ∨ PLAYER_BLACK = PLAYER_WHITE) as Hm by (by left).
  split; [exact wfBoard_row7|]. split; [reflexivity|]. split; [exact Hm|].
  exact (proj1 (points_are_removed_stones Index.isP1 Index.initialState row7 7 4
                  PLAYER_BLACK PLAYER_BLACK (mkScores 0 0) 8
                  wfBoard_row7 eq_refl Hm)).
Defined.

(** ** Clicks *)

(** X7.  The legality display and the click handler agree, in both files:
    where [canMove] is false a click changes nothing and sends nothing;
    where it is true the click plays [currentPlayer] on the cell through
    [processTurn], and a MOVE message goes out exactly in an online session
    that holds a connection.  ([src/unnamed/part_000] has no online mode.) *)
Theorem click_iff_canMove (s : State) (r c : Z) :
  (IndexView.canMove s r c = false → Index.handleCellClick s r c = (s, [])) ∧
  (IndexView.canMove s r c = true →
   let newBoard := place (board s) r c (currentPlayer s) in
   Index.handleCellClick s r c =
   (Index.processTurn (setLastMove (Some (r, c)) (setBoard newBoard s))
      newBoard r c (currentPlayer s) (humanColor s) (scores s) (turnCount s),
    if bool_decide (gameMode s = ONLINE) && conn s then [MOVE r c] else [])) ∧
  (gameMode s ≠ ONLINE → Part000View.canMove s r c = false →
   Part000.handleCellClick s r c = s) ∧
  (gameMode s ≠ ONLINE → Part000View.canMove s r c = true →
   let newBoard := place (board s) r c (currentPlayer s) in
   Part000.handleCellClick s r c =
   Part000.processTurn (setLastMove (Some (r, c)) (setBoard newBoard s))
     newBoard r c (currentPlayer s) (humanColor s) (scores s) (turnCount s)).
Proof.
  assert (∀ b : BoardState, cellIs b r c EMPTY = true ↔ rawRead b r c = JsCell EMPTY)
    as Hcell.
  { intros b. unfold cellIs. rewrite bool_decide_eq_true. symmetry.
    apply rawRead_get_empty. }
  unfold IndexView.canMove, Part000View.canMove, Index.handleCellClick,
    Part000.handleCellClick. cbn zeta.
  destruct (cellIs (board s) r c EMPTY) eqn:Hc.
  - apply Hcell in Hc. rewrite Hc.
    destruct (isGameOver s), (isAiThinking s), (gameMode s); simpl;
      repeat case_bool_decide; simpl; repeat split; try done; intros; congruence.
  - assert (rawRead (board s) r c ≠ JsCell EMPTY) as Hne.
    { intros H%Hcell. congruence. }
    destruct (rawRead (board s) r c) as [[| |]| |]; try done;
      destruct (isGameOver s), (isAiThinking s), (gameMode s); simpl;
      repeat case_bool_decide; simpl; repeat split; try done.
Qed.

Lemma click_iff_canMove_witness :
  IndexView.canMove scenarioA 0 0 = false ∧
  Index.handleCellClick scenarioA 0 0 = (scenarioA, []) ∧
  IndexView.canMove Index.initialState 7 7 = true ∧
  turnCount (Index.handleCellClick Index.initialState 7 7).1 = 1.
Proof.
  assert (IndexView.canMove scenarioA 0 0 = false) as H1 by reflexivity.
  assert (IndexView.canMove Index.initialState 7 7 = true) as H2 by reflexivity.
  split; [exact H1|]. split; [exact (proj1 (click_iff_canMove scenarioA 0 0) H1)|].
  split; [exact H2|].
  rewrite (proj1 (proj2 (click_iff_canMove Index.initialState 7 7)) H2). reflexivity.
Defined.

(** ** The two versions of [processTurn] *)

Lemma processTurnWith_rule_ext rule1 rule2 s newBoard r c mover hc base turn :
  rule1 mover hc turn = rule2 mover hc turn →
  processTurnWith rule1 s newBoard r c mover hc base turn =
  processTurnWith rule2 s newBoard r c mover hc base turn.
Proof. intros Heq. unfold processTurnWith. by rewrite Heq. Qed.

(** X8.  The two files attribute points by different tests.  They give the
    same state whenever [currentHumanColor] is the color that the turn
    counter gives to player 1; when it is the other color and a line
    explodes, they credit opposite players. *)
Theorem processTurn_versions (s : State) (newBoard : BoardState) (r c : Z)
    (mover hc : CellValue) (base : Scores) (turn : Z) :
  (hc = seatColorAt turn Seat1 →
   Index.processTurn s newBoard r c mover hc base turn =
   Part000.processTurn s newBoard r c mover hc base turn) ∧
  (hc = seatColorAt turn Seat2 →
   mover = PLAYER_BLACK ∨ mover = PLAYER_WHITE →
   ∀ stones, checkLongLines newBoard r c mover = Some stones →
     let n := Z.of_nat (length stones) in
     scores (Index.processTurn s newBoard r c mover hc base turn) =
     (if bool_decide (mover = hc) then mkScores (p1 base + n) (p2 base)
      else mkScores (p1 base) (p2 base + n)) ∧
     scores (Part000.processTurn s newBoard r c mover hc base turn) =
     (if bool_decide (mover = hc) then mkScores (p1 base) (p2 base + n)
      else mkScores (p1 base + n) (p2 base))).
Proof.
  split.
  - intros Hhc. apply processTurnWith_rule_ext.
    rewrite isP1_seat. unfold Part000.isP1Move. by rewrite Hhc.
  - intros Hhc Hmover stones Hexp. cbn zeta.
    unfold Index.processTurn, Part000.processTurn.
    rewrite !processTurnWith_scores. unfold awarded. rewrite Hexp.
    rewrite isP1_seat. unfold Part000.isP1Move. rewrite Hhc.
    unfold seatColorAt. destruct Hmover as [-> | ->];
      case_bool_decide; simpl; repeat case_bool_decide; simpl; done.
Qed.

Lemma processTurn_versions_witness :
  PLAYER_BLACK = seatColorAt 8 Seat1 ∧
  Index.processTurn Index.initialState row7 7 4 PLAYER_BLACK PLAYER_BLACK
    (mkScores 0 0) 8 =
  Part000.processTurn Index.initialState row7 7 4 PLAYER_BLACK PLAYER_BLACK
    (mkScores 0 0) 8.
Proof.
  split; [reflexivity|].
  exact (proj1 (processTurn_versions Index.initialState row7 7 4 PLAYER_BLACK
                  PLAYER_BLACK (mkScores 0 0) 8) eq_refl).
Defined.

(** ** The verdict of a full board *)

(** X9.  [getGameResult] treats the two players alike: exchanging the two
    scores and passing the other color exchanges the two players in the
    verdict. *)
Theorem getGameResult_mirror (sc : Scores) (board : BoardState) (hc : CellValue) :
  hc = PLAYER_BLACK ∨ hc = PLAYER_WHITE →
  getGameResult (mkScores (p2 sc) (p1 sc)) board (otherColor hc) =
  mirrorResult (getGameResult sc board hc).
Proof.
  intros Hhc. unfold getGameResult, mirrorResult.
  destruct (countStones board) as [black white]. destruct sc as [s1 s2].
  destruct Hhc as [-> | ->]; simpl;
    repeat case_bool_decide; simpl; try done; exfalso; lia.
Qed.

Lemma getGameResult_mirror_witness :
  (PLAYER_WHITE = PLAYER_BLACK ∨ PLAYER_WHITE = PLAYER_WHITE) ∧
  getGameResult (mkScores 0 0) (board hostEnd) PLAYER_BLACK =
  mirrorResult (getGameResult (mkScores 0 0) (board hostEnd) PLAYER_WHITE).
Proof.
  assert (PLAYER_WHITE = PLAYER_BLACK ∨ PLAYER_WHITE = PLAYER_WHITE) as H by (by right).
  split; [exact H|].
  exact (getGameResult_mirror (mkScores 0 0) (board hostEnd) PLAYER_WHITE H).
Defined.

(** ** The countdown to the swap *)

(** X10.  [movesUntilNextSwap] is between 1 and 30 and counts the moves to
    the next swap: a turn played at counter [turn] that does not end the
    game swaps [humanColor] exactly when the countdown stands at 1, and
    otherwise lowers the countdown by one. *)
Theorem movesUntilNextSwap_counts moverIsP1 (s : State) (newBoard : BoardState)
    (r c : Z) (mover : CellValue) (base : Scores) :
  0 ≤ turnCount s →
  humanColor s = PLAYER_BLACK ∨ humanColor s = PLAYER_WHITE →
  let s' := processTurnWith moverIsP1 s newBoard r c mover (humanColor s) base
              (turnCount s) in
  1 ≤ IndexView.movesUntilNextSwap (turnCount s) ≤ 30 ∧
  (isGameOver s' = false →
   turnCount s' = turnCount s + 1 ∧
   (humanColor s' ≠ humanColor s ↔ IndexView.movesUntilNextSwap (turnCount s) = 1) ∧
   (IndexView.movesUntilNextSwap (turnCount s) ≠ 1 →
    IndexView.movesUntilNextSwap (turnCount s') =
    IndexView.movesUntilNextSwap (turnCount s) - 1) ∧
   (IndexView.movesUntilNextSwap (turnCount s) = 1 →
    IndexView.movesUntilNextSwap (turnCount s') = 30)).
Proof.
  intros Hturn Hhc. cbn zeta.
  pose proof (processTurnWith_step moverIsP1 s newBoard r c mover (humanColor s)
                base (turnCount s)) as Hstep.
  cbn zeta in Hstep. unfold IndexView.movesUntilNextSwap.
  rewrite Z.rem_mod_nonneg by lia.
  split; [Z.to_euclidean_division_equations; lia|].
  intros Hover. destruct Hstep as [(Hover' & _)|(_ & Htc & Hcolor)]; [congruence|].
  rewrite Htc, Hcolor. rewrite !Z.rem_mod_nonneg by lia.
  rewrite (bool_decide_true (0 < turnCount s + 1)) by lia. simpl.
  split; [done|].
  assert (otherColor (humanColor s) ≠ humanColor s) as Hflip
    by (destruct Hhc as [-> | ->]; done).
  destruct (decide ((turnCount s + 1) `mod` 30 = 0)) as [Hmul|Hmul];
    [rewrite (bool_decide_true _ Hmul)|rewrite (bool_decide_false _ Hmul)].
  - split; [split; [intros _|intros _; exact Hflip]|split; intros ?];
      Z.to_euclidean_division_equations; lia.
  - split; [split; [intros Hne; by destruct Hne|intros ?]|split; intros ?];
      Z.to_euclidean_division_equations; lia.
Qed.

Lemma movesUntilNextSwap_counts_witness :
  0 ≤ turnCount after29 ∧
  (humanColor after29 = PLAYER_BLACK ∨ humanColor after29 = PLAYER_WHITE) ∧
  1 ≤ IndexView.movesUntilNextSwap (turnCount after29) ≤ 30.
Proof.
  assert (0 ≤ turnCount after29) as H0 by (vm_compute; intros H; discriminate H).
  assert (humanColor after29 = PLAYER_BLACK ∨ humanColor after29 = PLAYER_WHITE) as H1
    by (left; reflexivity).
  split; [exact H0|]. split; [exact H1|].
  exact (proj1 (movesUntilNextSwap_counts Index.isP1 after29 emptyBoard 0 0
                  PLAYER_BLACK (mkScores 0 0) H0 H1)).
Defined.

(** ** The candidate generator *)

Lemma foldl_preserves {X} (P : list Coord → Prop) (f : list Coord → X → list Coord) :
  (∀ acc x, P acc → P (f acc x)) → ∀ xs acc, P acc → P (foldl f acc xs).
Proof.
  intros Hf xs. induction xs as [|x xs IH]; intros acc Hacc; [done|].
  simpl. apply IH, Hf, Hacc.
Qed.

Lemma addNeighbor_NoDup board r c dr moves dc :
  NoDup moves → NoDup (addNeighbor board r c dr moves dc).
Proof.
  intros Hnd. unfold addNeighbor. cbn zeta.
  repeat case_match; try done.
  apply NoDup_app. split; [done|]. split; [|apply NoDup_singleton].
  intros p Hp ->%list_elem_of_singleton.
  by match goal with H : bool_decide _ = false |- _ =>
       apply bool_decide_eq_false in H end.
Qed.

Lemma nearStone_candidate (board : BoardState) (distance : Z) (p : Coord) :
  nearStone board distance p ↔ candidate board distance p.
Proof.
  unfold nearStone, candidate, offsets, BOARD_SIZE, cellIs. split.
  - intros (r & c & dr & dc & Hr%elem_of_seqZ & Hc%elem_of_seqZ & Hstone
            & Hdr%elem_of_seqZ & Hdc%elem_of_seqZ & -> & Hp1%inb_spec & Hp2%inb_spec
            & Hempty).
    apply bool_decide_eq_false in Hstone. apply bool_decide_eq_true in Hempty.
    cbn [fst snd] in *. split; [done|]. split; [done|]. split; [done|].
    exists r, c. repeat split; try done; lia.
  - intros (Hempty & Hp1 & Hp2 & r & c & Hr & Hc & Hstone & Hdr & Hdc).
    exists r, c, (p.1 - r), (p.2 - c).
    rewrite !elem_of_seqZ, !inb_spec, bool_decide_eq_false, bool_decide_eq_true.
    repeat split; try done; try lia.
    destruct p as [p1 p2]. cbn [fst snd]. f_equal; lia.
Qed.

(** X11.  [getEmptyNeighbors] never returns an empty list and never lists a
    cell twice; all its cells are on the board.  When some empty cell has a
    stone within [distance], the list holds exactly these cells; otherwise
    (no stone on the board, or no empty cell next to one) it is the single
    cell (7, 7), whatever that cell holds. *)
Theorem getEmptyNeighbors_spec (board : BoardState) (distance : Z) :
  let moves := getEmptyNeighbors board distance in
  NoDup moves ∧ moves ≠ [] ∧
  (∀ p, p ∈ moves → 0 ≤ p.1 < 15 ∧ 0 ≤ p.2 < 15) ∧
  ((∃ p, candidate board distance p) →
   ∀ p, p ∈ moves ↔ candidate board distance p) ∧
  ((∀ p, ¬ candidate board distance p) → moves = [(7, 7)]).
Proof.
  cbn zeta. split; [|split; [|split; [|split]]].
  - unfold getEmptyNeighbors. cbn zeta. case_bool_decide; [apply NoDup_singleton|].
    apply (foldl_preserves NoDup); [|apply NoDup_nil_2].
    intros acc r Hacc. apply (foldl_preserves NoDup); [|done].
    clear acc Hacc. intros acc c Hacc. unfold addNeighborsOf.
    case_match; [|done].
    apply (foldl_preserves NoDup); [|done].
    clear acc Hacc. intros acc dr Hacc. apply (foldl_preserves NoDup); [|done].
    intros acc' dc. apply addNeighbor_NoDup.
  - apply getEmptyNeighbors_nonempty.
  - apply getEmptyNeighbors_inb.
  - intros [p0 Hp0] p.
    destruct (getEmptyNeighbors_raw board distance) as (raw & Hraw & ->).
    rewrite <- nearStone_candidate in Hp0. apply Hraw in Hp0.
    rewrite bool_decide_false by (by destruct raw; [inversion Hp0|]).
    by rewrite Hraw, nearStone_candidate.
  - intros Hnone.
    destruct (getEmptyNeighbors_raw board distance) as (raw & Hraw & ->).
    destruct raw as [|p raw]; [reflexivity|].
    destruct (Hnone p). apply nearStone_candidate, Hraw. left.
Qed.

(** ** A full board *)

Lemma countIn_total (l : list CellValue) :
  countIn PLAYER_BLACK l + countIn PLAYER_WHITE l + countIn EMPTY l = Z.of_nat (length l).
Proof.
  induction l as [|x l IH]; [reflexivity|].
  rewrite !countIn_cons. simpl length. destruct x; simpl; lia.
Qed.

Lemma countIn_zero (color : CellValue) (l : list CellValue) :
  countIn color l = 0 ↔ color ∉ l.
Proof.
  induction l as [|x l IH].
  - split; [intros _; apply not_elem_of_nil|reflexivity].
  - rewrite countIn_cons, not_elem_of_cons. pose proof (countIn_nonneg color l).
    case_bool_decide; split; try (intros [? ?]); try intros ?; try split;
      try congruence; try lia; try (apply IH; lia); try (apply IH; tauto).
Qed.

Lemma wfBoard_cells (board : BoardState) :
  wfBoard board → length (concat board) = 225%nat.
Proof.
  intros [Hlen Hrows].
  assert (length (concat board) = (15 * length board)%nat) as ->; [|rewrite Hlen; reflexivity].
  clear Hlen. induction Hrows as [|row rows Hrow _ IH]; [reflexivity|].
  rewrite concat_cons, length_app, IH, Hrow. simpl length. unfold BOARD_SIZE. lia.
Qed.

Lemma elem_of_board (board : BoardState) (v : CellValue) :
  v ∈ concat board ↔ ∃ r c, get board r c = Some v.
Proof.
  rewrite list_elem_of_In, in_concat. split.
  - intros (row & [i Hi]%list_elem_of_In%list_elem_of_lookup
            & [j Hj]%list_elem_of_In%list_elem_of_lookup).
    exists (Z.of_nat i), (Z.of_nat j). unfold get, rawRead.
    rewrite (proj2 (jsIndex_Some board (Z.of_nat i) row))
      by (split; [lia|by rewrite Nat2Z.id]).
    by rewrite (proj2 (jsIndex_Some row (Z.of_nat j) v))
      by (split; [lia|by rewrite Nat2Z.id]).
  - intros (r & c & Hget). unfold get, rawRead in Hget.
    destruct (jsIndex board r) as [row|] eqn:Hrow; [|done].
    destruct (jsIndex row c) as [x|] eqn:Hcell; [|done]. injection Hget as ->.
    apply jsIndex_Some in Hrow as [_ Hrow]. apply jsIndex_Some in Hcell as [_ Hcell].
    exists row. split; apply list_elem_of_In; by eapply list_elem_of_lookup_2.
Qed.

Lemma isBoardFull_stones (board : BoardState) :
  wfBoard board → isBoardFull board = true ↔ stonesOnBoard board = 225.
Proof.
  intros Hwf. unfold stonesOnBoard. rewrite !countColor_countIn.
  pose proof (countIn_total (concat board)) as Htotal.
  rewrite (wfBoard_cells board Hwf) in Htotal.
  rewrite isBoardFull_spec. split.
  - intros Hfull.
    assert (countIn EMPTY (concat board) = 0) as Hzero; [|lia].
    apply countIn_zero. intros (r & c & Hget)%elem_of_board.
    destruct (get_inb board r c EMPTY Hwf Hget) as [Hr Hc].
    specialize (Hfull r c Hr Hc). unfold cellIs in Hfull.
    by apply bool_decide_eq_false in Hfull.
  - intros Hsum r c Hr Hc. unfold cellIs. apply bool_decide_eq_false. intros Hget.
    assert (countIn EMPTY (concat board) = 0) as Hzero by lia.
    apply countIn_zero in Hzero. apply Hzero, elem_of_board. eauto.
Qed.

(** X12.  On a 15x15 board, [isBoardFull] holds exactly when the stones
    counted by [countStones] are 225; as long as it does not hold there are
    fewer. *)
Theorem isBoardFull_counts (board : BoardState) :
  wfBoard board →
  let '(black, white) := countStones board in
  0 ≤ black ∧ 0 ≤ white ∧ black + white ≤ 225 ∧
  (isBoardFull board = true ↔ black + white = 225).
Proof.
  intros Hwf. rewrite countStones_spec.
  pose proof (isBoardFull_stones board Hwf) as Hfull. unfold stonesOnBoard in Hfull.
  pose proof (countIn_total (concat board)) as Htotal.
  rewrite (wfBoard_cells board Hwf) in Htotal.
  pose proof (countIn_nonneg EMPTY (concat board)).
  rewrite !countColor_countIn in *.
  pose proof (countIn_nonneg PLAYER_BLACK (concat board)).
  pose proof (countIn_nonneg PLAYER_WHITE (concat board)).
  split; [done|]. split; [done|]. split; [lia|done].
Qed.

Lemma isBoardFull_counts_witness :
  wfBoard fullBoard ∧
  let '(black, white) := countStones fullBoard in
  0 ≤ black ∧ 0 ≤ white ∧ black + white ≤ 225 ∧
  (isBoardFull fullBoard = true ↔ black + white = 225).
Proof.
  split; [exact wfBoard_fullBoard|].
  exact (isBoardFull_counts fullBoard wfBoard_fullBoard).
Defined.

Lemma getGameResult_decided (sc : Scores) (board : BoardState) (hc : CellValue) :
  wfBoard board → isBoardFull board = true →
  hc = PLAYER_BLACK ∨ hc = PLAYER_WHITE →
  winner (getGameResult sc board hc) ≠ Hoa.
Proof.
  intros Hwf Hfull%isBoardFull_stones Hhc; [|done]. unfold stonesOnBoard in Hfull.
  unfold getGameResult. rewrite countStones_spec. cbn zeta.
  destruct Hhc as [-> | ->]; simpl; repeat case_bool_decide; simpl; try done; lia.
Qed.

(** X13.  A full board never gives a tie: 225 is odd, so the two players
    cannot hold the same number of stones, and with equal scores
    [getGameResult] names the player with fewer stones; the branch that
    answers [Hoa] is not taken. *)
Theorem full_board_never_tie (sc : Scores) (board : BoardState) (hc : CellValue) :
  wfBoard board → isBoardFull board = true →
  hc = PLAYER_BLACK ∨ hc = PLAYER_WHITE →
  countColor board hc ≠ countColor board (otherColor hc) ∧
  winner (getGameResult sc board hc) ≠ Hoa ∧
  reason (getGameResult sc board hc) ≠ EqualAll.
Proof.
  intros Hwf Hfull Hhc.
  pose proof (proj1 (isBoardFull_stones board Hwf) Hfull) as Hsum.
  unfold stonesOnBoard in Hsum.
  unfold getGameResult. rewrite countStones_spec. cbn zeta.
  destruct Hhc as [-> | ->];
    [change (otherColor PLAYER_BLACK) with PLAYER_WHITE
    |change (otherColor PLAYER_WHITE) with PLAYER_BLACK];
    generalize dependent (countColor board PLAYER_BLACK);
    generalize dependent (countColor board PLAYER_WHITE);
    intros white black Hsum;
    (split; [intros ?; lia|]);
    repeat case_bool_decide; simpl; (split; [done || lia|done || lia]).
Qed.

Lemma full_board_never_tie_witness :
  wfBoard fullBoard ∧ isBoardFull fullBoard = true ∧
  winner (getGameResult (mkScores 0 0) fullBoard PLAYER_WHITE) ≠ Hoa.
Proof.
  split; [exact wfBoard_fullBoard|]. split; [reflexivity|].
  exact (proj1 (proj2 (full_board_never_tie (mkScores 0 0) fullBoard PLAYER_WHITE
                         wfBoard_fullBoard eq_refl (or_intror eq_refl)))).
Defined.

(** ** Invariants of a running game *)

(** What one call of [processTurn] stores, field by field. *)
Lemma processTurnWith_fields moverIsP1 s newBoard r c mover hc base turn :
  let s' := processTurnWith moverIsP1 s newBoard r c mover hc base turn in
  let sc := awarded moverIsP1 newBoard r c mover hc base turn in
  let b := cleared newBoard r c mover in
  let swap := bool_decide (0 < turn + 1) && bool_decide (Z.rem (turn + 1) 30 = 0) in
  board s' = b ∧ scores s' = sc ∧
  ((isGameOver s' = true ∧ turnCount s' = turnCount s ∧
    currentPlayer s' = currentPlayer s ∧ humanColor s' = humanColor s ∧
    pendingAi s' = pendingAi s ∧ isAiThinking s' = isAiThinking s ∧
    (finalResult s' = Some (mkResult P1Name DominantWin) ∨
     finalResult s' = Some (mkResult P2Name DominantWin) ∨
     (isBoardFull b = true ∧ finalResult s' = Some (getGameResult sc b hc)))) ∨
   (isBoardFull b = false ∧ isGameOver s' = isGameOver s ∧
    finalResult s' = finalResult s ∧ turnCount s' = turn + 1 ∧
    currentPlayer s' = otherColor mover ∧
    humanColor s' = (if swap then otherColor hc else humanColor s) ∧
    ((gameMode s = PVE ∧ isAiThinking s' = true ∧
      otherColor mover ≠ (if swap then otherColor hc else hc) ∧
      pendingAi s' =
      Some (mkAiCall b (otherColor mover) (if swap then otherColor hc else hc)
                     (p2 sc) (p1 sc) (turn + 1))) ∨
     (isAiThinking s' = false ∧ pendingAi s' = pendingAi s)))).
Proof.
  cbn zeta. split; [apply processTurnWith_board|].
  split; [apply processTurnWith_scores|].
  pt_unfold. pt_explosion;
    repeat (case_match; simpl; try done);
    repeat match goal with
           | H : _ && _ = true |- _ => apply andb_true_iff in H as [? ?]
           | H : bool_decide _ = true |- _ => apply bool_decide_eq_true in H
           | H : negb _ = true |- _ => apply negb_true_iff in H
           end.
  all: try (left; repeat split; done).
  all: try (left; repeat split; auto; fail).
  all: try (right; repeat split; try done; left; repeat split; done).
  all: try (right; repeat split; try done; right; repeat split; done).
Qed.

Lemma colorOfTurn_cases (turn : Z) :
  colorOfTurn turn = PLAYER_BLACK ∨ colorOfTurn turn = PLAYER_WHITE.
Proof. unfold colorOfTurn. destruct (Z.even turn); auto. Qed.

Lemma colorOfTurn_succ (turn : Z) :
  colorOfTurn (turn + 1) = otherColor (colorOfTurn turn).
Proof.
  unfold colorOfTurn. rewrite Z.even_add. destruct (Z.even turn); reflexivity.
Qed.

Lemma wfBoard_cleared (newBoard : BoardState) (r c : Z) (mover : CellValue) :
  wfBoard newBoard → wfBoard (cleared newBoard r c mover).
Proof.
  intros Hwf. unfold cleared. case_match; [apply wfBoard_clearCells|]; exact Hwf.
Qed.

(** Stones and points together are unchanged by the scoring part of
    [processTurn], and no score decreases. *)
Lemma processTurnWith_stones moverIsP1 (newBoard : BoardState) (r c : Z)
    (mover hc : CellValue) (base : Scores) (turn : Z) :
  wfBoard newBoard → get newBoard r c = Some mover →
  mover = PLAYER_BLACK ∨ mover = PLAYER_WHITE →
  let sc := awarded moverIsP1 newBoard r c mover hc base turn in
  p1 base ≤ p1 sc ∧ p2 base ≤ p2 sc ∧
  stonesOnBoard (cleared newBoard r c mover) + p1 sc + p2 sc =
  stonesOnBoard newBoard + p1 base + p2 base.
Proof.
  intros Hwf Horigin Hmover. cbn zeta. unfold cleared, awarded, stonesOnBoard.
  destruct (checkLongLines newBoard r c mover) as [stones|] eqn:Hexp;
    [|repeat split; lia].
  destruct (checkLongLines_char newBoard r c mover Hwf Horigin) as [_ Hsome].
  destruct (Hsome stones Hexp) as [Hnd Hmem].
  assert (∀ q, q ∈ stones → get newBoard q.1 q.2 = Some mover) as Hhold.
  { intros q (d & _ & Hon)%Hmem. by eapply onLongRun_holds. }
  assert (mover ≠ EMPTY) as Hm by (destruct Hmover as [-> | ->]; done).
  rewrite (countColor_clearCells newBoard stones mover PLAYER_BLACK Hwf Hnd Hm) by done.
  rewrite (countColor_clearCells newBoard stones mover PLAYER_WHITE Hwf Hnd Hm) by done.
  destruct Hmover as [-> | ->]; repeat case_bool_decide; try done;
    destruct (moverIsP1 _ hc turn); simpl; repeat split; lia.
Qed.

Lemma stonesOnBoard_place (board : BoardState) (r c : Z) (mover : CellValue) :
  get board r c = Some EMPTY →
  mover = PLAYER_BLACK ∨ mover = PLAYER_WHITE →
  stonesOnBoard (place board r c mover) = stonesOnBoard board + 1.
Proof.
  intros Hget Hmover. unfold stonesOnBoard.
  rewrite (countColor_place board r c EMPTY mover PLAYER_BLACK Hget).
  rewrite (countColor_place board r c EMPTY mover PLAYER_WHITE Hget).
  destruct Hmover as [-> | ->]; repeat case_bool_decide; try done; lia.
Qed.

Lemma gameInv_processTurn moverIsP1 (s : State) (r c : Z) (last : option Coord) :
  gameInv s → pendingAi s = None →
  (gameMode s = PVE → isGameOver s = false) →
  get (board s) r c = Some EMPTY →
  let newBoard := place (board s) r c (currentPlayer s) in
  gameInv (processTurnWith moverIsP1 (setLastMove last (setBoard newBoard s))
             newBoard r c (currentPlayer s) (humanColor s) (scores s) (turnCount s)).
Proof.
  intros (Hwf & Hturn & Hp1 & Hp2 & Hhc & Hcur & Hcount & Hres & Hsnap) Hpend Hover Hget.
  cbn zeta.
  set (newBoard := place (board s) r c (currentPlayer s)).
  set (s0 := setLastMove last (setBoard newBoard s)).
  pose proof (colorOfTurn_cases (turnCount s)) as Hmover. rewrite <- Hcur in Hmover.
  destruct (get_inb _ _ _ _ Hwf Hget) as [Hr Hc].
  destruct (place_get_aux (board s) r c r c (currentPlayer s) Hwf Hr Hc) as [Hwf' Hplaced].
  rewrite bool_decide_true in Hplaced by done. fold newBoard in Hwf', Hplaced.
  destruct (processTurnWith_stones moverIsP1 newBoard r c (currentPlayer s)
              (humanColor s) (scores s) (turnCount s) Hwf' Hplaced Hmover)
    as (Hup1 & Hup2 & Hsum).
  pose proof (stonesOnBoard_place (board s) r c (currentPlayer s) Hget Hmover) as Hone.
  fold newBoard in Hone.
  pose proof (wfBoard_cleared newBoard r c (currentPlayer s) Hwf') as Hwfc.
  destruct (processTurnWith_fields moverIsP1 s0 newBoard r c (currentPlayer s)
              (humanColor s) (scores s) (turnCount s)) as (Hb & Hsc & Hcases).
  set (s' := processTurnWith moverIsP1 s0 newBoard r c (currentPlayer s)
               (humanColor s) (scores s) (turnCount s)) in *.
  change (isGameOver s0) with (isGameOver s) in Hcases.
  change (turnCount s0) with (turnCount s) in Hcases.
  change (currentPlayer s0) with (currentPlayer s) in Hcases.
  change (humanColor s0) with (humanColor s) in Hcases.
  change (pendingAi s0) with (pendingAi s) in Hcases.
  change (finalResult s0) with (finalResult s) in Hcases.
  change (gameMode s0) with (gameMode s) in Hcases.
  unfold gameInv, snapshotInv. rewrite Hb, Hsc.
  destruct Hcases as [(Hov & Htc & Hcp & Hhum & Hpe & _ & Hfin)
                     |(Hfull & Hov & Hfin & Htc & Hcp & Hhum & Hsched)].
  - rewrite Hov, Htc, Hcp, Hhum, Hpe, Hpend.
    split; [done|]. split; [done|]. split; [lia|]. split; [lia|].
    split; [done|]. split; [done|]. split; [done|]. split; [|done].
    intros res Hres'. destruct Hfin as [Hfin | [Hfin | [Hfull Hfin]]];
      rewrite Hfin in Hres'; injection Hres' as <-; [done|done|].
    by apply getGameResult_decided.
  - rewrite Hov, Htc, Hcp, Hhum, Hfin.
    assert ((if bool_decide (0 < turnCount s + 1)
                && bool_decide ((turnCount s + 1) `rem` 30 = 0)
             then otherColor (humanColor s) else humanColor s) = PLAYER_BLACK ∨
            (if bool_decide (0 < turnCount s + 1)
                && bool_decide ((turnCount s + 1) `rem` 30 = 0)
             then otherColor (humanColor s) else humanColor s) = PLAYER_WHITE) as Hhc'.
    { destruct (_ && _); [|done]. destruct Hhc as [-> | ->]; auto. }
    split; [done|]. split; [lia|]. split; [lia|]. split; [lia|].
    split; [done|]. split; [by rewrite colorOfTurn_succ, Hcur|].
    split; [intros Hnot; specialize (Hcount Hnot); lia|]. split; [done|].
    intros call Hcall.
    destruct Hsched as [(Hmode & Hthink & Hne & Hpe) | (_ & Hpe)];
      [|rewrite Hpe, Hpend in Hcall; done].
    rewrite Hpe in Hcall. injection Hcall as <-. simpl.
    rewrite Hthink. repeat split; try done;
      first [by apply Hover | unfold s'; by rewrite processTurnWith_gameMode].
Qed.

Lemma getEasyMove_mem (board : BoardState) (ai : CellValue) (u : Q) (m : Coord) :
  getEasyMove board ai u = Some m → m ∈ getEmptyNeighbors board 1.
Proof.
  unfold getEasyMove. cbn zeta. case_bool_decide as Hlen.
  - apply nil_length_inv in Hlen. by apply getEmptyNeighbors_nonempty in Hlen.
  - intros [_ Hm]%jsIndex_Some. by eapply list_elem_of_lookup_2.
Qed.

(** On a 15x15 board that is not full, the dispatch of [makeAiMove] does not
    throw, and a move it returns is an empty cell. *)
Lemma selectMove_returns (value : string) (board : BoardState) (ai : CellValue)
    (rnd : nat → Q) :
  wfBoard board → isBoardFull board = false →
  ∃ res, Index.selectMove value board ai rnd = Returns res ∧
         (∀ m, res = Some m → get board m.1 m.2 = Some EMPTY) ∧
         (res = None → value = "EASY" ∧ ¬ ((0 <= rnd 0%nat)%Q ∧ (rnd 0%nat < 1)%Q)).
Proof.
  intros Hwf Hfull. unfold Index.selectMove.
  case_bool_decide as Heasy; [|case_bool_decide as Hmedium].
  - eexists. split; [reflexivity|]. split.
    + intros m Hm%getEasyMove_mem. by apply getEmptyNeighbors_empty.
    + intros Hnone. split; [done|]. intros [H0 H1].
      destruct (getEasyMove_candidate board ai (rnd 0%nat) H0 H1) as (m & Hm & _).
      congruence.
  - destruct (getMediumMove_candidate board ai rnd) as (m & Hm & Hin).
    eexists. split; [reflexivity|]. rewrite Hm. split; [|done].
    intros m' [= <-]. by apply getEmptyNeighbors_empty.
  - destruct (strongCandidates_returns board ai rnd Hwf) as (best & rest & Hs & Hin).
    unfold Index.getSuperStrongMove. rewrite Hs.
    eexists. split; [reflexivity|]. split; [|done].
    intros m' [= <-]. by apply getEmptyNeighbors_empty.
Qed.

Lemma selectMove000_returns (value : string) (board : BoardState) (ai : CellValue)
    (reply : option (Z * Z)) (rnd : nat → Q) :
  wfBoard board → isBoardFull board = false →
  ∃ res, Part000.selectMove value board ai reply rnd = Returns res ∧
         (∀ m, res = Some m → get board m.1 m.2 = Some EMPTY) ∧
         (res = None → value = "EASY" ∧ ¬ ((0 <= rnd 0%nat)%Q ∧ (rnd 0%nat < 1)%Q)).
Proof.
  intros Hwf Hfull. unfold Part000.selectMove.
  destruct (strongCandidates_returns board ai rnd Hwf) as (best & rest & Hs & Hin).
  assert (∃ res, match Part000.getSuperStrongMove board ai rnd with
                 | Throws => Throws
                 | Returns move => Returns (Some move)
                 end = Returns res ∧
                 (∀ m, res = Some m → get board m.1 m.2 = Some EMPTY) ∧
                 (res = None → value = "EASY" ∧
                               ¬ ((0 <= rnd 0%nat)%Q ∧ (rnd 0%nat < 1)%Q))) as Hstrong.
  { unfold Part000.getSuperStrongMove. rewrite Hs.
    eexists. split; [reflexivity|]. split; [|done].
    intros m' [= <-]. by apply getEmptyNeighbors_empty. }
  case_bool_decide as Heasy; [|case_bool_decide as Hmedium; [|case_bool_decide as Hss]].
  - eexists. split; [reflexivity|]. split.
    + intros m Hm%getEasyMove_mem. by apply getEmptyNeighbors_empty.
    + intros Hnone. split; [done|]. intros [H0 H1].
      destruct (getEasyMove_candidate board ai (rnd 0%nat) H0 H1) as (m & Hm & _).
      congruence.
  - destruct (getMediumMove_candidate board ai rnd) as (m & Hm & Hin').
    eexists. split; [reflexivity|]. rewrite Hm. split; [|done].
    intros m' [= <-]. by apply getEmptyNeighbors_empty.
  - exact Hstrong.
  - unfold Part000.getGeminiMove. cbn zeta.
    destruct reply as [[row col]|]; [|exact Hstrong].
    destruct (_ && cellIs board row col EMPTY) eqn:Hvalid; [|exact Hstrong].
    apply andb_true_iff in Hvalid as [_ Hcell].
    eexists. split; [reflexivity|]. split; [|done].
    intros m' [= <-]. by apply bool_decide_eq_true in Hcell.
Qed.

Lemma gameInv_no_timer (s : State) : gameInv s → gameInv (setPendingAi None s).
Proof.
  intros (Hwf & Hturn & Hp1 & Hp2 & Hhc & Hcur & Hcount & Hres & Hsnap).
  unfold gameInv. repeat (split; [assumption|]).
  intros call Hcall. discriminate Hcall.
Qed.

Lemma gameInv_idle (s : State) : gameInv s → isAiThinking s = false → pendingAi s = None.
Proof.
  intros (_ & _ & _ & _ & _ & _ & _ & _ & Hsnap) Hidle.
  destruct (pendingAi s) as [call|] eqn:Hcall; [|done].
  destruct (Hsnap call Hcall) as (_ & _ & _ & _ & _ & _ & Hthink & _). congruence.
Qed.

Lemma gameInv_newSession (mode : GameMode) (diff : string) (seat : CellValue)
    (connected : bool) :
  seat = PLAYER_BLACK ∨ seat = PLAYER_WHITE →
  gameInv (Index.newSession mode diff seat connected).
Proof.
  intros Hseat. unfold gameInv, snapshotInv. simpl.
  split; [split; [reflexivity|]; by repeat constructor|].
  split; [done|]. split; [done|]. split; [done|]. split; [exact Hseat|].
  split; [reflexivity|]. split; [intros _; reflexivity|]. split; intros ? ?; done.
Qed.

Lemma gameInv_click (s : State) (r c : Z) :
  gameInv s → gameInv (Index.handleCellClick s r c).1.
Proof.
  intros Hinv. unfold Index.handleCellClick.
  destruct (isGameOver s || isAiThinking s) eqn:Hbusy; [done|].
  apply orb_false_iff in Hbusy as [Hover Hidle].
  repeat (case_match; simpl; try done).
  all: apply (gameInv_processTurn Index.isP1 s r c (Some (r, c)) Hinv);
    [by apply gameInv_idle | done | by apply rawRead_get_empty].
Qed.

Lemma gameInv_click000 (s : State) (r c : Z) :
  gameInv s → gameInv (Part000.handleCellClick s r c).
Proof.
  intros Hinv. unfold Part000.handleCellClick.
  destruct (isGameOver s || isAiThinking s) eqn:Hbusy; [done|].
  apply orb_false_iff in Hbusy as [Hover Hidle].
  repeat (case_match; simpl; try done).
  all: apply (gameInv_processTurn Part000.isP1Move s r c (Some (r, c)) Hinv);
    [by apply gameInv_idle | done | by apply rawRead_get_empty].
Qed.

Lemma gameInv_gameOver (s : State) : gameInv s → pendingAi s = None →
  gameInv (setIsGameOver true s).
Proof.
  intros (Hwf & Hturn & Hp1 & Hp2 & Hhc & Hcur & Hcount & Hres & Hsnap) Hpend.
  unfold gameInv. repeat (split; [assumption|]).
  split; [intros Hover; discriminate Hover|]. split; [assumption|].
  intros call Hcall. simpl in Hcall. congruence.
Qed.

Lemma scores_eta (sc : Scores) : mkScores (p1 sc) (p2 sc) = sc.
Proof. by destruct sc. Qed.

Lemma gameInv_ai (difficulty : string) (s : State) (rnd : nat → Q) :
  gameInv s → gameInv (Index.aiTimerFires difficulty s rnd).
Proof.
  intros Hinv. unfold Index.aiTimerFires.
  destruct (pendingAi s) as [call|] eqn:Hcall; [|done].
  pose proof (gameInv_no_timer s Hinv) as Hinv0.
  pose proof Hinv as (Hwf & _ & _ & _ & _ & _ & _ & _ & Hsnap).
  destruct (Hsnap call Hcall)
    as (Hb & Hpl & Hhc & Hhs & Has & Htc & _ & Hover & _ & Hfull & _).
  unfold Index.makeAiMove. cbn zeta. rewrite Hb, Hpl, Hhc, Hhs, Has, Htc, scores_eta.
  destruct (selectMove_returns difficulty (board s) (currentPlayer s) rnd Hwf Hfull)
    as (res & -> & Hlegal & _).
  destruct res as [m|]; [|by apply gameInv_gameOver].
  by apply (gameInv_processTurn Index.isP1 (setPendingAi None s) m.1 m.2 (Some m) Hinv0);
    [..|apply Hlegal].
Qed.

Lemma gameInv_ai000 (difficulty : string) (s : State) (reply : option (Z * Z))
    (rnd : nat → Q) :
  gameInv s → gameInv (Part000.aiTimerFires difficulty s reply rnd).
Proof.
  intros Hinv. unfold Part000.aiTimerFires.
  destruct (pendingAi s) as [call|] eqn:Hcall; [|done].
  pose proof (gameInv_no_timer s Hinv) as Hinv0.
  pose proof Hinv as (Hwf & _ & _ & _ & _ & _ & _ & _ & Hsnap).
  destruct (Hsnap call Hcall)
    as (Hb & Hpl & Hhc & Hhs & Has & Htc & _ & Hover & _ & Hfull & _).
  unfold Part000.makeAiMove. cbn zeta. rewrite Hb, Hpl, Hhc, Hhs, Has, Htc, scores_eta.
  destruct (selectMove000_returns difficulty (board s) (currentPlayer s) reply rnd
              Hwf Hfull) as (res & -> & Hlegal & _).
  destruct res as [m|]; [|by apply gameInv_gameOver].
  by apply (gameInv_processTurn Part000.isP1Move (setPendingAi None s) m.1 m.2 (Some m)
              Hinv0); [..|apply Hlegal].
Qed.

Lemma gameInv_remote (s : State) (r c : Z) :
  gameInv s → gameMode s = ONLINE → gameInv (Index.receiveMove s r c).
Proof.
  intros Hinv Hmode.
  assert (pendingAi s = None) as Hpend.
  { destruct (pendingAi s) as [call|] eqn:Hcall; [|done].
    destruct Hinv as (_ & _ & _ & _ & _ & _ & _ & _ & Hsnap).
    destruct (Hsnap call Hcall) as (_ & _ & _ & _ & _ & _ & _ & _ & Hpve & _).
    congruence. }
  unfold Index.receiveMove, Index.remoteMoveEffect, Index.handleRemoteMove. simpl.
  destruct (rawRead (board s) r c) as [[| |]| |] eqn:Hread; try exact Hinv.
  change (gameInv (Index.processTurn
            (setLastMove (Some (r, c))
               (setBoard (place (board s) r c (currentPlayer s))
                  (setLastRemoteMove (Some (r, c)) s)))
            (place (board s) r c (currentPlayer s)) r c (currentPlayer s)
            (humanColor s) (scores s) (turnCount s))).
  apply (gameInv_processTurn Index.isP1 (setLastRemoteMove (Some (r, c)) s) r c
           (Some (r, c))); [exact Hinv|exact Hpend| |by apply rawRead_get_empty].
  simpl. congruence.
Qed.

Lemma reachable_gameInv (s : State) :
  Index.reachable s ∨ Part000.reachable s → gameInv s.
Proof.
  intros [Hreach | Hreach].
  - induction Hreach as [mode diff|diff seat connected Hseat|s r c _ IH|diff s rnd _ IH
                        |s r c _ IH Hmode].
    + apply gameInv_newSession. by left.
    + by apply gameInv_newSession.
    + by apply gameInv_click.
    + by apply gameInv_ai.
    + by apply gameInv_remote.
  - induction Hreach as [mode diff Hmode|s r c _ IH|diff s reply rnd _ IH].
    + apply gameInv_newSession. by left.
    + by apply gameInv_click000.
    + by apply gameInv_ai000.
Qed.

Lemma afterHumanClick_reachable :
  Index.reachable afterHumanClick ∨ Part000.reachable afterHumanClick.
Proof. left. unfold afterHumanClick. apply Index.reach_click, Index.reach_local. Qed.

(** X14.  In every state reached from a fresh session, in either file,
    black is to move exactly at the even turn counters and white at the odd
    ones: colors alternate with every counted turn, also across the swaps. *)
Theorem colors_alternate (s : State) :
  Index.reachable s ∨ Part000.reachable s →
  0 ≤ turnCount s ∧
  (currentPlayer s = PLAYER_BLACK ↔ Z.even (turnCount s) = true) ∧
  (currentPlayer s = PLAYER_WHITE ↔ Z.odd (turnCount s) = true).
Proof.
  intros (_ & Hturn & _ & _ & _ & Hcur & _)%reachable_gameInv.
  split; [done|]. rewrite Hcur. unfold colorOfTurn. rewrite <- Z.negb_even.
  destruct (Z.even (turnCount s)); simpl; split; split; done.
Qed.

Lemma colors_alternate_witness :
  (Index.reachable afterFirstClick ∨ Part000.reachable afterFirstClick) ∧
  currentPlayer afterFirstClick = PLAYER_WHITE.
Proof.
  assert (Index.reachable afterFirstClick ∨ Part000.reachable afterFirstClick) as Hreach.
  { left. unfold afterFirstClick. apply Index.reach_click, Index.reach_local. }
  split; [exact Hreach|].
  apply (proj2 (proj2 (colors_alternate afterFirstClick Hreach))). reflexivity.
Defined.

(** X15.  Every counted turn is either a stone on the board or a point of
    a score.  In every reached state the board is 15x15 and no score is
    negative; while the game is not over, the stones that [countStones]
    counts plus the two scores equal [turnCount]. *)
Theorem stones_and_points (s : State) :
  Index.reachable s ∨ Part000.reachable s →
  wfBoard (board s) ∧ 0 ≤ p1 (scores s) ∧ 0 ≤ p2 (scores s) ∧
  (isGameOver s = false →
   (countStones (board s)).1 + (countStones (board s)).2
   + p1 (scores s) + p2 (scores s) = turnCount s).
Proof.
  intros (Hwf & _ & Hp1 & Hp2 & _ & _ & Hcount & _)%reachable_gameInv.
  split; [done|]. split; [done|]. split; [done|].
  rewrite countStones_spec. exact Hcount.
Qed.

Lemma stones_and_points_witness :
  (Index.reachable afterHumanClick ∨ Part000.reachable afterHumanClick) ∧
  (countStones (board afterHumanClick)).1 + (countStones (board afterHumanClick)).2
  + p1 (scores afterHumanClick) + p2 (scores afterHumanClick) = turnCount afterHumanClick.
Proof.
  split; [exact afterHumanClick_reachable|].
  apply (proj2 (proj2 (proj2 (stones_and_points afterHumanClick
                                afterHumanClick_reachable)))).
  reflexivity.
Defined.

(** X16.  No reached game ends in a tie: a stored verdict always names a
    winner. *)
Theorem verdict_names_winner (s : State) (res : GameResult) :
  Index.reachable s ∨ Part000.reachable s →
  finalResult s = Some res → winner res = P1Name ∨ winner res = P2Name.
Proof.
  intros (_ & _ & _ & _ & _ & _ & _ & Hres & _)%reachable_gameInv Hfin.
  specialize (Hres res Hfin). destruct (winner res); auto. done.
Qed.

Lemma verdict_names_winner_witness :
  (Index.reachable hostEnd ∨ Part000.reachable hostEnd) ∧
  ∃ res, finalResult hostEnd = Some res ∧ (winner res = P1Name ∨ winner res = P2Name).
Proof.
  assert (Index.reachable hostEnd ∨ Part000.reachable hostEnd) as Hreach.
  { left. apply run_reachable; [|reflexivity]. apply Index.reach_online. by left. }
  split; [exact Hreach|].
  destruct (finalResult hostEnd) as [res|] eqn:Hfin; [|vm_compute in Hfin; discriminate Hfin].
  exists res. split; [reflexivity|].
  exact (verdict_names_winner hostEnd res Hreach Hfin).
Defined.





(** ** What a step does to the board *)










(** ** The end of the game *)




(** ** Reset while the computer thinks *)

(** What the timer stores when its move selection returns a move. *)
Lemma timer_fires_with_move (difficulty : string) (s : State) (call : AiCall)
    (rnd : nat → Q) (m : Coord) :
  pendingAi s = Some call →
  Index.selectMove difficulty (aiBoard call) (aiPlayer call) rnd = Returns (Some m) →
  let s' := Index.aiTimerFires difficulty s rnd in
  board s' = cleared (place (aiBoard call) m.1 m.2 (aiPlayer call)) m.1 m.2
                     (aiPlayer call) ∧
  (isGameOver s' = false → turnCount s' = aiTurnCount call + 1).
Proof.
  intros Hcall Hmove. cbn zeta. unfold Index.aiTimerFires. rewrite Hcall.
  unfold Index.makeAiMove. rewrite Hmove. cbn zeta.
  split; [apply processTurnWith_board|].
  intros Hrun.
  match goal with
  | |- turnCount (Index.processTurn ?s1 ?b ?r ?c ?p ?hc ?sc ?t) = _ =>
      pose proof (processTurnWith_step Index.isP1 s1 b r c p hc sc t) as Hstep
  end.
  cbn zeta in Hstep.
  destruct Hstep as [(Hover & _) | (_ & Htc & _)].
  - unfold Index.processTurn in Hrun. rewrite Hover in Hrun. discriminate Hrun.
  - exact Htc.
Qed.

(** X21.  [resetGame] does not cancel a pending [setTimeout(makeAiMove)]:
    the board is emptied and clicks are accepted again, but when the timer
    fires with a move, [makeAiMove] stores the position it captured before
    the reset, with its move played, and continues from the captured turn
    counter. *)
Theorem reset_keeps_timer (difficulty : string) (s : State) (call : AiCall)
    (rnd : nat → Q) (m : Coord) :
  pendingAi s = Some call →
  Index.selectMove difficulty (aiBoard call) (aiPlayer call) rnd = Returns (Some m) →
  let s0 := Index.resetGame s in
  let s' := Index.aiTimerFires difficulty s0 rnd in
  board s0 = emptyBoard ∧ turnCount s0 = 0 ∧ isAiThinking s0 = false ∧
  isGameOver s0 = false ∧ pendingAi s0 = Some call ∧
  board s' = cleared (place (aiBoard call) m.1 m.2 (aiPlayer call)) m.1 m.2
                     (aiPlayer call) ∧
  (isGameOver s' = false → turnCount s' = aiTurnCount call + 1).
Proof.
  intros Hcall Hmove s0 s'.
  split; [reflexivity|]. split; [reflexivity|]. split; [reflexivity|].
  split; [reflexivity|]. split; [exact Hcall|].
  exact (timer_fires_with_move difficulty s0 call rnd m Hcall Hmove).
Qed.

Lemma reset_keeps_timer_witness :
  ∃ call m,
    pendingAi afterHumanClick = Some call ∧
    Index.selectMove "MEDIUM" (aiBoard call) (aiPlayer call) (λ _, 0%Q)
    = Returns (Some m) ∧
    board (Index.resetGame afterHumanClick) = emptyBoard ∧
    board (Index.aiTimerFires "MEDIUM" (Index.resetGame afterHumanClick) (λ _, 0%Q))
    = cleared (place (aiBoard call) m.1 m.2 (aiPlayer call)) m.1 m.2 (aiPlayer call).
Proof.
  destruct (pendingAi afterHumanClick) as [call|] eqn:Hcall;
    [|vm_compute in Hcall; discriminate Hcall].
  destruct (Index.selectMove "MEDIUM" (aiBoard call) (aiPlayer call) (λ _, 0%Q))
    as [[m|]|] eqn:Hmove.
  - exists call, m. split; [reflexivity|]. split; [exact Hmove|].
    pose proof (reset_keeps_timer "MEDIUM" afterHumanClick call (λ _, 0%Q) m
                  Hcall Hmove) as (Hempty & _ & _ & _ & _ & Hboard & _).
    split; [exact Hempty|exact Hboard].
  - exfalso. vm_compute in Hcall. injection Hcall as <-.
    vm_compute in Hmove. discriminate Hmove.
  - exfalso. vm_compute in Hcall. injection Hcall as <-.
    vm_compute in Hmove. discriminate Hmove.
Defined.

(** ** The tiers and their own lines *)

Lemma Qle_plus_nonneg (a b c : Q) : (a <= b)%Q → (0 <= c)%Q → (a <= b + c)%Q.
Proof.
  intros Hab Hc. apply (Qle_trans _ (b + 0)%Q).
  - by rewrite Qplus_0_r.
  - apply Qplus_le_compat; [apply Qle_refl|done].
Qed.

Lemma Qmult_inject_nonneg (u : Q) (z : Z) : (0 <= u)%Q → 0 ≤ z → (0 <= u * inject_Z z)%Q.
Proof.
  intros Hu Hz. apply Qmult_le_0_compat; [done|].
  change 0%Q with (inject_Z 0). by rewrite <- Zle_Qle.
Qed.

Lemma lineScore_mono (currentBoard : BoardState) (player : CellValue) (r c score : Z)
    (d : Z * Z) :
  score ≤ lineScore currentBoard player r c score d.
Proof.
  unfold lineScore.
  destruct (probe currentBoard player false r c d.1 d.2 (seqZ 1 4) 0 0) as [c1 o1].
  destruct (probe currentBoard player true r c d.1 d.2 (seqZ 1 4) c1 o1) as [c2 o2].
  cbn zeta. repeat case_match; lia.
Qed.

Lemma lineScore_fold (currentBoard : BoardState) (player : CellValue) (r c : Z)
    (dirs : list (Z * Z)) (score : Z) :
  score ≤ foldl (lineScore currentBoard player r c) score dirs.
Proof.
  revert score. induction dirs as [|d dirs IH]; intros score; [simpl; lia|].
  simpl. etrans; [|apply IH]. apply lineScore_mono.
Qed.

(** [evaluate] is negative exactly on the moves that complete a line. *)
Lemma evaluate_sign (rnd : nat → Q) (n : nat) (r c : Z) (player : CellValue)
    (currentBoard : BoardState) :
  (0 <= rnd n)%Q →
  match checkLongLines currentBoard r c player with
  | Some _ => ((evaluate rnd n r c player currentBoard).1 < 0)%Q
  | None => (0 <= (evaluate rnd n r c player currentBoard).1)%Q
  end.
Proof.
  intros Hrnd. unfold evaluate.
  destruct (checkLongLines currentBoard r c player) as [stones|] eqn:Hexp; cbn [fst].
  - apply checkLongLines_nonempty in Hexp.
    change 0%Q with (inject_Z 0). rewrite <- Zlt_Qlt. lia.
  - apply Qle_plus_nonneg; [|by apply Qmult_inject_nonneg].
    change 0%Q with (inject_Z 0). rewrite <- Zle_Qle. apply lineScore_fold.
Qed.

(** X22.  Level 2 does not complete a line of its own when it can avoid
    it: with draws of [Math.random()] that are not negative, if some
    candidate cell completes no line of five or more, the cell returned by
    [getMediumMove] completes none either. *)
Theorem medium_avoids_own_line (board : BoardState) (ai : CellValue)
    (rnd : nat → Q) (safe : Coord) :
  (∀ n, (0 <= rnd n)%Q) →
  safe ∈ getEmptyNeighbors board 1 →
  checkLongLines (place board safe.1 safe.2 ai) safe.1 safe.2 ai = None →
  ∃ m, getMediumMove board ai rnd = Some m ∧ m ∈ getEmptyNeighbors board 1 ∧
       checkLongLines (place board m.1 m.2 ai) m.1 m.2 ai = None.
Proof.
  intros Hrnd Hin Hsafe.
  destruct (getMediumMove_candidate board ai rnd) as (m & Hm & Hmem).
  exists m. split; [done|]. split; [done|].
  revert Hm. unfold getMediumMove.
  set (moves := getEmptyNeighbors board 1) in *.
  set (f := λ (st : option Q * option Coord * nat) (move : Coord), _).
  set (ok := λ move : Coord,
         checkLongLines (place board move.1 move.2 ai) move.1 move.2 ai = None).
  set (good := λ st : option Q * option Coord * nat,
         ∃ b m', st.1.1 = Some b ∧ st.1.2 = Some m' ∧ (0 <= b)%Q ∧ ok m').
  set (weak := λ st : option Q * option Coord * nat,
         ∀ b, st.1.1 = Some b → (b < 0)%Q).
  assert (∀ st x, good st → good (f st x)) as Hgood.
  { intros [[bestScore bestMove] n] x (b & m' & Hb & Hm' & Hpos & Hok).
    simpl in Hb, Hm'. subst bestScore bestMove. unfold f.
    pose proof (evaluate_sign rnd n x.1 x.2 ai (place board x.1 x.2 ai) (Hrnd n)) as Hsign.
    destruct (evaluate rnd n x.1 x.2 ai _) as [score n'] eqn:Heval. cbn [fst] in Hsign.
    destruct (beats score (Some b)) eqn:Hbeats; [|by exists b, m'].
    simpl in Hbeats. apply negb_true_iff in Hbeats.
    assert (b < score)%Q as Hlt.
    { apply Qnot_le_lt. intros Hle%Qle_bool_iff. congruence. }
    exists score, x. split; [done|]. split; [done|].
    destruct (checkLongLines (place board x.1 x.2 ai) x.1 x.2 ai) eqn:Hexp.
    - exfalso. apply (Qlt_irrefl score).
      eapply Qlt_le_trans; [exact Hsign|]. eapply Qle_trans; [exact Hpos|].
      by apply Qlt_le_weak.
    - split; [done|exact Hexp]. }
  assert (∀ st x, weak st → ok x → good (f st x)) as Hfirst.
  { intros [[bestScore bestMove] n] x Hweak Hok. unfold f.
    pose proof (evaluate_sign rnd n x.1 x.2 ai (place board x.1 x.2 ai) (Hrnd n)) as Hsign.
    unfold ok in Hok. rewrite Hok in Hsign.
    destruct (evaluate rnd n x.1 x.2 ai _) as [score n'] eqn:Heval. cbn [fst] in Hsign.
    assert (beats score bestScore = true) as ->.
    { destruct bestScore as [b|]; [|done]. simpl. apply negb_true_iff.
      destruct (Qle_bool score b) eqn:Hle; [|done]. apply Qle_bool_iff in Hle.
      exfalso. apply (Qlt_irrefl b).
      eapply Qlt_le_trans; [by apply Hweak|]. by eapply Qle_trans. }
    by exists score, x. }
  assert (∀ st x, weak st → weak (f st x) ∨ good (f st x)) as Hweak.
  { intros [[bestScore bestMove] n] x Hw.
    destruct (checkLongLines (place board x.1 x.2 ai) x.1 x.2 ai) eqn:Hexp;
      [|right; by apply Hfirst].
    left. unfold f.
    pose proof (evaluate_sign rnd n x.1 x.2 ai (place board x.1 x.2 ai) (Hrnd n)) as Hsign.
    rewrite Hexp in Hsign.
    destruct (evaluate rnd n x.1 x.2 ai _) as [score n'] eqn:Heval. cbn [fst] in Hsign.
    destruct (beats score bestScore); [|done].
    intros b [= <-]. done. }
  assert (∀ l st, good st → good (foldl f st l)) as Hkeep.
  { induction l as [|x l IH]; intros st Hst; [done|]. simpl. by apply IH, Hgood. }
  assert (∀ l st, weak st → safe ∈ l → good (foldl f st l)) as Hfold.
  { induction l as [|x l IH]; intros st Hst Hl; [by apply elem_of_nil in Hl|].
    simpl. apply elem_of_cons in Hl as [<- | Hl].
    - by apply Hkeep, Hfirst.
    - destruct (Hweak st x Hst) as [Hw | Hg]; [by apply IH|by apply Hkeep]. }
  destruct (Hfold moves (None, jsIndex moves 0, 0%nat)) as (b & m' & _ & Hm' & _ & Hok);
    [by intros b Hb|done|].
  destruct (foldl f _ moves) as [[? ?] ?]. simpl in Hm'. intros Hm. congruence.
Qed.

Lemma medium_avoids_own_line_witness :
  ∃ m, getMediumMove oneStone PLAYER_BLACK (λ _, 0%Q) = Some m ∧
       m ∈ getEmptyNeighbors oneStone 1 ∧
       checkLongLines (place oneStone m.1 m.2 PLAYER_BLACK) m.1 m.2 PLAYER_BLACK = None.
Proof.
  apply (medium_avoids_own_line oneStone PLAYER_BLACK (λ _, 0%Q) (7, 0)).
  - intros _. discriminate.
  - vm_compute. repeat constructor.
  - vm_compute. reflexivity.
Defined.

Lemma adjacencyScore_bound (tempBoard : BoardState) (ai : CellValue) (r c : Z)
    (dirs : list (Z * Z)) (acc : Outcome Z) (z : Z) :
  foldl (adjacencyScore tempBoard ai r c) acc dirs = Returns z →
  ∃ z0, acc = Returns z0 ∧ z0 - 50 * Z.of_nat (length dirs) ≤ z.
Proof.
  revert acc. induction dirs as [|d dirs IH]; intros acc Hfold.
  - simpl in Hfold. exists z. split; [done|]. simpl. lia.
  - simpl in Hfold. destruct (IH _ Hfold) as (z1 & Hstep & Hz1).
    unfold adjacencyScore in Hstep.
    destruct acc as [z0|]; [|done]. exists z0. split; [done|].
    destruct (neighbourIsAi tempBoard ai (r + d.1) (c + d.2)) as [fwd|]; [|done].
    destruct (neighbourIsAi tempBoard ai (r - d.1) (c - d.2)) as [bwd|]; [|done].
    injection Hstep as <-. simpl length.
    destruct fwd, bwd; simpl in *; lia.
Qed.

Lemma countLiberties_nonneg (tempBoard : BoardState) (r c : Z) :
  0 ≤ countLiberties tempBoard r c.
Proof.
  unfold countLiberties. generalize ring. intros l.
  assert (∀ z, 0 ≤ z →
            0 ≤ foldl (λ liberties (o : Z * Z),
                         if inb (r + o.1) && inb (c + o.2)
                            && cellIs tempBoard (r + o.1) (c + o.2) EMPTY
                         then liberties + 1 else liberties) z l) as H; [|by apply H].
  induction l as [|o l IH]; intros z Hz; [done|].
  simpl. apply IH. case_match; lia.
Qed.

(** The scores that [getSuperStrongMove] sorts: at most -10000 for a cell
    that completes a line, at least -200 for any other. *)
Lemma rescore_classified (board : BoardState) (ai : CellValue) (rnd : nat → Q)
    (moves : list Coord) (n : nat) (l : list (Coord * Q)) :
  (∀ k, (0 <= rnd k)%Q) →
  rescore board ai rnd n (map (initialCandidate board ai) moves) = Returns l →
  l.*1 = moves ∧
  Forall (λ x : Coord * Q,
            match checkLongLines (place board x.1.1 x.1.2 ai) x.1.1 x.1.2 ai with
            | Some _ => (x.2 <= inject_Z (-10000))%Q
            | None => (inject_Z (-200) <= x.2)%Q
            end) l.
Proof.
  intros Hrnd. revert n l. induction moves as [|m moves IH]; intros n l Hres.
  - simpl in Hres. injection Hres as <-. by split.
  - cbn [map rescore] in Hres. unfold initialCandidate at 1 in Hres.
    destruct (checkLongLines (place board m.1 m.2 ai) m.1 m.2 ai) as [stones|] eqn:Hexp.
    + pose proof (checkLongLines_nonempty _ _ _ _ _ Hexp) as Hlen.
      assert (Qle_bool (inject_Z (-5000)) (inject_Z (-10000 * Z.of_nat (length stones)))
              = false) as Hskip.
      { destruct (Qle_bool _ _) eqn:Hle; [|done].
        apply Qle_bool_iff in Hle. rewrite <- Zle_Qle in Hle. lia. }
      rewrite Hskip in Hres. cbn [negb] in Hres.
      destruct (rescore board ai rnd n _) as [rest|] eqn:Hrest; [|done].
      injection Hres as <-. destruct (IH _ _ Hrest) as [Hfst Hall].
      split; [by rewrite fmap_cons, Hfst|]. constructor; [|done].
      cbn [fst snd]. rewrite Hexp. rewrite <- Zle_Qle. lia.
    + change (negb (Qle_bool (inject_Z (-5000)) 0)) with false in Hres. cbn iota in Hres.
      destruct (foldl _ (Returns 0) directions) as [z|] eqn:Hadj; [|done].
      destruct (rescore board ai rnd (S n) _) as [rest|] eqn:Hrest; [|done].
      injection Hres as <-. destruct (IH _ _ Hrest) as [Hfst Hall].
      split; [by rewrite fmap_cons, Hfst|]. constructor; [|done].
      cbn [fst snd]. rewrite Hexp.
      destruct (adjacencyScore_bound _ _ _ _ _ _ _ Hadj) as (z0 & [= <-] & Hz).
      pose proof (countLiberties_nonneg (place board m.1 m.2 ai) m.1 m.2) as Hlib.
      simpl length in Hz.
      rewrite Qplus_0_l. apply Qle_plus_nonneg; [|by apply Qmult_inject_nonneg].
      rewrite <- Zle_Qle. lia.
Qed.

(** After [candidates.sort], no candidate has a higher score than the
    first. *)
Lemma insertByScore_head (x : Coord * Q) (l : list (Coord * Q)) :
  (∀ best rest, l = best :: rest → Forall (λ y, (y.2 <= best.2)%Q) rest) →
  ∀ best rest, insertByScore x l = best :: rest → Forall (λ y, (y.2 <= best.2)%Q) rest.
Proof.
  intros Hl best rest Hins. destruct l as [|y l']; simpl in Hins.
  - injection Hins as <- <-. constructor.
  - specialize (Hl y l' eq_refl).
    destruct (Qle_bool y.2 x.2) eqn:Hle; simpl in Hins; injection Hins as <- <-.
    + apply Qle_bool_iff in Hle. constructor; [done|].
      eapply Forall_impl; [exact Hl|]. intros z Hz. simpl in Hz. by eapply Qle_trans.
    + rewrite insertByScore_perm. constructor; [|done].
      apply Qlt_le_weak, Qnot_le_lt. intros Hle'%Qle_bool_iff. congruence.
Qed.

Lemma sortByScore_head (l : list (Coord * Q)) (best : Coord * Q)
    (rest : list (Coord * Q)) :
  sortByScore l = best :: rest → Forall (λ y, (y.2 <= best.2)%Q) rest.
Proof.
  revert best rest. induction l as [|x l IH]; intros best rest Hsort; [done|].
  simpl in Hsort. by eapply insertByScore_head.
Qed.

(** X23.  Level 3 does not complete a line of its own when it can avoid
    it, in either file: with draws that are not negative, if some candidate
    cell completes no line of five or more, the cell returned by
    [getSuperStrongMove] completes none either. *)
Theorem strong_avoids_own_line (board : BoardState) (ai : CellValue)
    (rnd : nat → Q) (safe : Coord) :
  wfBoard board → (∀ n, (0 <= rnd n)%Q) →
  safe ∈ getEmptyNeighbors board 1 →
  checkLongLines (place board safe.1 safe.2 ai) safe.1 safe.2 ai = None →
  ∃ m, Index.getSuperStrongMove board ai rnd = Returns m ∧
       Part000.getSuperStrongMove board ai rnd = Returns m ∧
       m ∈ getEmptyNeighbors board 1 ∧
       checkLongLines (place board m.1 m.2 ai) m.1 m.2 ai = None.
Proof.
  intros Hwf Hrnd Hin Hsafe.
  destruct (strongCandidates_returns board ai rnd Hwf) as (best & rest & Hs & Hmem).
  exists best.1. unfold Index.getSuperStrongMove, Part000.getSuperStrongMove.
  rewrite Hs. split; [done|]. split; [done|]. split; [done|].
  unfold strongCandidates in Hs. cbn zeta in Hs.
  destruct (rescore board ai rnd 0 _) as [l|] eqn:Hres; [|done].
  injection Hs as Hsort.
  destruct (rescore_classified board ai rnd _ 0 l Hrnd Hres) as [Hfst Hall].
  rewrite Forall_forall in Hall.
  pose proof (sortByScore_head l best rest Hsort) as Hmax.
  rewrite Forall_forall in Hmax.
  pose proof (sortByScore_perm l) as Hperm. rewrite Hsort in Hperm.
  assert (∃ y, y ∈ l ∧ y.1 = safe) as (y & Hy & Hy1).
  { rewrite <- Hfst in Hin. apply list_elem_of_fmap in Hin as (y & -> & Hy). eauto. }
  pose proof (Hall y Hy) as Hscore. rewrite Hy1, Hsafe in Hscore.
  assert (y.2 <= best.2)%Q as Hle.
  { rewrite <- Hperm in Hy. apply elem_of_cons in Hy as [-> | Hy];
      [apply Qle_refl|by apply Hmax]. }
  assert (best ∈ l) as Hbest by (rewrite <- Hperm; left).
  pose proof (Hall best Hbest) as Hscore'.
  destruct (checkLongLines (place board best.1.1 best.1.2 ai) best.1.1 best.1.2 ai)
    as [stones|]; [|done].
  exfalso.
  assert (inject_Z (-200) <= inject_Z (-10000))%Q as Habs.
  { eapply Qle_trans; [exact Hscore|]. by eapply Qle_trans. }
  rewrite <- Zle_Qle in Habs. lia.
Qed.

Lemma strong_avoids_own_line_witness :
  ∃ m, Index.getSuperStrongMove oneStone PLAYER_BLACK (λ _, 0%Q) = Returns m ∧
       Part000.getSuperStrongMove oneStone PLAYER_BLACK (λ _, 0%Q) = Returns m ∧
       m ∈ getEmptyNeighbors oneStone 1 ∧
       checkLongLines (place oneStone m.1 m.2 PLAYER_BLACK) m.1 m.2 PLAYER_BLACK = None.
Proof.
  apply (strong_avoids_own_line oneStone PLAYER_BLACK (λ _, 0%Q) (7, 0)).
  - exact wfBoard_oneStone.
  - intros _. discriminate.
  - vm_compute. repeat constructor.
  - vm_compute. reflexivity.
Defined.

(** ** Two peers *)

(** The part of the result of [processTurn] that does not depend on the
    state it starts from. *)
Lemma processTurnWith_core moverIsP1 s newBoard r c mover hc base turn :
  let s' := processTurnWith moverIsP1 s newBoard r c mover hc base turn in
  let sc := awarded moverIsP1 newBoard r c mover hc base turn in
  let b := cleared newBoard r c mover in
  let terminal :=
    (bool_decide (200 ≤ p1 sc) && bool_decide (100 ≤ p1 sc - p2 sc))
    || (bool_decide (200 ≤ p2 sc) && bool_decide (100 ≤ p2 sc - p1 sc))
    || isBoardFull b in
  let swap := bool_decide (0 < turn + 1) && bool_decide (Z.rem (turn + 1) 30 = 0) in
  board s' = b ∧ scores s' = sc ∧
  isGameOver s' = (if terminal then true else isGameOver s) ∧
  turnCount s' = (if terminal then turnCount s else turn + 1) ∧
  currentPlayer s' = (if terminal then currentPlayer s else otherColor mover) ∧
  humanColor s' = (if terminal then humanColor s
                   else if swap then otherColor hc else humanColor s).
Proof.
  cbn zeta. split; [apply processTurnWith_board|].
  split; [apply processTurnWith_scores|].
  pt_unfold. pt_explosion; repeat (case_match; simpl in *; try done).
Qed.

Lemma awarded_isP1 (newBoard : BoardState) (r c : Z) (mover hc hc' : CellValue)
    (base : Scores) (turn : Z) :
  awarded Index.isP1 newBoard r c mover hc base turn =
  awarded Index.isP1 newBoard r c mover hc' base turn.
Proof. unfold awarded. by rewrite !isP1_seat. Qed.

(** X24.  The two ends of an online game stay in step.  When they share
    the position, a click at one end is either refused, and nothing is
    sent, or played and sent as one MOVE message; playing that message at
    the other end gives the same board, scores, counter, player to move and
    end of game again, with the colors of the two ends still opposite. *)
Theorem online_peers_stay_in_sync (a b : State) (r c : Z) :
  inSync a b → conn a = true →
  (Index.handleCellClick a r c = (a, [])) ∨
  ((Index.handleCellClick a r c).2 = [MOVE r c] ∧
   get (board a) r c = Some EMPTY ∧
   inSync (Index.handleCellClick a r c).1 (Index.receiveMove b r c)).
Proof.
  intros (Hma & Hmb & Hboard & Hscores & Hturn & Hcur & Hover & Hhc) Hconn.
  unfold Index.handleCellClick.
  destruct (isGameOver a || isAiThinking a); [by left|].
  destruct (_ && _); [by left|]. destruct (_ && _); [by left|].
  destruct (rawRead (board a) r c) as [[| |]| |] eqn:Hread; try (by left).
  right. cbn [fst snd]. rewrite Hma, Hconn.
  split; [reflexivity|]. split; [by apply rawRead_get_empty|].
  unfold Index.receiveMove, Index.remoteMoveEffect, Index.handleRemoteMove.
  cbn [lastRemoteMove setLastRemoteMove board currentPlayer humanColor scores turnCount].
  rewrite <- Hboard, Hread, <- Hcur, <- Hscores, <- Hturn.
  set (newBoard := place (board a) r c (currentPlayer a)).
  unfold Index.processTurn.
  match goal with
  | |- inSync (processTurnWith _ ?sa _ _ _ _ ?ha _ _)
               (setLastRemoteMove None (processTurnWith _ ?sb _ _ _ _ ?hb _ _)) =>
      destruct (processTurnWith_core Index.isP1 sa newBoard r c (currentPlayer a) ha
                  (scores a) (turnCount a)) as (Hb1 & Hs1 & Ho1 & Ht1 & Hc1 & Hh1);
      destruct (processTurnWith_core Index.isP1 sb newBoard r c (currentPlayer a) hb
                  (scores a) (turnCount a)) as (Hb2 & Hs2 & Ho2 & Ht2 & Hc2 & Hh2);
      pose proof (processTurnWith_gameMode Index.isP1 sa newBoard r c (currentPlayer a) ha
                    (scores a) (turnCount a)) as Hm1;
      pose proof (processTurnWith_gameMode Index.isP1 sb newBoard r c (currentPlayer a) hb
                    (scores a) (turnCount a)) as Hm2
  end.
  rewrite (awarded_isP1 _ _ _ _ (humanColor b) (humanColor a)) in Hs2, Ho2, Ht2, Hc2, Hh2.
  cbn [gameMode isGameOver turnCount currentPlayer humanColor
       setLastMove setBoard setLastRemoteMove] in Hm1, Hm2, Ho1, Ht1, Hc1, Hh1, Ho2, Ht2, Hc2, Hh2.
  match type of Ho1 with
  | _ = (if ?t then _ else _) => generalize dependent t; intros terminal
  end.
  intros Ho1 Ht1 Hc1 Hh1 Ho2 Ht2 Hc2 Hh2.
  match goal with
  | |- inSync ?x (setLastRemoteMove None ?y) => change (inSync x y)
  end.
  unfold inSync.
  rewrite Hm1, Hm2, Hb1, Hb2, Hs1, Hs2, Ho1, Ho2, Ht1, Ht2, Hc1, Hc2, Hh1, Hh2, Hhc.
  destruct terminal; [by repeat split|].
  repeat split; try done. by destruct (_ && _).
Qed.

Lemma online_peers_stay_in_sync_witness :
  inSync (Index.newSession ONLINE "EASY" PLAYER_BLACK true)
         (Index.newSession ONLINE "EASY" PLAYER_WHITE true) ∧
  inSync (Index.handleCellClick (Index.newSession ONLINE "EASY" PLAYER_BLACK true) 7 7).1
         (Index.receiveMove (Index.newSession ONLINE "EASY" PLAYER_WHITE true) 7 7).
Proof.
  assert (inSync (Index.newSession ONLINE "EASY" PLAYER_BLACK true)
                 (Index.newSession ONLINE "EASY" PLAYER_WHITE true)) as Hsync.
  { repeat split. }
  split; [exact Hsync|].
  destruct (online_peers_stay_in_sync _ _ 7 7 Hsync eq_refl) as [Hno | (_ & _ & H)];
    [|exact H].
  exfalso. vm_compute in Hno. discriminate Hno.
Defined.
